(** * Particle swarm optimisation (PSO.py, demos.py): a shallow embedding

    The Python module [PSO.py] and the demo of [demos.py] are embedded as
    executable Rocq functions.

    - Python numbers are rationals ([Q]); [float('inf')] is the extra value
      [PInf] of [ereal].  Rounding, NaN and overflow are not modelled.
    - A numpy value is either a 0-d scalar or a 1-d array ([npval]); the
      elementwise operators follow numpy's broadcasting rule for these shapes.
    - Arrays are objects: they live in a store and particle fields hold
      references to them, so that [gbest_position = particle.pbest_position]
      shares the array exactly as the assignment in the source does.
    - The process-wide random generator is the sequence [draws] of the store
      together with the index [next] of the first value not yet consumed.
    - Exceptions are the [Raise] results of an error monad.
    - [print] calls and the list [particle_debug], which is never read, have
      no counterpart in the state; [examine_particles] is still run since it
      may raise. *)

From Stdlib Require Import QArith Qminmax Qabs Lqa Qpower.
From stdpp Require Import gmap strings list.

Local Open Scope Q_scope.

(** ** Python values and exceptions *)

Inductive pyerr :=
  | KeyError (key : string)
  | ValueError
  | IndexError
  | TypeError
  | ReferenceError.

Inductive result (A : Type) :=
  | Ok (a : A)
  | Raise (e : pyerr).
Arguments Ok {A} a.
Arguments Raise {A} e.

(** A float that may be [float('inf')]. *)
Inductive ereal :=
  | Fin (q : Q)
  | PInf.

Definition Qlt_bool (x y : Q) : bool := negb (Qle_bool y x).

(** [a < b] on floats. *)
Definition ereal_ltb (a b : ereal) : bool :=
  match a, b with
  | Fin x, Fin y => Qlt_bool x y
  | Fin _, PInf => true
  | PInf, _ => false
  end.

(** [a <= b], used in statements only. *)
Definition ereal_le (a b : ereal) : Prop :=
  match a, b with
  | Fin x, Fin y => x <= y
  | _, PInf => True
  | PInf, Fin _ => False
  end.

(** [np.abs(a - b) < eps]: [inf - x] is infinite and [inf - inf] is NaN, and
    neither compares below [eps]. *)
Definition abs_diff_ltb (a b : ereal) (eps : Q) : bool :=
  match a, b with
  | Fin x, Fin y => Qlt_bool (Qabs (x - y)) eps
  | _, _ => false
  end.

(** Truth value of a Python number. *)
Definition truthy (q : Q) : bool := negb (Qeq_bool q 0).

(** The integer a number denotes, when it is one ([range], [np.zeros] and
    indexing reject anything else). *)
Definition as_int (q : Q) : option Z :=
  if (Zpos (Qden (Qred q)) =? 1)%Z then Some (Qnum (Qred q)) else None.

(** ** numpy values *)

Inductive npval :=
  | Scalar (q : Q)
  | Vec (xs : list Q).

(** Elementwise binary operator with broadcasting. *)
Definition broadcast (f : Q -> Q -> Q) (a b : npval) : result npval :=
  match a, b with
  | Scalar x, Scalar y => Ok (Scalar (f x y))
  | Scalar x, Vec ys => Ok (Vec (map (f x) ys))
  | Vec xs, Scalar y => Ok (Vec (map (fun x => f x y) xs))
  | Vec xs, Vec ys =>
      if (length xs =? length ys)%nat then Ok (Vec (zip_with f xs ys))
      else match xs, ys with
           | [x], _ => Ok (Vec (map (f x) ys))
           | _, [y] => Ok (Vec (map (fun x => f x y) xs))
           | _, _ => Raise ValueError
           end
  end.

Definition np_add := broadcast Qplus.
Definition np_sub := broadcast Qminus.
Definition np_mul := broadcast Qmult.

(** [np.max([a, b], axis=0)] and [np.min([a, b], axis=0)]: the two rows must
    have one shape. *)
Definition np_reduce2 (f : Q -> Q -> Q) (a b : npval) : result npval :=
  match a, b with
  | Scalar x, Scalar y => Ok (Scalar (f x y))
  | Vec xs, Vec ys =>
      if (length xs =? length ys)%nat then Ok (Vec (zip_with f xs ys))
      else Raise ValueError
  | _, _ => Raise ValueError
  end.

Definition np_max2 := np_reduce2 Qmax.
Definition np_min2 := np_reduce2 Qmin.

(** Unary minus, [-a]. *)
Definition np_neg (a : npval) : npval :=
  match a with
  | Scalar x => Scalar (- x)
  | Vec xs => Vec (map Qopp xs)
  end.

(** Broadcasting a parameter of [np.random.uniform] to the row length [n]. *)
Definition broadcast_to (n : nat) (a : npval) : result (list Q) :=
  match a with
  | Scalar x => Ok (replicate n x)
  | Vec xs =>
      if (length xs =? n)%nat then Ok xs
      else match xs with
           | [x] => Ok (replicate n x)
           | _ => Raise ValueError
           end
  end.

(** [len(a)]. *)
Definition np_len (a : npval) : result nat :=
  match a with
  | Scalar _ => Raise TypeError
  | Vec xs => Ok (length xs)
  end.

(** ** The store and the monad of the interpreter state *)

Definition loc := nat.

Record world := World {
  heap : list (list Q);   (* the arrays allocated so far *)
  draws : nat -> Q;       (* what the generator yields, in order *)
  next : nat              (* number of values consumed *)
}.

Definition M (A : Type) : Type := world -> result (A * world).

Definition ret {A} (a : A) : M A := fun σ => Ok (a, σ).

Definition bind {A B} (m : M A) (k : A -> M B) : M B :=
  fun σ => match m σ with
           | Ok (a, σ') => k a σ'
           | Raise e => Raise e
           end.

Definition raise {A} (e : pyerr) : M A := fun _ => Raise e.

Definition lift {A} (r : result A) : M A :=
  fun σ => match r with
           | Ok a => Ok (a, σ)
           | Raise e => Raise e
           end.

Declare Scope py_scope.
Delimit Scope py_scope with py.
Notation "x <- m ;; k" := (bind m (fun x => k))
  (at level 100, m at next level, right associativity) : py_scope.
Local Open Scope py_scope.

(** A reference to an array, or an immutable number. *)
Inductive pyobj :=
  | PyNum (q : Q)
  | PyArr (l : loc).

Definition alloc (xs : list Q) : M loc :=
  fun σ => Ok (length (heap σ), World (heap σ ++ [xs]) (draws σ) (next σ)).

Definition load (o : pyobj) : M npval :=
  fun σ => match o with
           | PyNum q => Ok (Scalar q, σ)
           | PyArr l => match heap σ !! l with
                        | Some xs => Ok (Vec xs, σ)
                        | None => Raise ReferenceError
                        end
           end.

(** The object a freshly computed numpy value is bound to. *)
Definition new (a : npval) : M pyobj :=
  match a with
  | Scalar q => ret (PyNum q)
  | Vec xs => l <- alloc xs ;; ret (PyArr l)
  end.

(** [np.random.rand()]: the next value of the generator. *)
Definition np_random_rand : M Q :=
  fun σ => Ok (draws σ (next σ), World (heap σ) (draws σ) (S (next σ))).

(** [n] values of the generator, in order. *)
Fixpoint np_random_sample (n : nat) : M (list Q) :=
  match n with
  | O => ret []
  | S n' => u <- np_random_rand ;; us <- np_random_sample n' ;; ret (u :: us)
  end.

(** [np.random.uniform(low=low, high=high, size=[1, n])[0]]. *)
Definition np_random_uniform (low high : npval) (n : nat) : M npval :=
  lo <- lift (broadcast_to n low) ;;
  hi <- lift (broadcast_to n high) ;;
  us <- np_random_sample n ;;
  ret (Vec (zip_with (fun lh u => fst lh + (snd lh - fst lh) * u) (zip lo hi) us)).

(** ** Dictionaries, [range], [np.zeros] and indexing *)

Definition getitem (d : gmap string Q) (k : string) : result Q :=
  match d !! k with
  | Some v => Ok v
  | None => Raise (KeyError k)
  end.

(** [if k not in d: d[k] = v]. *)
Definition setdefault (k : string) (v : Q) (d : gmap string Q) : gmap string Q :=
  match d !! k with
  | Some _ => d
  | None => <[k:=v]> d
  end.

(** [range(q)] as the number of rounds of the loop. *)
Definition py_range (q : Q) : result nat :=
  match as_int q with
  | Some z => Ok (Z.to_nat z)
  | None => Raise TypeError
  end.

(** [np.zeros(q)]. *)
Definition np_zeros (q : Q) : result (list ereal) :=
  match as_int q with
  | Some z => if (z <? 0)%Z then Raise ValueError
              else Ok (replicate (Z.to_nat z) (Fin 0))
  | None => Raise TypeError
  end.

(** [a[i] = v]. *)
Definition setitem (a : list ereal) (i : nat) (v : ereal) : result (list ereal) :=
  if (i <? length a)%nat then Ok (<[i:=v]> a) else Raise IndexError.

(** [a[q]]: the index must be an integer; a negative one counts from the
    end. *)
Definition index (a : list ereal) (q : Q) : result ereal :=
  match as_int q with
  | None => Raise IndexError
  | Some z =>
      let i := if (z <? 0)%Z then (Z.of_nat (length a) + z)%Z else z in
      if (i <? 0)%Z then Raise IndexError
      else match a !! Z.to_nat i with
           | Some v => Ok v
           | None => Raise IndexError
           end
  end.

(** ** [default_PSO_params] *)

Definition default_PSO_params (params : gmap string Q) : result (gmap string Q) :=
  let params := setdefault "maxit" 30 params in
  let params := setdefault "n_part" 15 params in
  let params := setdefault "w" 1 params in
  let params := setdefault "wdamp" 1 params in
  let params := setdefault "c1" (205 # 100) params in
  let params := setdefault "c2" (205 # 100) params in
  match
    (match params !! "con" with
     | Some _ => Ok params
     | None =>
         match getitem params "wdamp" with
         | Raise e => Raise e
         | Ok wdamp =>
             if Qeq_bool wdamp 1 then Ok params
             else match getitem params "w" with
                  | Raise e => Raise e
                  | Ok w =>
                      if Qeq_bool w 1 then Ok params
                      else Ok (<["con" := 7298437881283576 # 10000000000000000]> params)
                  end
         end
     end)
  with
  | Raise e => Raise e
  | Ok params =>
      let params := setdefault "display_info" 1 params in
      let params := setdefault "early_stopping" 0 params in
      let params := setdefault "early_stopping_rounds" 10 params in
      let params := setdefault "BPSO" 0 params in
      match getitem params "BPSO" with
      | Raise e => Raise e
      | Ok bpso =>
          if bool_decide (params !! "velocity_limit_scale" = None) && Qeq_bool bpso 0
          then Ok (<["velocity_limit_scale" := 2 # 10]> params)
          else if Qeq_bool bpso 1
               then Ok (<["velocity_limit_scale" := 1]> params)
               else Ok params
      end
  end.

(** ** class [Particle] *)

Record Particle := {
  position : pyobj;
  velocity : pyobj;
  pbest_position : pyobj;
  pbest_value : ereal
}.

(** [Particle.__init__]. *)
Definition Particle_init : Particle :=
  {| position := PyNum 0; velocity := PyNum 0;
     pbest_position := PyNum 0; pbest_value := PInf |}.

Definition initial_position (self : Particle) (varmin varmax : npval) (BPSO : Q)
  : M Particle :=
  n <- lift (np_len varmin) ;;
  pos <- (if negb (truthy BPSO) then np_random_uniform varmin varmax n
          else np_random_uniform (Scalar 0) (Scalar 1) n) ;;
  o_pos <- new pos ;;
  n' <- lift (np_len varmin) ;;
  vel <- np_random_uniform varmin varmax n' ;;
  o_vel <- new vel ;;
  ret {| position := o_pos; velocity := o_vel;
         pbest_position := o_pos; pbest_value := pbest_value self |}.

Definition update_velocity (self : Particle) (con w c1 c2 : Q)
    (gbest_position : pyobj) (min_velocity max_velocity : npval) : M Particle :=
  v <- load (velocity self) ;;
  t1 <- lift (np_mul (Scalar w) v) ;;
  r1 <- np_random_rand ;;
  pb <- load (pbest_position self) ;;
  x <- load (position self) ;;
  d1 <- lift (np_sub pb x) ;;
  t2 <- lift (np_mul (Scalar (c1 * r1)) d1) ;;
  s1 <- lift (np_add t1 t2) ;;
  r2 <- np_random_rand ;;
  g <- load gbest_position ;;
  x' <- load (position self) ;;
  d2 <- lift (np_sub g x') ;;
  t3 <- lift (np_mul (Scalar (c2 * r2)) d2) ;;
  s2 <- lift (np_add s1 t3) ;;
  v1 <- lift (np_mul (Scalar con) s2) ;;
  _ <- new v1 ;;
  (* Apply velocity limits *)
  v2 <- lift (np_max2 v1 min_velocity) ;;
  _ <- new v2 ;;
  v3 <- lift (np_min2 v2 max_velocity) ;;
  o3 <- new v3 ;;
  ret {| position := position self; velocity := o3;
         pbest_position := pbest_position self; pbest_value := pbest_value self |}.

(** [np.exp] on one number. *)
Class NumpyExp := np_exp : Q -> Q.

Section WithExp.
Context `{NumpyExp}.

Definition sigmoid (x : Q) : Q := 1 / (1 + np_exp (- x)).

(** [[1 if np.random.rand(1) < p else 0 for p in ps]]. *)
Fixpoint bernoulli (ps : list Q) : M (list Q) :=
  match ps with
  | [] => ret []
  | p :: ps' =>
      u <- np_random_rand ;;
      bs <- bernoulli ps' ;;
      ret ((if Qlt_bool u p then 1 else 0) :: bs)
  end.

Definition update_position (self : Particle) (varmin varmax : npval) (BPSO : Q)
  : M Particle :=
  if negb (truthy BPSO) then
    x <- load (position self) ;;
    v <- load (velocity self) ;;
    p1 <- lift (np_add x v) ;;
    _ <- new p1 ;;
    (* Apply position limits *)
    p2 <- lift (np_max2 p1 varmin) ;;
    _ <- new p2 ;;
    p3 <- lift (np_min2 p2 varmax) ;;
    o3 <- new p3 ;;
    ret {| position := o3; velocity := velocity self;
           pbest_position := pbest_position self; pbest_value := pbest_value self |}
  else
    v <- load (velocity self) ;;
    match v with
    | Scalar _ => raise TypeError
    | Vec vs =>
        bits <- bernoulli (map sigmoid vs) ;;
        o <- new (Vec bits) ;;
        ret {| position := o; velocity := velocity self;
               pbest_position := pbest_position self;
               pbest_value := pbest_value self |}
    end.

End WithExp.

(** ** [examine_particles] *)

(** [a == b] and [a != b] on arrays, for [all] and [sum] to iterate over. *)
Definition np_compare (f : Q -> Q -> bool) (a b : npval) : result (list bool) :=
  match a, b with
  | Scalar _, Scalar _ => Raise TypeError
  | Scalar x, Vec ys => Ok (map (f x) ys)
  | Vec xs, Scalar y => Ok (map (fun x => f x y) xs)
  | Vec xs, Vec ys =>
      if (length xs =? length ys)%nat then Ok (zip_with f xs ys)
      else match xs, ys with
           | [x], _ => Ok (map (f x) ys)
           | _, [y] => Ok (map (fun x => f x y) xs)
           | _, _ => Raise ValueError
           end
  end.

(** The loop of [examine_particles], carrying [converged] and [ham_dist]. *)
Fixpoint examine_loop (particles_vector : list Particle) (gbest_position : pyobj)
    (converged : nat) (ham_dist : list nat) : M (nat * list nat) :=
  match particles_vector with
  | [] => ret (converged, ham_dist)
  | particle :: rest =>
      x <- load (position particle) ;;
      g <- load gbest_position ;;
      eqs <- lift (np_compare Qeq_bool x g) ;;
      let converged := if forallb id eqs then S converged else converged in
      x' <- load (position particle) ;;
      g' <- load gbest_position ;;
      nes <- lift (np_compare (fun a b => negb (Qeq_bool a b)) x' g') ;;
      examine_loop rest gbest_position converged
                   (ham_dist ++ [length (filter (fun b => b = true) nes)])
  end.

Definition examine_particles (particles_vector : list Particle)
    (gbest_position : pyobj) : M (nat * list nat) :=
  examine_loop particles_vector gbest_position 0%nat [].

(** ** [PSO] *)

Record Problem := {
  cost_function : npval -> Q;   (* [args] is part of the closure *)
  varmin : list Q;
  varmax : list Q
}.

(** The variables of [PSO] that the loops assign. *)
Record swarm := {
  particles_vector : list Particle;
  gbest_value : ereal;
  gbest_position : pyobj;
  best_costs : list ereal;
  w : Q
}.

(** How the main loop was left: by the [return] of the early-stopping test in
    round [it], or by running out of rounds. *)
Inductive exit :=
  | EarlyStop (it : nat)
  | Finished.

Section WithExp.
Context `{NumpyExp}.

(** The body of the first loop, for one particle. *)
Definition init_particle (cost : npval -> Q) (varmin varmax : npval)
    (params : gmap string Q) (particle : Particle) (gv : ereal) (gp : pyobj)
  : M (Particle * ereal * pyobj) :=
  bpso <- lift (getitem params "BPSO") ;;
  particle <- initial_position particle varmin varmax bpso ;;
  let particle := {| position := position particle; velocity := velocity particle;
                     pbest_position := position particle;
                     pbest_value := pbest_value particle |} in
  x <- load (position particle) ;;
  let particle := {| position := position particle; velocity := velocity particle;
                     pbest_position := pbest_position particle;
                     pbest_value := Fin (cost x) |} in
  if ereal_ltb (pbest_value particle) gv
  then ret (particle, pbest_value particle, pbest_position particle)
  else ret (particle, gv, gp).

(** [for particle in particles_vector] of the initialisation; the particles
    already visited are returned in order. *)
Fixpoint init_loop (cost : npval -> Q) (varmin varmax : npval)
    (params : gmap string Q) (todo : list Particle) (gv : ereal) (gp : pyobj)
  : M (list Particle * ereal * pyobj) :=
  match todo with
  | [] => ret ([], gv, gp)
  | particle :: rest =>
      r <- init_particle cost varmin varmax params particle gv gp ;;
      let '(particle, gv, gp) := r in
      r' <- init_loop cost varmin varmax params rest gv gp ;;
      let '(rest, gv, gp) := r' in
      ret (particle :: rest, gv, gp)
  end.

(** The body of the inner loop of the main loop, for one particle. *)
Definition move_particle (cost : npval -> Q) (varmin varmax : npval)
    (params : gmap string Q) (con w c1 c2 : Q) (min_velocity max_velocity : npval)
    (particle : Particle) (gv : ereal) (gp : pyobj)
  : M (Particle * ereal * pyobj) :=
  (* Update velocity *)
  particle <- update_velocity particle con w c1 c2 gp min_velocity max_velocity ;;
  (* Update position *)
  bpso <- lift (getitem params "BPSO") ;;
  particle <- update_position particle varmin varmax bpso ;;
  (* Evaluate the cost at the new function *)
  x <- load (position particle) ;;
  let cost_at_new_position := Fin (cost x) in
  if ereal_ltb cost_at_new_position (pbest_value particle) then
    let particle := {| position := position particle; velocity := velocity particle;
                       pbest_position := position particle;
                       pbest_value := cost_at_new_position |} in
    if ereal_ltb cost_at_new_position gv
    then ret (particle, cost_at_new_position, pbest_position particle)
    else ret (particle, gv, gp)
  else ret (particle, gv, gp).

Fixpoint move_loop (cost : npval -> Q) (varmin varmax : npval)
    (params : gmap string Q) (con w c1 c2 : Q) (min_velocity max_velocity : npval)
    (todo : list Particle) (gv : ereal) (gp : pyobj)
  : M (list Particle * ereal * pyobj) :=
  match todo with
  | [] => ret ([], gv, gp)
  | particle :: rest =>
      r <- move_particle cost varmin varmax params con w c1 c2
             min_velocity max_velocity particle gv gp ;;
      let '(particle, gv, gp) := r in
      r' <- move_loop cost varmin varmax params con w c1 c2
              min_velocity max_velocity rest gv gp ;;
      let '(rest, gv, gp) := r' in
      ret (particle :: rest, gv, gp)
  end.

(** One round [it] of the main loop up to and including [w = w * wdamp]. *)
Definition iteration (cost : npval -> Q) (varmin varmax : npval)
    (params : gmap string Q) (con wdamp c1 c2 : Q)
    (min_velocity max_velocity : npval) (it : nat) (s : swarm) : M swarm :=
  _ <- examine_particles (particles_vector s) (gbest_position s) ;;
  r <- move_loop cost varmin varmax params con (w s) c1 c2
         min_velocity max_velocity (particles_vector s)
         (gbest_value s) (gbest_position s) ;;
  let '(ps, gv, gp) := r in
  bc <- lift (setitem (best_costs s) (it + 1) gv) ;;
  ret {| particles_vector := ps; gbest_value := gv; gbest_position := gp;
         best_costs := bc; w := w s * wdamp |}.

(** The early-stopping test at the end of round [it]. *)
Definition early_stop (params : gmap string Q) (it : nat) (best_costs : list ereal)
  : result bool :=
  match getitem params "early_stopping" with
  | Raise e => Raise e
  | Ok es =>
      if truthy es then
        match getitem params "early_stopping_rounds" with
        | Raise e => Raise e
        | Ok esr =>
            if Qlt_bool esr (inject_Z (Z.of_nat it)) then
              match index best_costs (inject_Z (Z.of_nat it) + 1) with
              | Raise e => Raise e
              | Ok a =>
                  match index best_costs (inject_Z (Z.of_nat it) + 1 - esr) with
                  | Raise e => Raise e
                  | Ok b => Ok (abs_diff_ltb a b (1 # 10000))
                  end
              end
            else Ok false
        end
      else Ok false
  end.

(** [for it in range(maxit)], with [rounds] rounds left. *)
Fixpoint main_loop (cost : npval -> Q) (varmin varmax : npval)
    (params : gmap string Q) (con wdamp c1 c2 : Q)
    (min_velocity max_velocity : npval) (rounds : nat) (it : nat) (s : swarm)
  : M (exit * swarm) :=
  match rounds with
  | O => ret (Finished, s)
  | S rounds' =>
      s <- iteration cost varmin varmax params con wdamp c1 c2
             min_velocity max_velocity it s ;;
      stop <- lift (early_stop params it (best_costs s)) ;;
      if (stop : bool) then ret (EarlyStop it, s)
      else main_loop cost varmin varmax params con wdamp c1 c2
             min_velocity max_velocity rounds' (S it) s
  end.

(** The local variables of [PSO] set up before the particles are created. *)
Record config := {
  cfg_params : gmap string Q;
  cfg_maxit : Q;
  cfg_n_part : Q;
  cfg_w : Q;
  cfg_wdamp : Q;
  cfg_c1 : Q;
  cfg_c2 : Q;
  cfg_con : Q;
  cfg_max_velocity : npval;
  cfg_min_velocity : npval
}.

(** Lines 148 to 165 of [PSO]. *)
Definition PSO_setup (problem : Problem) (params : gmap string Q) : result config :=
  let varmin := Vec (varmin problem) in
  let varmax := Vec (varmax problem) in
  match default_PSO_params params with Raise e => Raise e | Ok params =>
  match getitem params "maxit" with Raise e => Raise e | Ok maxit =>
  match getitem params "n_part" with Raise e => Raise e | Ok n_part =>
  match getitem params "w" with Raise e => Raise e | Ok w =>
  match getitem params "wdamp" with Raise e => Raise e | Ok wdamp =>
  match getitem params "c1" with Raise e => Raise e | Ok c1 =>
  match getitem params "c2" with Raise e => Raise e | Ok c2 =>
  match getitem params "con" with Raise e => Raise e | Ok con =>
  match getitem params "display_info" with Raise e => Raise e | Ok _ =>
  match getitem params "velocity_limit_scale" with Raise e => Raise e | Ok vls =>
  match np_sub varmax varmin with Raise e => Raise e | Ok range =>
  match np_mul (Scalar vls) range with Raise e => Raise e | Ok max_velocity =>
    Ok {| cfg_params := params; cfg_maxit := maxit; cfg_n_part := n_part;
          cfg_w := w; cfg_wdamp := wdamp; cfg_c1 := c1; cfg_c2 := c2;
          cfg_con := con; cfg_max_velocity := max_velocity;
          cfg_min_velocity := np_neg max_velocity |}
  end end end end end end end end end end end end.

(** Lines 148 to 183 of [PSO]: everything before the main loop.  The empty
    Python list that [gbest_position] starts as is an empty array of its
    own. *)
Definition PSO_start (problem : Problem) (params : gmap string Q)
  : M (config * swarm) :=
  let cost := cost_function problem in
  let varmin := Vec (varmin problem) in
  let varmax := Vec (varmax problem) in
  c <- lift (PSO_setup problem params) ;;
  n <- lift (py_range (cfg_n_part c)) ;;
  let particles_vector := replicate n Particle_init in
  let gbest_value := PInf in
  l <- alloc [] ;;
  let gbest_position := PyArr l in
  r <- init_loop cost varmin varmax (cfg_params c) particles_vector
         gbest_value gbest_position ;;
  let '(particles_vector, gbest_value, gbest_position) := r in
  best_costs <- lift (np_zeros (cfg_maxit c + 1)) ;;
  best_costs <- lift (setitem best_costs 0 gbest_value) ;;
  ret (c, {| particles_vector := particles_vector; gbest_value := gbest_value;
             gbest_position := gbest_position; best_costs := best_costs;
             w := cfg_w c |}).

(** One round of the main loop of [PSO] for the configuration [c]. *)
Definition PSO_iteration (problem : Problem) (c : config) (it : nat) (s : swarm)
  : M swarm :=
  iteration (cost_function problem) (Vec (varmin problem)) (Vec (varmax problem))
    (cfg_params c) (cfg_con c) (cfg_wdamp c) (cfg_c1 c) (cfg_c2 c)
    (cfg_min_velocity c) (cfg_max_velocity c) it s.

(** The main loop of [PSO] for the configuration [c]. *)
Definition PSO_loop (problem : Problem) (c : config) (rounds it : nat) (s : swarm)
  : M (exit * swarm) :=
  main_loop (cost_function problem) (Vec (varmin problem)) (Vec (varmax problem))
    (cfg_params c) (cfg_con c) (cfg_wdamp c) (cfg_c1 c) (cfg_c2 c)
    (cfg_min_velocity c) (cfg_max_velocity c) rounds it s.

(** [PSO] with the exit of the main loop and all loop variables as result. *)
Definition PSO_run (problem : Problem) (params : gmap string Q) : M (exit * swarm) :=
  cs <- PSO_start problem params ;;
  rounds <- lift (py_range (cfg_maxit (fst cs))) ;;
  PSO_loop problem (fst cs) rounds 0 (snd cs).

(** [PSO]: the returned triple. *)
Definition PSO (problem : Problem) (params : gmap string Q)
  : M (ereal * pyobj * list ereal) :=
  r <- PSO_run problem params ;;
  ret (gbest_value (snd r), gbest_position (snd r), best_costs (snd r)).

End WithExp.

(** ** [demos.py] *)

(** [circle_cost] of [find_the_centre_of_a_circle]; [args] is not used.
    [PSO] calls it on arrays of two components only. *)
Definition circle_cost (positions : npval) : Q :=
  match positions with
  | Vec (a :: b :: _) => Qabs (25 - ((3 - a) ^ 2 + (4 - b) ^ 2))
  | _ => 0
  end.

(** The dictionary [problem] of the demo. *)
Definition circle_problem : Problem :=
  {| cost_function := circle_cost;
     varmin := [-(1000); -(1000)]; varmax := [1000; 1000] |}.

(** The dictionary [params] of the demo. *)
Definition circle_params : gmap string Q :=
  {[ "maxit" := 15; "n_part" := 30; "c1" := 2; "c2" := 2; "w" := 9 # 10;
     "wdamp" := 2 # 10; "con" := 1; "display_info" := 1;
     "early_stopping" := 1; "early_stopping_rounds" := 7 ]}.

(** [a[i]] on a numpy value. *)
Definition np_item (a : npval) (i : nat) : result Q :=
  match a with
  | Scalar _ => Raise IndexError
  | Vec xs => match xs !! i with Some x => Ok x | None => Raise IndexError end
  end.

Section Demo.
Context `{NumpyExp}.

(** [find_the_centre_of_a_circle], with the three numbers it prints as
    result. *)
Definition find_the_centre_of_a_circle : M (Q * Q * ereal) :=
  r <- PSO circle_problem circle_params ;;
  let '(gbest_value, gbest_position, best_costs) := r in
  g <- load gbest_position ;;
  a <- lift (np_item g 0) ;;
  b <- lift (np_item g 1) ;;
  ret (a, b, gbest_value).

End Demo.

(** * Vocabulary of the statements *)

(** Partial correctness: whatever [m] returns from [σ] satisfies [Q]. *)
Definition post {A} (σ : world) (m : M A) (Q : A -> world -> Prop) : Prop :=
  forall a σ', m σ = Ok (a, σ') -> Q a σ'.

(** [σ'] has every array of [σ] unchanged, the same generator, and has
    consumed at least what [σ] has. *)
Definition extends (σ σ' : world) : Prop :=
  heap σ `prefix_of` heap σ' /\ draws σ' = draws σ /\ (next σ <= next σ')%nat.

(** [m] never writes into an existing array. *)
Definition grows {A} (m : M A) : Prop :=
  forall σ, post σ m (fun _ σ' => extends σ σ').

(** The dictionary after the six assignments that precede the one of
    [con]. *)
Definition defaults_before_con (params : gmap string Q) : gmap string Q :=
  setdefault "c2" (205 # 100) (setdefault "c1" (205 # 100)
    (setdefault "wdamp" 1 (setdefault "w" 1
      (setdefault "n_part" 15 (setdefault "maxit" 30 params))))).

(** The four assignments between the one of [con] and the one of
    [velocity_limit_scale]. *)
Definition defaults_after_con (params : gmap string Q) : gmap string Q :=
  setdefault "BPSO" 0 (setdefault "early_stopping_rounds" 10
    (setdefault "early_stopping" 0 (setdefault "display_info" 1 params))).

(** Lines 30 and 31. *)
Definition default_con (params : gmap string Q) : gmap string Q :=
  match params !! "con" with
  | Some _ => params
  | None =>
      if Qeq_bool (default 1 (params !! "wdamp")) 1 then params
      else if Qeq_bool (default 1 (params !! "w")) 1 then params
           else <["con" := 7298437881283576 # 10000000000000000]> params
  end.

(** Lines 40 to 43. *)
Definition default_velocity_limit_scale (params : gmap string Q) : gmap string Q :=
  let bpso := default 0 (params !! "BPSO") in
  if bool_decide (params !! "velocity_limit_scale" = None) && Qeq_bool bpso 0
  then <["velocity_limit_scale" := 2 # 10]> params
  else if Qeq_bool bpso 1 then <["velocity_limit_scale" := 1]> params
       else params.

(** The dictionary that [PSO] reads its parameters from. *)
Definition defaulted (params : gmap string Q) : gmap string Q :=
  default_velocity_limit_scale
    (defaults_after_con (default_con (defaults_before_con params))).

(** [o] is the array [xs] in the store [h]. *)
Definition points_to (h : list (list Q)) (o : pyobj) (xs : list Q) : Prop :=
  exists l, o = PyArr l /\ h !! l = Some xs.

(** The velocity [update_velocity] computes in one dimension. *)
Definition new_velocity (con w c1 c2 r1 r2 v pb x g lo hi : Q) : Q :=
  Qmin (Qmax (con * (w * v + c1 * r1 * (pb - x) + c2 * r2 * (g - x))) lo) hi.

Definition is_bit (x : Q) : Prop := x = 0 \/ x = 1.

(** Personal best after the cost [c] has been observed. *)
Definition observe_pbest (c : Q) (pbest : ereal) : ereal :=
  if ereal_ltb (Fin c) pbest then Fin c else pbest.

(** Global best after a particle with personal best [pbest] has observed
    [c]; [true] in the first component when it has been replaced. *)
Definition observe_gbest (c : Q) (pbest gbest : ereal) : bool * ereal :=
  if ereal_ltb (Fin c) pbest && ereal_ltb (Fin c) gbest
  then (true, Fin c) else (false, gbest).

(** [gv] is the least of the personal bests of [ps] and infinity. *)
Definition swarm_min (gv : ereal) (ps : list Particle) : Prop :=
  Forall (fun p => ereal_le gv (pbest_value p)) ps /\
  (gv = PInf \/ Exists (fun p => pbest_value p = gv) ps).

(** Entry [n] of the trace is the current global best, the entries up to [n]
    never increase, and the entries after [n] still hold the zero that
    [np.zeros] put there. *)
Definition trace_inv (n : nat) (s : swarm) : Prop :=
  best_costs s !! n = Some (gbest_value s) /\
  (forall k a b, (k < n)%nat -> best_costs s !! k = Some a ->
                 best_costs s !! S k = Some b -> ereal_le b a) /\
  (forall k, (n < k < length (best_costs s))%nat -> best_costs s !! k = Some (Fin 0)).

(** Number of rounds of the main loop that were run to their end, when the
    loop was entered at round [it] with [rounds] rounds to go. *)
Definition completed (e : exit) (it rounds : nat) : nat :=
  match e with
  | EarlyStop j => S j
  | Finished => (it + rounds)%nat
  end.

(** The same number read off the result of [PSO]. *)
Definition iterations_completed (e : exit) (best_costs : list ereal) : nat :=
  match e with
  | EarlyStop j => S j
  | Finished => (length best_costs - 1)%nat
  end.

(** [o] is an array of [D] numbers in the store [h]. *)
Definition arr (h : list (list Q)) (o : pyobj) (D : nat) : Prop :=
  exists xs, points_to h o xs /\ length xs = D.

Definition wf_particle (D : nat) (h : list (list Q)) (p : Particle) : Prop :=
  arr h (position p) D /\ arr h (velocity p) D /\ arr h (pbest_position p) D.

(** The row [np.random.uniform(low=0, high=1, size=[1, n])[0]] when the
    generator has consumed [start] values. *)
Definition unit_draws (σ : world) (start n : nat) : list Q :=
  map (fun u => 0 + (1 - 0) * u) (map (draws σ) (seq start n)).

(** The particles are well shaped, and so is the global best position once
    there are particles. *)
Definition wf_swarm (D : nat) (h : list (list Q)) (ps : list Particle)
    (gp : pyobj) : Prop :=
  Forall (wf_particle D h) ps /\ (ps = [] \/ arr h gp D).

(** A call of [PSO] in dimension [D] with [n] particles and [m] rounds whose
    set-up finds every parameter it reads. *)
Definition well_formed (problem : Problem) (params : gmap string Q)
    (D : nat) (n m : Z) : Prop :=
  length (varmin problem) = D /\ length (varmax problem) = D /\
  is_Some (defaulted params !! "con") /\
  is_Some (defaulted params !! "velocity_limit_scale") /\
  as_int (default 15 (params !! "n_part")) = Some n /\
  as_int (default 30 (params !! "maxit")) = Some m /\ (0 <= m)%Z.

(** [m] leaves the array at [l] as it is. *)
Definition preserves {A} (l : loc) (m : M A) : Prop :=
  forall σ xs a σ', heap σ !! l = Some xs -> m σ = Ok (a, σ') -> heap σ' !! l = Some xs.

(** [o] evaluates to the numpy value [a] in the store [h]. *)
Definition denotes (h : list (list Q)) (o : pyobj) (a : npval) : Prop :=
  match o with
  | PyNum q => a = Scalar q
  | PyArr l => exists xs, h !! l = Some xs /\ a = Vec xs
  end.

(** The value [v] is infinite, or it is the cost of what [o] holds. *)
Definition cost_at (cost : npval -> Q) (h : list (list Q)) (v : ereal) (o : pyobj)
  : Prop :=
  v = PInf \/ exists a, denotes h o a /\ v = Fin (cost a).

(** Every personal best of [ps] is the cost of the personal best position. *)
Definition pbests_consistent (cost : npval -> Q) (h : list (list Q))
    (ps : list Particle) : Prop :=
  Forall (fun p => cost_at cost h (pbest_value p) (pbest_position p)) ps.

(** When early stopping is on, its window is a natural number. *)
Definition window_ok (params : gmap string Q) : Prop :=
  truthy (default 0 (params !! "early_stopping")) = true ->
  exists e : Z,
    as_int (default 10 (params !! "early_stopping_rounds")) = Some e /\ (0 <= e)%Z.

(** Number of distances that are zero. *)
Definition count_zero (ham_dist : list nat) : nat :=
  length (filter (fun d => d = 0%nat) ham_dist).

(** [xs] has one component per bound, each between its two bounds. *)
Definition in_box (vmin vmax xs : list Q) : Prop :=
  length xs = length vmin /\
  forall i lo hi x, vmin !! i = Some lo -> vmax !! i = Some hi ->
                    xs !! i = Some x -> lo <= x <= hi.

(** [o] is an array inside the box. *)
Definition boxed (h : list (list Q)) (vmin vmax : list Q) (o : pyobj) : Prop :=
  exists xs, points_to h o xs /\ in_box vmin vmax xs.

(** Position and personal best position of [p] are inside the box. *)
Definition box_particle (h : list (list Q)) (vmin vmax : list Q) (p : Particle)
  : Prop :=
  boxed h vmin vmax (position p) /\ boxed h vmin vmax (pbest_position p).

(** ** Concrete inputs *)

(** A rational stand-in for [np.exp], positive everywhere. *)
Definition exp_approx : NumpyExp := fun x => (1 + x / 8) ^ 8.

(** A generator that yields 1/2 for ever, and an empty store. *)
Definition σ_half : world := World [] (fun _ => 1 # 2) 0.

(** One dimension, bounds 0 and 1, cost [x * x]. *)
Definition square_problem : Problem :=
  {| cost_function := fun a => match a with
                               | Vec (x :: _) => x * x
                               | Vec [] => 0
                               | Scalar x => x * x
                               end;
     varmin := [0]; varmax := [1] |}.

(** One dimension, bounds 0 and 1, cost 0 everywhere. *)
Definition flat_problem : Problem :=
  {| cost_function := fun _ => 0; varmin := [0]; varmax := [1] |}.

(** [varmin] of length 3 against [varmax] of length 1. *)
Definition broadcast_problem : Problem :=
  {| cost_function := fun _ => 0; varmin := [0; 0; 0]; varmax := [1] |}.

(** [varmin] of length 2 against [varmax] of length 3. *)
Definition mismatch_problem : Problem :=
  {| cost_function := fun _ => 0; varmin := [0; 0]; varmax := [1; 1; 1] |}.

Definition small_params : gmap string Q :=
  {[ "con" := 1; "maxit" := 2; "n_part" := 1 ]}.

Definition start_only_params : gmap string Q :=
  {[ "con" := 1; "maxit" := 0; "n_part" := 1 ]}.

Definition binary_params : gmap string Q :=
  {[ "con" := 1; "maxit" := 0; "n_part" := 1; "BPSO" := 1 ]}.

Definition binary_scale_params : gmap string Q :=
  {[ "con" := 1; "BPSO" := 1; "velocity_limit_scale" := 1 # 2 ]}.

Definition early_stop_params : gmap string Q :=
  {[ "con" := 1; "maxit" := 8; "n_part" := 1;
     "early_stopping" := 1; "early_stopping_rounds" := 5 ]}.

(** A store with one particle at 1/2 moving by 1/4, its own best so far. *)
Definition σ_one : world := World [[1 # 2]; [1 # 4]] (fun _ => 1 # 2) 0.

Definition particle_one : Particle :=
  {| position := PyArr 0%nat; velocity := PyArr 1%nat;
     pbest_position := PyArr 0%nat; pbest_value := Fin (1 # 4) |}.

(** The configuration that [PSO_setup] computes for [square_problem] and
    [small_params]. *)
Definition small_config : config :=
  {| cfg_params := defaulted small_params; cfg_maxit := 2; cfg_n_part := 1;
     cfg_w := 1; cfg_wdamp := 1; cfg_c1 := 205 # 100; cfg_c2 := 205 # 100;
     cfg_con := 1; cfg_max_velocity := Vec [(2 # 10) * (1 - 0)];
     cfg_min_velocity := Vec [- ((2 # 10) * (1 - 0))] |}.

(** The store of [σ_one] with the particle moving by -1/4. *)
Definition σ_back : world := World [[1 # 2]; [- (1 # 4)]] (fun _ => 1 # 2) 0.

(** [BPSO] set to 2 and no [velocity_limit_scale]. *)
Definition other_mode_params : gmap string Q := {[ "con" := 1; "BPSO" := 2 ]}.

(** [maxit] set to -1. *)
Definition negative_maxit_params : gmap string Q :=
  {[ "con" := 1; "maxit" := -(1); "n_part" := 1 ]}.

(** [varmin] of length 1 against [varmax] of length 3. *)
Definition narrow_min_problem : Problem :=
  {| cost_function := fun _ => 0; varmin := [0]; varmax := [1; 1; 1] |}.

(** No particle. *)
Definition no_particle_params : gmap string Q :=
  {[ "con" := 1; "maxit" := 2; "n_part" := 0 ]}.

(** The inertia weight and damping of the demo, two rounds. *)
Definition damped_params : gmap string Q :=
  {[ "con" := 1; "maxit" := 2; "n_part" := 1; "w" := 9 # 10; "wdamp" := 2 # 10 ]}.

(** One dimension, bounds 0 and 1, cost [(x - 1/2)^2]: least at 1/2, and 1/4
    at both bits. *)
Definition centre_problem : Problem :=
  {| cost_function := fun a => match a with
                               | Vec (x :: _) => (x - (1 # 2)) * (x - (1 # 2))
                               | Vec [] => 0
                               | Scalar x => (x - (1 # 2)) * (x - (1 # 2))
                               end;
     varmin := [0]; varmax := [1] |}.

(** Binary mode with three rounds. *)
Definition binary_rounds_params : gmap string Q :=
  {[ "con" := 1; "maxit" := 3; "n_part" := 1; "BPSO" := 1 ]}.

(** * Properties *)

(** ** Comparisons *)

Lemma Qlt_bool_iff (x y : Q) : Qlt_bool x y = true <-> x < y.
Proof.
  unfold Qlt_bool. rewrite negb_true_iff, <- not_true_iff_false, Qle_bool_iff.
  split; [apply Qnot_le_lt | apply Qlt_not_le].
Qed.

Lemma Qlt_bool_irrefl (x : Q) : Qlt_bool x x = false.
Proof.
  apply not_true_iff_false. rewrite Qlt_bool_iff. apply Qlt_irrefl.
Qed.

Lemma ereal_le_refl (a : ereal) : ereal_le a a.
Proof. destruct a; simpl; [apply Qle_refl | exact I]. Qed.

Lemma ereal_le_trans (a b c : ereal) : ereal_le a b -> ereal_le b c -> ereal_le a c.
Proof.
  destruct a, b, c; simpl; try tauto. apply Qle_trans.
Qed.

Lemma ereal_ltb_le (a b : ereal) : ereal_ltb a b = true -> ereal_le a b.
Proof.
  destruct a, b; simpl; try done. rewrite Qlt_bool_iff. apply Qlt_le_weak.
Qed.

Lemma ereal_ltb_false_le (a b : ereal) : ereal_ltb a b = false -> ereal_le b a.
Proof.
  destruct a, b; simpl; try done. unfold Qlt_bool.
  rewrite negb_false_iff, Qle_bool_iff. done.
Qed.

Lemma ereal_ltb_irrefl (a : ereal) : ereal_ltb a a = false.
Proof. destruct a; simpl; [apply Qlt_bool_irrefl | done]. Qed.

(** ** Rules of the monad *)

Lemma bind_Ok_inv {A B} (m : M A) (k : A -> M B) σ b σ' :
  bind m k σ = Ok (b, σ') ->
  exists a σ1, m σ = Ok (a, σ1) /\ k a σ1 = Ok (b, σ').
Proof.
  unfold bind. destruct (m σ) as [[a σ1]|e]; [eauto | done].
Qed.

Lemma lift_Ok_inv {A} (r : result A) σ a σ' :
  lift r σ = Ok (a, σ') -> r = Ok a /\ σ' = σ.
Proof. unfold lift. destruct r; intros [=]; subst; done. Qed.

Lemma ret_Ok_inv {A} (x : A) σ a σ' : ret x σ = Ok (a, σ') -> a = x /\ σ' = σ.
Proof. intros [=]; done. Qed.

Lemma post_ret {A} σ (x : A) (Q : A -> world -> Prop) : Q x σ -> post σ (ret x) Q.
Proof. intros HQ a σ' [-> ->]%ret_Ok_inv. done. Qed.

Lemma post_bind {A B} σ (m : M A) (k : A -> M B) (Q : B -> world -> Prop) :
  post σ m (fun a σ1 => post σ1 (k a) Q) -> post σ (bind m k) Q.
Proof.
  intros Hm b σ' (a & σ1 & Ha & Hk)%bind_Ok_inv. exact (Hm a σ1 Ha b σ' Hk).
Qed.

Lemma post_lift {A} σ (r : result A) (Q : A -> world -> Prop) :
  (forall a, r = Ok a -> Q a σ) -> post σ (lift r) Q.
Proof. intros HQ a σ' [-> ->]%lift_Ok_inv. auto. Qed.

Lemma post_raise {A} σ e (Q : A -> world -> Prop) : post σ (raise e) Q.
Proof. intros a σ' [=]. Qed.

Lemma post_weaken {A} σ (m : M A) (Q Q' : A -> world -> Prop) :
  post σ m Q -> (forall a σ', Q a σ' -> Q' a σ') -> post σ m Q'.
Proof. intros Hm HQ a σ' Ha. eauto. Qed.

(** ** The store only grows *)

Lemma extends_refl σ : extends σ σ.
Proof. repeat split; done. Qed.

Lemma extends_trans σ1 σ2 σ3 : extends σ1 σ2 -> extends σ2 σ3 -> extends σ1 σ3.
Proof.
  intros (Hh & Hd & Hn) (Hh' & Hd' & Hn'). repeat split.
  - by etrans.
  - congruence.
  - lia.
Qed.

Lemma extends_lookup σ σ' (l : loc) (xs : list Q) :
  extends σ σ' -> heap σ !! l = Some xs -> heap σ' !! l = Some xs.
Proof. intros (Hh & _) Hl. by eapply prefix_lookup_Some. Qed.

Lemma grows_ret {A} (x : A) : grows (ret x).
Proof. intros σ. apply post_ret, extends_refl. Qed.

Lemma grows_raise {A} e : grows (@raise A e).
Proof. intros σ. apply post_raise. Qed.

Lemma grows_lift {A} (r : result A) : grows (lift r).
Proof. intros σ. apply post_lift. intros; apply extends_refl. Qed.

Lemma grows_bind {A B} (m : M A) (k : A -> M B) :
  grows m -> (forall a, grows (k a)) -> grows (bind m k).
Proof.
  intros Hm Hk σ. apply post_bind. eapply post_weaken; [apply Hm|].
  intros a σ1 H1. simpl. eapply post_weaken; [apply Hk|].
  intros b σ2 H2. simpl in *. by eapply extends_trans.
Qed.

Lemma grows_alloc xs : grows (alloc xs).
Proof.
  intros σ l σ' [= <- <-]. repeat split; simpl; try done.
  by apply prefix_app_r.
Qed.

Lemma grows_load o : grows (load o).
Proof.
  intros σ v σ'. unfold load. destruct o as [q|l].
  - intros [= <- <-]. apply extends_refl.
  - destruct (heap σ !! l); intros [= <- <-]. apply extends_refl.
Qed.

Lemma grows_rand : grows np_random_rand.
Proof.
  intros σ u σ' [= <- <-]. repeat split; simpl; try done. lia.
Qed.

Create HintDb grows discriminated.
#[local] Hint Resolve grows_ret grows_raise grows_lift grows_alloc grows_load
  grows_rand : grows.

(** Decomposes a goal [grows m] along the structure of [m]. *)
Ltac grows_step :=
  match goal with
  | |- grows (bind _ _) => apply grows_bind; [|intros ?]
  | |- grows (if ?b then _ else _) => destruct b
  | |- grows (match ?x with _ => _ end) => destruct x
  | |- grows (let '_ := ?x in _) => destruct x
  | |- grows _ => solve [auto with grows]
  end.
Ltac grows_tac := repeat grows_step.

Lemma grows_new a : grows (new a).
Proof. unfold new. grows_tac. Qed.
#[local] Hint Resolve grows_new : grows.

Lemma grows_sample n : grows (np_random_sample n).
Proof. induction n; simpl; grows_tac. Qed.
#[local] Hint Resolve grows_sample : grows.

Lemma grows_uniform low high n : grows (np_random_uniform low high n).
Proof. unfold np_random_uniform. grows_tac. Qed.
#[local] Hint Resolve grows_uniform : grows.

Lemma grows_initial_position self vmin vmax b :
  grows (initial_position self vmin vmax b).
Proof. unfold initial_position. grows_tac. Qed.

Lemma grows_update_velocity self con w c1 c2 gp minv maxv :
  grows (update_velocity self con w c1 c2 gp minv maxv).
Proof. unfold update_velocity. grows_tac. Qed.

Lemma grows_examine ps gp c h : grows (examine_loop ps gp c h).
Proof. revert c h. induction ps; intros; simpl; grows_tac. Qed.

#[local] Hint Resolve grows_initial_position grows_update_velocity
  grows_examine : grows.

Section Frame.
Context `{NumpyExp}.

Lemma grows_bernoulli ps : grows (bernoulli ps).
Proof. induction ps; simpl; grows_tac. Qed.
Hint Resolve grows_bernoulli : grows.

Lemma grows_update_position self vmin vmax b :
  grows (update_position self vmin vmax b).
Proof. unfold update_position. grows_tac. Qed.
Hint Resolve grows_update_position : grows.

Lemma grows_init_particle cost vmin vmax params p gv gp :
  grows (init_particle cost vmin vmax params p gv gp).
Proof. unfold init_particle. grows_tac. Qed.
Hint Resolve grows_init_particle : grows.

Lemma grows_init_loop cost vmin vmax params ps gv gp :
  grows (init_loop cost vmin vmax params ps gv gp).
Proof. revert gv gp. induction ps; intros; simpl; grows_tac. Qed.

Lemma grows_move_particle cost vmin vmax params con w c1 c2 minv maxv p gv gp :
  grows (move_particle cost vmin vmax params con w c1 c2 minv maxv p gv gp).
Proof. unfold move_particle. grows_tac. Qed.
Hint Resolve grows_move_particle : grows.

Lemma grows_move_loop cost vmin vmax params con w c1 c2 minv maxv ps gv gp :
  grows (move_loop cost vmin vmax params con w c1 c2 minv maxv ps gv gp).
Proof. revert gv gp. induction ps; intros; simpl; grows_tac. Qed.
Hint Resolve grows_move_loop : grows.

Lemma grows_iteration cost vmin vmax params con wdamp c1 c2 minv maxv it s :
  grows (iteration cost vmin vmax params con wdamp c1 c2 minv maxv it s).
Proof. unfold iteration, examine_particles. grows_tac. Qed.
Hint Resolve grows_iteration : grows.

Lemma grows_main_loop cost vmin vmax params con wdamp c1 c2 minv maxv n it s :
  grows (main_loop cost vmin vmax params con wdamp c1 c2 minv maxv n it s).
Proof. revert it s. induction n; intros; simpl; grows_tac. Qed.

End Frame.

(** ** Configuration defaulting *)

Lemma setdefault_lookup (k k' : string) (v : Q) (d : gmap string Q) :
  setdefault k v d !! k' =
  if decide (k = k') then Some (default v (d !! k)) else d !! k'.
Proof.
  unfold setdefault. case_decide as Hk.
  - subst k'. destruct (d !! k) eqn:E; simpl; [done | by rewrite lookup_insert_eq].
  - destruct (d !! k) eqn:E; [done | by rewrite lookup_insert_ne].
Qed.

Lemma setdefault_lookup_eq (k : string) (v : Q) (d : gmap string Q) :
  setdefault k v d !! k = Some (default v (d !! k)).
Proof. rewrite setdefault_lookup. by case_decide. Qed.

Lemma setdefault_lookup_ne (k k' : string) (v : Q) (d : gmap string Q) :
  k <> k' -> setdefault k v d !! k' = d !! k'.
Proof. intros Hk. rewrite setdefault_lookup. by case_decide. Qed.

Ltac lookup_defaults :=
  unfold defaults_before_con, defaults_after_con;
  repeat first [ rewrite setdefault_lookup_eq
               | rewrite setdefault_lookup_ne by discriminate ].

(** [default_PSO_params] never raises, and is the composition of its four
    stages. *)
Lemma default_PSO_params_Ok (params : gmap string Q) :
  default_PSO_params params = Ok (defaulted params).
Proof.
  unfold defaulted, default_PSO_params. cbv zeta.
  change (setdefault "c2" (205 # 100) (setdefault "c1" (205 # 100)
            (setdefault "wdamp" 1 (setdefault "w" 1
              (setdefault "n_part" 15 (setdefault "maxit" 30 params))))))
    with (defaults_before_con params).
  set (p1 := defaults_before_con params).
  assert (Hwd : getitem p1 "wdamp" = Ok (default 1 (p1 !! "wdamp"))).
  { unfold getitem, p1. lookup_defaults. reflexivity. }
  assert (Hw : getitem p1 "w" = Ok (default 1 (p1 !! "w"))).
  { unfold getitem, p1. lookup_defaults. reflexivity. }
  assert (Hcon :
    match p1 !! "con" with
    | Some _ => Ok p1
    | None =>
        match getitem p1 "wdamp" with
        | Raise e => Raise e
        | Ok wdamp =>
            if Qeq_bool wdamp 1 then Ok p1
            else match getitem p1 "w" with
                 | Raise e => Raise e
                 | Ok w =>
                     if Qeq_bool w 1 then Ok p1
                     else Ok (<["con" := 7298437881283576 # 10000000000000000]> p1)
                 end
        end
    end = Ok (default_con p1)).
  { unfold default_con. rewrite Hwd, Hw. destruct (p1 !! "con"); [reflexivity|].
    destruct (Qeq_bool (default 1 (p1 !! "wdamp")) 1); [reflexivity|].
    destruct (Qeq_bool (default 1 (p1 !! "w")) 1); reflexivity. }
  rewrite Hcon.
  change (setdefault "BPSO" 0 (setdefault "early_stopping_rounds" 10
            (setdefault "early_stopping" 0
              (setdefault "display_info" 1 (default_con p1)))))
    with (defaults_after_con (default_con p1)).
  set (p3 := defaults_after_con (default_con p1)).
  assert (Hb : getitem p3 "BPSO" = Ok (default 0 (p3 !! "BPSO"))).
  { unfold getitem, p3. lookup_defaults. reflexivity. }
  rewrite Hb. unfold default_velocity_limit_scale. cbv zeta.
  destruct (_ && _); [reflexivity|].
  destruct (Qeq_bool (default 0 (p3 !! "BPSO")) 1); reflexivity.
Qed.

Lemma default_con_lookup_ne (params : gmap string Q) (k : string) :
  k <> "con" -> default_con params !! k = params !! k.
Proof.
  intros Hk. unfold default_con. destruct (params !! "con"); [done|].
  destruct (Qeq_bool _ 1); [done|]. destruct (Qeq_bool _ 1); [done|].
  by rewrite lookup_insert_ne.
Qed.

Lemma default_velocity_limit_scale_lookup_ne (params : gmap string Q) (k : string) :
  k <> "velocity_limit_scale" ->
  default_velocity_limit_scale params !! k = params !! k.
Proof.
  intros Hk. unfold default_velocity_limit_scale.
  destruct (_ && _); [by rewrite lookup_insert_ne|].
  destruct (Qeq_bool _ 1); [by rewrite lookup_insert_ne | done].
Qed.

Ltac lookup_defaulted :=
  unfold defaulted;
  rewrite ?default_velocity_limit_scale_lookup_ne by discriminate;
  lookup_defaults;
  rewrite ?default_con_lookup_ne by discriminate;
  lookup_defaults.

Lemma defaulted_maxit params :
  defaulted params !! "maxit" = Some (default 30 (params !! "maxit")).
Proof. lookup_defaulted. reflexivity. Qed.

Lemma defaulted_n_part params :
  defaulted params !! "n_part" = Some (default 15 (params !! "n_part")).
Proof. lookup_defaulted. reflexivity. Qed.

Lemma defaulted_w params :
  defaulted params !! "w" = Some (default 1 (params !! "w")).
Proof. lookup_defaulted. reflexivity. Qed.

Lemma defaulted_wdamp params :
  defaulted params !! "wdamp" = Some (default 1 (params !! "wdamp")).
Proof. lookup_defaulted. reflexivity. Qed.

Lemma defaulted_c1 params :
  defaulted params !! "c1" = Some (default (205 # 100) (params !! "c1")).
Proof. lookup_defaulted. reflexivity. Qed.

Lemma defaulted_c2 params :
  defaulted params !! "c2" = Some (default (205 # 100) (params !! "c2")).
Proof. lookup_defaulted. reflexivity. Qed.

Lemma defaulted_display_info params :
  defaulted params !! "display_info" = Some (default 1 (params !! "display_info")).
Proof. lookup_defaulted. reflexivity. Qed.

Lemma defaulted_early_stopping params :
  defaulted params !! "early_stopping"
  = Some (default 0 (params !! "early_stopping")).
Proof. lookup_defaulted. reflexivity. Qed.

Lemma defaulted_early_stopping_rounds params :
  defaulted params !! "early_stopping_rounds"
  = Some (default 10 (params !! "early_stopping_rounds")).
Proof. lookup_defaulted. reflexivity. Qed.

Lemma defaulted_BPSO params :
  defaulted params !! "BPSO" = Some (default 0 (params !! "BPSO")).
Proof. lookup_defaulted. reflexivity. Qed.

Lemma defaulted_con params :
  defaulted params !! "con" =
  match params !! "con" with
  | Some c => Some c
  | None =>
      if Qeq_bool (default 1 (params !! "wdamp")) 1 then None
      else if Qeq_bool (default 1 (params !! "w")) 1 then None
           else Some (7298437881283576 # 10000000000000000)
  end.
Proof.
  unfold defaulted.
  rewrite default_velocity_limit_scale_lookup_ne by discriminate. lookup_defaults.
  unfold default_con. lookup_defaults.
  destruct (params !! "con") eqn:Hc.
  - lookup_defaults. by rewrite Hc.
  - cbn [default from_option id].
    destruct (Qeq_bool (default 1 (params !! "wdamp")) 1);
      [lookup_defaults; by rewrite Hc|].
    destruct (Qeq_bool (default 1 (params !! "w")) 1);
      [lookup_defaults; by rewrite Hc|].
    by rewrite lookup_insert_eq.
Qed.

Lemma defaulted_velocity_limit_scale params :
  defaulted params !! "velocity_limit_scale" =
  let bpso := default 0 (params !! "BPSO") in
  if bool_decide (params !! "velocity_limit_scale" = None) && Qeq_bool bpso 0
  then Some (2 # 10)
  else if Qeq_bool bpso 1 then Some 1
       else params !! "velocity_limit_scale".
Proof.
  unfold defaulted, default_velocity_limit_scale.
  set (p3 := defaults_after_con _).
  assert (Hb : p3 !! "BPSO" = Some (default 0 (params !! "BPSO"))).
  { unfold p3. lookup_defaults. rewrite default_con_lookup_ne by discriminate.
    lookup_defaults. reflexivity. }
  assert (Hv : p3 !! "velocity_limit_scale" = params !! "velocity_limit_scale").
  { unfold p3. lookup_defaults. rewrite default_con_lookup_ne by discriminate.
    lookup_defaults. reflexivity. }
  rewrite Hb, Hv. cbv zeta. cbn [default from_option id].
  destruct (_ && _); [by rewrite lookup_insert_eq|].
  destruct (Qeq_bool (default 0 (params !! "BPSO")) 1);
    [by rewrite lookup_insert_eq | done].
Qed.

(** ** The set-up of [PSO] *)

Lemma PSO_setup_eq (problem : Problem) (params : gmap string Q) :
  PSO_setup problem params =
  let p := defaulted params in
  match p !! "con" with
  | None => Raise (KeyError "con")
  | Some con =>
      match p !! "velocity_limit_scale" with
      | None => Raise (KeyError "velocity_limit_scale")
      | Some vls =>
          match np_sub (Vec (varmax problem)) (Vec (varmin problem)) with
          | Raise e => Raise e
          | Ok range =>
              match np_mul (Scalar vls) range with
              | Raise e => Raise e
              | Ok max_velocity =>
                  Ok {| cfg_params := p;
                        cfg_maxit := default 30 (params !! "maxit");
                        cfg_n_part := default 15 (params !! "n_part");
                        cfg_w := default 1 (params !! "w");
                        cfg_wdamp := default 1 (params !! "wdamp");
                        cfg_c1 := default (205 # 100) (params !! "c1");
                        cfg_c2 := default (205 # 100) (params !! "c2");
                        cfg_con := con;
                        cfg_max_velocity := max_velocity;
                        cfg_min_velocity := np_neg max_velocity |}
              end
          end
      end
  end.
Proof.
  unfold PSO_setup. rewrite default_PSO_params_Ok. unfold getitem.
  rewrite defaulted_maxit, defaulted_n_part, defaulted_w, defaulted_wdamp,
    defaulted_c1, defaulted_c2, defaulted_display_info. cbv zeta.
  destruct (defaulted params !! "con"); [|done].
  destruct (defaulted params !! "velocity_limit_scale"); done.
Qed.

Section Setup.
Context `{NumpyExp}.

Lemma PSO_setup_Raise (problem : Problem) (params : gmap string Q) e σ :
  PSO_setup problem params = Raise e -> PSO problem params σ = Raise e.
Proof.
  intros He. unfold PSO, PSO_run, PSO_start, bind, lift. by rewrite He.
Qed.

(** C1 (the code departs from the claim): when [params] has none of [con],
    [w] and [wdamp], defaulting leaves [con] unset and [PSO] raises
    [KeyError('con')] at the read of [params['con']]; no run with
    constriction factor 1 takes place. *)
Theorem PSO_without_con_raises (problem : Problem) (params : gmap string Q) σ :
  params !! "con" = None ->
  params !! "w" = None ->
  params !! "wdamp" = None ->
  PSO problem params σ = Raise (KeyError "con").
Proof.
  intros Hcon Hw Hwd. apply PSO_setup_Raise. rewrite PSO_setup_eq. cbv zeta.
  rewrite defaulted_con, Hcon, Hwd. done.
Qed.

End Setup.

(** The part of the defaulting of [con] that the code does carry out. *)
Lemma default_con_constriction (params : gmap string Q) (w wdamp : Q) :
  params !! "con" = None ->
  defaulted params !! "w" = Some w ->
  defaulted params !! "wdamp" = Some wdamp ->
  ~ wdamp == 1 -> ~ w == 1 ->
  defaulted params !! "con" = Some (7298437881283576 # 10000000000000000).
Proof.
  rewrite defaulted_w, defaulted_wdamp, defaulted_con.
  intros -> [= <-] [= <-] Hwd Hw.
  destruct (Qeq_bool (default 1 (params !! "wdamp")) 1) eqn:E1;
    [by apply Qeq_bool_iff in E1|].
  destruct (Qeq_bool (default 1 (params !! "w")) 1) eqn:E2;
    [by apply Qeq_bool_iff in E2|].
  done.
Qed.

(** Whenever [con] is missing and [w] or [wdamp] is 1 after defaulting,
    [con] stays unset. *)
Lemma default_con_missing (params : gmap string Q) (w wdamp : Q) :
  params !! "con" = None ->
  defaulted params !! "w" = Some w ->
  defaulted params !! "wdamp" = Some wdamp ->
  wdamp == 1 \/ w == 1 ->
  defaulted params !! "con" = None.
Proof.
  rewrite defaulted_w, defaulted_wdamp, defaulted_con.
  intros -> [= <-] [= <-] Hor.
  destruct (Qeq_bool (default 1 (params !! "wdamp")) 1) eqn:E1; [done|].
  destruct (Qeq_bool (default 1 (params !! "w")) 1) eqn:E2; [done|].
  apply not_true_iff_false in E1, E2. rewrite Qeq_bool_iff in E1, E2. tauto.
Qed.

(** C2 (the code departs from the claim): with [BPSO] equal to 1 a supplied
    [velocity_limit_scale] is overwritten by 1, and [max_velocity] is
    computed from 1 and not from the supplied value. *)
Theorem velocity_limit_scale_overwritten (problem : Problem)
    (params : gmap string Q) (b v : Q) :
  params !! "BPSO" = Some b ->
  b == 1 ->
  params !! "velocity_limit_scale" = Some v ->
  exists params',
    default_PSO_params params = Ok params' /\
    params' !! "velocity_limit_scale" = Some 1 /\
    forall c, PSO_setup problem params = Ok c ->
      exists range,
        np_sub (Vec (varmax problem)) (Vec (varmin problem)) = Ok range /\
        np_mul (Scalar 1) range = Ok (cfg_max_velocity c).
Proof.
  intros Hb Hb1 Hv.
  assert (Hvls : defaulted params !! "velocity_limit_scale" = Some 1).
  { rewrite defaulted_velocity_limit_scale, Hb, Hv. cbv zeta.
    rewrite bool_decide_eq_false_2 by done. rewrite andb_false_l.
    apply Qeq_bool_iff in Hb1. unfold default; cbn [from_option id].
    by rewrite Hb1. }
  exists (defaulted params). split; [apply default_PSO_params_Ok|].
  split; [done|]. intros c. rewrite PSO_setup_eq. cbv zeta. rewrite Hvls.
  destruct (defaulted params !! "con"); [|done].
  destruct (np_sub _ _) as [range|]; [|done].
  destruct (np_mul (Scalar 1) range) as [mv|] eqn:Hmv; [|done].
  intros [= <-]. simpl. eauto.
Qed.

(** ** Symbolic execution of the primitives *)

Lemma points_to_app h h' o xs : points_to h o xs -> points_to (h ++ h') o xs.
Proof. intros (l & -> & Hl). exists l. split; [done|]. by apply lookup_app_l_Some. Qed.

Lemma points_to_extends σ σ' o xs :
  extends σ σ' -> points_to (heap σ) o xs -> points_to (heap σ') o xs.
Proof.
  intros Hext (l & -> & Hl). exists l. split; [done|]. by eapply extends_lookup.
Qed.

Lemma points_to_new h xs : points_to (h ++ [xs]) (PyArr (length h)) xs.
Proof.
  exists (length h). split; [done|]. rewrite lookup_app_r by done.
  by rewrite Nat.sub_diag.
Qed.

Lemma bind_Ok {A B} (m : M A) (k : A -> M B) σ a σ1 :
  m σ = Ok (a, σ1) -> bind m k σ = k a σ1.
Proof. intros Hm. unfold bind. by rewrite Hm. Qed.

Lemma bind_load {B} o xs (k : npval -> M B) σ :
  points_to (heap σ) o xs -> bind (load o) k σ = k (Vec xs) σ.
Proof.
  intros (l & -> & Hl). apply bind_Ok. unfold load. by rewrite Hl.
Qed.

Lemma bind_lift {A B} (r : result A) a (k : A -> M B) σ :
  r = Ok a -> bind (lift r) k σ = k a σ.
Proof. intros ->. done. Qed.

Lemma bind_rand {B} (k : Q -> M B) σ :
  bind np_random_rand k σ
  = k (draws σ (next σ)) (World (heap σ) (draws σ) (S (next σ))).
Proof. done. Qed.

Lemma bind_new {B} xs (k : pyobj -> M B) σ :
  bind (new (Vec xs)) k σ
  = k (PyArr (length (heap σ))) (World (heap σ ++ [xs]) (draws σ) (next σ)).
Proof. done. Qed.

Lemma broadcast_same f xs ys :
  length xs = length ys -> broadcast f (Vec xs) (Vec ys) = Ok (Vec (zip_with f xs ys)).
Proof. intros Hlen. simpl. by rewrite Hlen, Nat.eqb_refl. Qed.

Lemma np_reduce2_same f xs ys :
  length xs = length ys -> np_reduce2 f (Vec xs) (Vec ys) = Ok (Vec (zip_with f xs ys)).
Proof. intros Hlen. simpl. by rewrite Hlen, Nat.eqb_refl. Qed.

Lemma length_zip_with_same {A B C} (f : A -> B -> C) (xs : list A) (ys : list B) :
  length xs = length ys -> length (zip_with f xs ys) = length xs.
Proof. intros Hlen. rewrite length_zip_with. lia. Qed.

(** ** [update_velocity] *)

Lemma Qclamp_range (x lo hi : Q) : lo <= hi -> lo <= Qmin (Qmax x lo) hi <= hi.
Proof.
  intros Hle. split.
  - apply Q.min_glb; [apply Q.le_max_r | done].
  - apply Q.le_min_r.
Qed.

(** C6: on a particle whose arrays, like the global best and the velocity
    limits, have one length, [update_velocity] returns; it consumes exactly
    two values of the generator, [r1] first and [r2] second, uses them in
    every dimension, and the velocity it leaves is, in every dimension [i],
    [con * (w * v[i] + c1 * r1 * (pbest[i] - x[i]) + c2 * r2 * (gbest[i] - x[i]))]
    clamped by [max(., min_velocity[i])] and then [min(., max_velocity[i])],
    which lies in [[min_velocity[i], max_velocity[i]]] when that interval is
    not empty.  Position and personal best are left as they are. *)
Theorem update_velocity_formula (self : Particle) (con w c1 c2 : Q)
    (gbest_position : pyobj) (min_velocity max_velocity : list Q) (σ : world)
    (vs pbs xs gs : list Q) :
  points_to (heap σ) (velocity self) vs ->
  points_to (heap σ) (pbest_position self) pbs ->
  points_to (heap σ) (position self) xs ->
  points_to (heap σ) gbest_position gs ->
  length pbs = length vs -> length xs = length vs -> length gs = length vs ->
  length min_velocity = length vs -> length max_velocity = length vs ->
  let r1 := draws σ (next σ) in
  let r2 := draws σ (S (next σ)) in
  exists self' σ' vs',
    update_velocity self con w c1 c2 gbest_position
      (Vec min_velocity) (Vec max_velocity) σ = Ok (self', σ') /\
    next σ' = (next σ + 2)%nat /\
    extends σ σ' /\
    position self' = position self /\
    pbest_position self' = pbest_position self /\
    pbest_value self' = pbest_value self /\
    points_to (heap σ') (velocity self') vs' /\
    length vs' = length vs /\
    forall i v pb x g lo hi,
      vs !! i = Some v -> pbs !! i = Some pb -> xs !! i = Some x ->
      gs !! i = Some g ->
      min_velocity !! i = Some lo -> max_velocity !! i = Some hi ->
      vs' !! i = Some (new_velocity con w c1 c2 r1 r2 v pb x g lo hi) /\
      (lo <= hi -> lo <= new_velocity con w c1 c2 r1 r2 v pb x g lo hi <= hi).
Proof.
  intros Hv Hpb Hx Hg Lpb Lx Lg Lmin Lmax r1 r2.
  unfold update_velocity.
  rewrite (bind_load _ vs) by done.
  rewrite (bind_lift _ (Vec (map (Qmult w) vs))) by done.
  rewrite bind_rand. fold r1.
  rewrite (bind_load _ pbs) by done.
  rewrite (bind_load _ xs) by done.
  rewrite (bind_lift _ _ _ _ (broadcast_same Qminus pbs xs ltac:(congruence))).
  rewrite (bind_lift _ (Vec (map (Qmult (c1 * r1)) (zip_with Qminus pbs xs)))) by done.
  set (t1 := map (Qmult w) vs).
  set (t2 := map (Qmult (c1 * r1)) _).
  assert (Lt1 : length t1 = length vs) by (unfold t1; by rewrite length_map).
  assert (Lt2 : length t2 = length vs).
  { unfold t2. rewrite length_map, length_zip_with_same; congruence. }
  rewrite (bind_lift _ _ _ _ (broadcast_same Qplus t1 t2 ltac:(congruence))).
  rewrite bind_rand. cbn [next draws heap]. fold r2.
  rewrite (bind_load _ gs) by done.
  rewrite (bind_load _ xs) by done.
  rewrite (bind_lift _ _ _ _ (broadcast_same Qminus gs xs ltac:(congruence))).
  rewrite (bind_lift _ (Vec (map (Qmult (c2 * r2)) (zip_with Qminus gs xs)))) by done.
  set (t3 := map (Qmult (c2 * r2)) _).
  assert (Lt3 : length t3 = length vs).
  { unfold t3. rewrite length_map, length_zip_with_same; congruence. }
  set (s1 := zip_with Qplus t1 t2).
  assert (Ls1 : length s1 = length vs).
  { unfold s1. rewrite length_zip_with_same; congruence. }
  rewrite (bind_lift _ _ _ _ (broadcast_same Qplus s1 t3 ltac:(congruence))).
  set (s2 := zip_with Qplus s1 t3).
  assert (Ls2 : length s2 = length vs).
  { unfold s2. rewrite length_zip_with_same; congruence. }
  rewrite (bind_lift _ (Vec (map (Qmult con) s2))) by done.
  set (v1 := map (Qmult con) s2).
  assert (Lv1 : length v1 = length vs) by (unfold v1; by rewrite length_map).
  rewrite bind_new. cbn [next draws heap].
  rewrite (bind_lift _ _ _ _ (np_reduce2_same Qmax v1 min_velocity ltac:(congruence))).
  set (v2 := zip_with Qmax v1 min_velocity).
  assert (Lv2 : length v2 = length vs).
  { unfold v2. rewrite length_zip_with_same; congruence. }
  rewrite bind_new. cbn [next draws heap].
  rewrite (bind_lift _ _ _ _ (np_reduce2_same Qmin v2 max_velocity ltac:(congruence))).
  set (v3 := zip_with Qmin v2 max_velocity).
  rewrite bind_new. cbn [next draws heap].
  eexists _, _, v3. split; [reflexivity|]. cbn.
  split; [lia|]. split.
  { repeat split; cbn; [|lia]. rewrite <- !app_assoc. by apply prefix_app_r. }
  do 3 (split; [done|]). split; [apply points_to_new|]. split.
  { unfold v3. rewrite length_zip_with_same; congruence. }
  intros i v pb x g lo hi Hiv Hipb Hix Hig Hilo Hihi. split.
  - unfold v3, v2, v1, s2, s1, t3, t2, t1.
    rewrite !lookup_zip_with, !list_lookup_fmap, !lookup_zip_with,
      !list_lookup_fmap, !lookup_zip_with.
    rewrite Hiv, Hipb, Hix, Hig, Hilo, Hihi. done.
  - apply Qclamp_range.
Qed.

(** ** [update_position] *)

Section UpdatePosition.
Context `{NumpyExp}.

Lemma bernoulli_bits (ps : list Q) σ :
  exists bits,
    bernoulli ps σ
    = Ok (bits, World (heap σ) (draws σ) (next σ + length ps)) /\
    length bits = length ps /\ Forall is_bit bits.
Proof.
  revert σ. induction ps as [|p ps IH]; intros σ.
  - exists []. cbn. rewrite Nat.add_0_r. by destruct σ.
  - cbn [bernoulli]. rewrite bind_rand.
    destruct (IH (World (heap σ) (draws σ) (S (next σ)))) as (bits & Hb & Hl & Hf).
    rewrite (bind_Ok _ _ _ _ _ Hb). cbn.
    replace (next σ + S (length ps))%nat with (S (next σ) + length ps)%nat by lia.
    eexists. split; [reflexivity|]. split; [cbn; by rewrite Hl|].
    constructor; [|done]. destruct (Qlt_bool _ p); [by right | by left].
Qed.

Lemma update_position_continuous (self : Particle) (vmin vmax : list Q) (b : Q)
    σ (xs vs : list Q) :
  truthy b = false ->
  points_to (heap σ) (position self) xs ->
  points_to (heap σ) (velocity self) vs ->
  length vs = length xs -> length vmin = length xs -> length vmax = length xs ->
  exists self' σ',
    update_position self (Vec vmin) (Vec vmax) b σ = Ok (self', σ') /\
    extends σ σ' /\ next σ' = next σ /\
    velocity self' = velocity self /\
    pbest_position self' = pbest_position self /\
    pbest_value self' = pbest_value self /\
    points_to (heap σ') (position self')
      (zip_with Qmin (zip_with Qmax (zip_with Qplus xs vs) vmin) vmax).
Proof.
  intros Hb Hx Hv Lv Lmin Lmax. unfold update_position. rewrite Hb. cbn [negb].
  rewrite (bind_load _ xs) by done.
  rewrite (bind_load _ vs) by done.
  rewrite (bind_lift _ _ _ _ (broadcast_same Qplus xs vs ltac:(congruence))).
  set (p1 := zip_with Qplus xs vs).
  assert (Lp1 : length p1 = length xs).
  { unfold p1. rewrite length_zip_with_same; congruence. }
  rewrite bind_new.
  rewrite (bind_lift _ _ _ _ (np_reduce2_same Qmax p1 vmin ltac:(congruence))).
  set (p2 := zip_with Qmax p1 vmin).
  assert (Lp2 : length p2 = length xs).
  { unfold p2. rewrite length_zip_with_same; congruence. }
  rewrite bind_new.
  rewrite (bind_lift _ _ _ _ (np_reduce2_same Qmin p2 vmax ltac:(congruence))).
  rewrite bind_new. cbn.
  eexists _, _. split; [reflexivity|]. cbn. split.
  { repeat split; cbn; [|lia]. rewrite <- !app_assoc. by apply prefix_app_r. }
  do 4 (split; [done|]). apply points_to_new.
Qed.

Lemma update_position_binary (self : Particle) (vmin vmax : npval) (b : Q)
    σ (vs : list Q) :
  truthy b = true ->
  points_to (heap σ) (velocity self) vs ->
  exists self' σ' bits,
    update_position self vmin vmax b σ = Ok (self', σ') /\
    extends σ σ' /\ next σ' = (next σ + length vs)%nat /\
    velocity self' = velocity self /\
    pbest_position self' = pbest_position self /\
    pbest_value self' = pbest_value self /\
    points_to (heap σ') (position self') bits /\
    length bits = length vs /\ Forall is_bit bits.
Proof.
  intros Hb Hv. unfold update_position. rewrite Hb. cbn [negb].
  rewrite (bind_load _ vs) by done.
  destruct (bernoulli_bits (map sigmoid vs) σ) as (bits & Hbits & Hl & Hf).
  rewrite length_map in Hbits, Hl.
  rewrite (bind_Ok _ _ _ _ _ Hbits). rewrite bind_new. cbn.
  eexists _, _, bits. split; [reflexivity|]. cbn. split.
  { repeat split; cbn; [|lia]. by apply prefix_app_r. }
  do 4 (split; [done|]). split; [apply points_to_new | done].
Qed.

(** C3 (as amended): [update_position] returns on a particle whose velocity
    is an array [vs]; in binary mode the position it leaves has one
    component per component of [vs], each 0 or 1; in continuous mode, when
    position, velocity and both bounds have one length and
    [varmin[i] <= varmax[i]] in every dimension, the position it leaves
    lies in [[varmin[i], varmax[i]]] in every dimension. *)
Theorem update_position_domain (self : Particle) (vmin vmax : list Q) (b : Q)
    σ (xs vs : list Q) :
  points_to (heap σ) (velocity self) vs ->
  (truthy b = false ->
   points_to (heap σ) (position self) xs /\
   length vs = length xs /\ length vmin = length xs /\ length vmax = length xs /\
   Forall2 Qle vmin vmax) ->
  exists self' σ' xs',
    update_position self (Vec vmin) (Vec vmax) b σ = Ok (self', σ') /\
    points_to (heap σ') (position self') xs' /\
    length xs' = length vs /\
    (truthy b = true -> Forall is_bit xs') /\
    (truthy b = false ->
     forall i lo hi x', vmin !! i = Some lo -> vmax !! i = Some hi ->
                        xs' !! i = Some x' -> lo <= x' <= hi).
Proof.
  intros Hv Hcont. destruct (truthy b) eqn:Hb.
  - destruct (update_position_binary self (Vec vmin) (Vec vmax) b σ vs Hb Hv)
      as (self' & σ' & bits & Hrun & _ & _ & _ & _ & _ & Hp & Hl & Hf).
    exists self', σ', bits. by repeat split.
  - destruct (Hcont eq_refl) as (Hx & Lv & Lmin & Lmax & Hle).
    destruct (update_position_continuous self vmin vmax b σ xs vs Hb Hx Hv Lv Lmin Lmax)
      as (self' & σ' & Hrun & _ & _ & _ & _ & _ & Hp).
    eexists self', σ', _. split; [done|]. split; [done|]. split.
    { rewrite !length_zip_with. lia. }
    split; [done|]. intros _ i lo hi x' Hlo Hhi.
    rewrite !lookup_zip_with, Hlo, Hhi.
    destruct (xs !! i) as [x|]; [|done]. destruct (vs !! i) as [v|]; [|done].
    cbn. intros [= <-]. apply Qclamp_range.
    by eapply (Forall2_lookup_lr Qle vmin vmax).
Qed.

End UpdatePosition.

(** ** What one evaluation of the cost does to the bests *)

Ltac post_step :=
  match goal with
  | |- post _ (bind _ _) _ => apply post_bind; intros ? ? _
  | |- post _ (ret _) _ => apply post_ret
  | |- post _ (raise _) _ => apply post_raise
  | |- post _ (if ?b then _ else _) _ => destruct b
  | |- post _ (match ?x with _ => _ end) _ => destruct x
  end.

Lemma update_velocity_keeps self con w c1 c2 gp minv maxv σ :
  post σ (update_velocity self con w c1 c2 gp minv maxv)
    (fun p _ => position p = position self /\
                pbest_position p = pbest_position self /\
                pbest_value p = pbest_value self).
Proof. unfold update_velocity. repeat post_step. done. Qed.

Lemma initial_position_keeps self vmin vmax b σ :
  post σ (initial_position self vmin vmax b)
    (fun p _ => pbest_position p = position p /\
                pbest_value p = pbest_value self).
Proof. unfold initial_position. repeat post_step. done. Qed.

Section Bests.
Context `{NumpyExp}.

Lemma update_position_keeps self vmin vmax b σ :
  post σ (update_position self vmin vmax b)
    (fun p _ => velocity p = velocity self /\
                pbest_position p = pbest_position self /\
                pbest_value p = pbest_value self).
Proof. unfold update_position. repeat post_step; done. Qed.

(** The body of the main loop, seen from the bests: some cost [c] is
    observed. *)
Lemma move_particle_observes cost vmin vmax params con w c1 c2 minv maxv p gv gp σ :
  post σ (move_particle cost vmin vmax params con w c1 c2 minv maxv p gv gp)
    (fun r _ =>
       let '(p', gv', gp') := r in
       exists x,
         pbest_value p' = observe_pbest (cost x) (pbest_value p) /\
         gv' = snd (observe_gbest (cost x) (pbest_value p) gv) /\
         gp' = (if fst (observe_gbest (cost x) (pbest_value p) gv)
                then pbest_position p' else gp) /\
         (fst (observe_gbest (cost x) (pbest_value p) gv) = true ->
          pbest_position p' = position p')).
Proof.
  unfold move_particle. apply post_bind.
  eapply post_weaken; [apply update_velocity_keeps|].
  intros p1 σ1 (_ & _ & Hv1). cbn beta.
  apply post_bind, post_lift. intros b _.
  apply post_bind. eapply post_weaken; [apply update_position_keeps|].
  intros p2 σ2 (_ & _ & Hv2). cbn beta.
  apply post_bind. intros x σ3 _.
  unfold observe_gbest, observe_pbest. rewrite Hv2, Hv1.
  destruct (ereal_ltb (Fin (cost x)) (pbest_value p)) eqn:E1; cbn [andb].
  - destruct (ereal_ltb (Fin (cost x)) gv) eqn:E2; apply post_ret;
      exists x; rewrite E1, E2;
      cbn [andb fst snd pbest_value pbest_position position]; done.
  - apply post_ret. exists x. rewrite E1.
    cbn [andb fst snd pbest_value pbest_position position].
    by rewrite Hv2, Hv1.
Qed.

(** The body of the first loop: the particle starts from a personal best of
    infinity. *)
Lemma init_particle_observes cost vmin vmax params p gv gp σ :
  pbest_value p = PInf ->
  post σ (init_particle cost vmin vmax params p gv gp)
    (fun r _ =>
       let '(p', gv', gp') := r in
       exists x,
         pbest_value p' = observe_pbest (cost x) (pbest_value p) /\
         gv' = snd (observe_gbest (cost x) (pbest_value p) gv) /\
         gp' = (if fst (observe_gbest (cost x) (pbest_value p) gv)
                then pbest_position p' else gp) /\
         pbest_position p' = position p').
Proof.
  intros Hp. unfold init_particle. apply post_bind, post_lift. intros b _.
  apply post_bind. intros p1 σ1 _. apply post_bind. intros x σ2 _.
  unfold observe_gbest, observe_pbest. rewrite Hp.
  cbn [pbest_value pbest_position position].
  destruct (ereal_ltb (Fin (cost x)) gv) eqn:E; apply post_ret;
    exists x; change (ereal_ltb (Fin (cost x)) PInf) with true;
    cbn [andb]; rewrite E;
    cbn [fst snd pbest_value pbest_position position]; done.
Qed.

End Bests.

Lemma observe_gbest_le c pbest gbest :
  ereal_le (snd (observe_gbest c pbest gbest)) gbest.
Proof.
  unfold observe_gbest.
  destruct (ereal_ltb (Fin c) pbest); cbn [andb snd]; [|apply ereal_le_refl].
  destruct (ereal_ltb (Fin c) gbest) eqn:E; cbn [snd];
    [by apply ereal_ltb_le | apply ereal_le_refl].
Qed.

Lemma observe_gbest_improves c pbest gbest :
  fst (observe_gbest c pbest gbest) = true ->
  snd (observe_gbest c pbest gbest) = Fin c /\
  ereal_ltb (Fin c) gbest = true /\ observe_pbest c pbest = Fin c.
Proof.
  unfold observe_gbest, observe_pbest.
  destruct (ereal_ltb (Fin c) pbest); cbn [andb]; [|done].
  destruct (ereal_ltb (Fin c) gbest); done.
Qed.

(** ** The global best is the least personal best *)

Lemma swarm_min_observe (seen rest : list Particle) (p p' : Particle)
    (gv : ereal) (c : Q) :
  swarm_min gv (seen ++ p :: rest) ->
  pbest_value p' = observe_pbest c (pbest_value p) ->
  swarm_min (snd (observe_gbest c (pbest_value p) gv)) (seen ++ p' :: rest).
Proof.
  intros [Hall Hex] Hp'.
  apply Forall_app in Hall as [Hseen Hrest]. apply Forall_cons in Hrest as [Hp Hrest].
  unfold observe_gbest, observe_pbest in *.
  destruct (ereal_ltb (Fin c) (pbest_value p)) eqn:E1; cbn [andb snd].
  - destruct (ereal_ltb (Fin c) gv) eqn:E2; cbn [snd].
    + apply ereal_ltb_le in E2. split.
      * apply Forall_app. split; [|apply Forall_cons; split].
        -- eapply Forall_impl; [exact Hseen|]. intros q Hq. by eapply ereal_le_trans.
        -- rewrite Hp'. apply ereal_le_refl.
        -- eapply Forall_impl; [exact Hrest|]. intros q Hq. by eapply ereal_le_trans.
      * right. apply Exists_app. right. by apply Exists_cons_hd.
    + split.
      * apply Forall_app. split; [done|]. apply Forall_cons. split; [|done].
        rewrite Hp'. by apply ereal_ltb_false_le.
      * destruct Hex as [->|Hex]; [by left|]. right.
        apply Exists_app in Hex as [Hex|Hex]; [apply Exists_app; by left|].
        apply Exists_cons in Hex as [Hex|Hex].
        -- rewrite Hex in E1. congruence.
        -- apply Exists_app. right. by apply Exists_cons_tl.
  - split.
    + apply Forall_app. split; [done|]. apply Forall_cons. split; [|done].
      by rewrite Hp'.
    + destruct Hex as [->|Hex]; [by left|]. right.
      apply Exists_app in Hex as [Hex|Hex]; [apply Exists_app; by left|].
      apply Exists_app. right. apply Exists_cons in Hex as [Hex|Hex].
      * apply Exists_cons_hd. congruence.
      * by apply Exists_cons_tl.
Qed.

Section Loops.
Context `{NumpyExp}.

Lemma move_loop_min cost vmin vmax params con w c1 c2 minv maxv todo :
  forall seen gv gp σ todo' gv' gp' σ',
    move_loop cost vmin vmax params con w c1 c2 minv maxv todo gv gp σ
    = Ok ((todo', gv', gp'), σ') ->
    swarm_min gv (seen ++ todo) ->
    swarm_min gv' (seen ++ todo') /\ ereal_le gv' gv.
Proof.
  induction todo as [|p rest IH]; intros seen gv gp σ todo' gv' gp' σ' Hrun Hmin.
  - apply ret_Ok_inv in Hrun as [[= -> -> ->] _]. split; [done | apply ereal_le_refl].
  - cbn [move_loop] in Hrun.
    apply bind_Ok_inv in Hrun as ([[p1 gv1] gp1] & σ1 & Hp & Hrun).
    apply bind_Ok_inv in Hrun as ([[rest1 gv2] gp2] & σ2 & Hrest & Hrun).
    apply ret_Ok_inv in Hrun as [[= -> -> ->] _].
    apply move_particle_observes in Hp as (c & Hpb & -> & _).
    specialize (IH (seen ++ [p1]) _ _ _ _ _ _ _ Hrest).
    rewrite <- !app_assoc in IH. cbn [app] in IH.
    destruct IH as [IH1 IH2]; [by eapply swarm_min_observe|].
    split; [done|]. eapply ereal_le_trans; [exact IH2 | apply observe_gbest_le].
Qed.

Lemma init_loop_min cost vmin vmax params todo :
  forall seen gv gp σ todo' gv' gp' σ',
    init_loop cost vmin vmax params todo gv gp σ = Ok ((todo', gv', gp'), σ') ->
    Forall (fun p => pbest_value p = PInf) todo ->
    swarm_min gv (seen ++ todo) ->
    swarm_min gv' (seen ++ todo').
Proof.
  induction todo as [|p rest IH];
    intros seen gv gp σ todo' gv' gp' σ' Hrun Hinf Hmin.
  - by apply ret_Ok_inv in Hrun as [[= -> -> ->] _].
  - cbn [init_loop] in Hrun. apply Forall_cons in Hinf as [Hp0 Hinf].
    apply bind_Ok_inv in Hrun as ([[p1 gv1] gp1] & σ1 & Hp & Hrun).
    apply bind_Ok_inv in Hrun as ([[rest1 gv2] gp2] & σ2 & Hrest & Hrun).
    apply ret_Ok_inv in Hrun as [[= -> -> ->] _].
    apply (init_particle_observes _ _ _ _ _ _ _ _ Hp0) in Hp as (c & Hpb & -> & _).
    specialize (IH (seen ++ [p1]) _ _ _ _ _ _ _ Hrest Hinf).
    rewrite <- !app_assoc in IH. cbn [app] in IH.
    apply IH. by eapply swarm_min_observe.
Qed.

(** The state that [PSO_start] hands to the main loop. *)
Lemma PSO_start_inv problem params σ c s σ' :
  PSO_start problem params σ = Ok ((c, s), σ') ->
  PSO_setup problem params = Ok c /\
  swarm_min (gbest_value s) (particles_vector s) /\
  best_costs s !! 0%nat = Some (gbest_value s) /\
  (exists z, as_int (cfg_maxit c + 1) = Some z /\ (0 < z)%Z /\
             length (best_costs s) = Z.to_nat z) /\
  (forall k, (0 < k < length (best_costs s))%nat ->
             best_costs s !! k = Some (Fin 0)) /\
  w s = cfg_w c.
Proof.
  unfold PSO_start. intros Hrun.
  apply bind_Ok_inv in Hrun as (c' & σ1 & [Hc ->]%lift_Ok_inv & Hrun).
  apply bind_Ok_inv in Hrun as (n & σ2 & [Hn ->]%lift_Ok_inv & Hrun).
  apply bind_Ok_inv in Hrun as (l & σ3 & _ & Hrun).
  apply bind_Ok_inv in Hrun as ([[ps gv] gp] & σ4 & Hinit & Hrun).
  apply bind_Ok_inv in Hrun as (bc0 & σ5 & [Hz ->]%lift_Ok_inv & Hrun).
  apply bind_Ok_inv in Hrun as (bc & σ6 & [Hset ->]%lift_Ok_inv & Hrun).
  apply ret_Ok_inv in Hrun as [[= -> ->] _]. cbn.
  split; [done|].
  apply (init_loop_min _ _ _ _ _ []) in Hinit; cycle 1.
  { apply Forall_replicate. done. }
  { split; [|by left]. cbn [app]. by apply Forall_replicate. }
  split; [done|].
  unfold np_zeros in Hz. destruct (as_int (cfg_maxit c' + 1)) as [z|] eqn:Ez; [|done].
  destruct (z <? 0)%Z eqn:Hneg; [done|]. injection Hz as <-.
  unfold setitem in Hset. rewrite length_replicate in Hset.
  destruct (0 <? Z.to_nat z)%nat eqn:Hpos; [|done]. injection Hset as <-.
  apply Nat.ltb_lt in Hpos. apply Z.ltb_ge in Hneg.
  split. { apply list_lookup_insert_eq. by rewrite length_replicate. }
  split.
  { exists z. rewrite length_insert, length_replicate. split; [done|]. split; lia. }
  split; [|done]. intros k. rewrite length_insert, length_replicate. intros Hk.
  rewrite list_lookup_insert_ne by lia. apply lookup_replicate_2. lia.
Qed.

End Loops.

(** ** The trace [best_costs] *)

Section MainLoop.
Context `{NumpyExp}.

Lemma iteration_inv cost vmin vmax params con wdamp c1 c2 minv maxv it s σ s' σ' :
  iteration cost vmin vmax params con wdamp c1 c2 minv maxv it s σ = Ok (s', σ') ->
  swarm_min (gbest_value s) (particles_vector s) ->
  trace_inv it s ->
  swarm_min (gbest_value s') (particles_vector s') /\
  trace_inv (S it) s' /\
  length (best_costs s') = length (best_costs s) /\
  w s' = w s * wdamp.
Proof.
  unfold iteration. intros Hrun Hmin (Hcur & Hmono & Hzero).
  apply bind_Ok_inv in Hrun as (? & σ1 & _ & Hrun).
  apply bind_Ok_inv in Hrun as ([[ps gv] gp] & σ2 & Hmove & Hrun).
  apply bind_Ok_inv in Hrun as (bc & σ3 & [Hset ->]%lift_Ok_inv & Hrun).
  apply ret_Ok_inv in Hrun as [-> _]. unfold trace_inv.
  cbn [best_costs gbest_value gbest_position particles_vector w].
  apply (move_loop_min _ _ _ _ _ _ _ _ _ _ _ []) in Hmove as [Hmin' Hle]; [|done].
  unfold setitem in Hset.
  destruct (it + 1 <? length (best_costs s))%nat eqn:Hlt; [|done].
  injection Hset as <-. apply Nat.ltb_lt in Hlt.
  split; [done|]. split; [|by rewrite length_insert].
  replace (it + 1)%nat with (S it) in * by lia. repeat split.
  - by apply list_lookup_insert_eq.
  - intros k a b Hk. destruct (decide (k = it)) as [->|Hne].
    + rewrite list_lookup_insert_ne by lia. rewrite list_lookup_insert_eq by done.
      rewrite Hcur. by intros [= <-] [= <-].
    + rewrite !list_lookup_insert_ne by lia. apply Hmono. lia.
  - intros k. rewrite length_insert. intros Hk.
    rewrite list_lookup_insert_ne by lia. apply Hzero. lia.
Qed.

Lemma main_loop_inv cost vmin vmax params con wdamp c1 c2 minv maxv rounds :
  forall it s σ e s' σ',
    main_loop cost vmin vmax params con wdamp c1 c2 minv maxv rounds it s σ
    = Ok ((e, s'), σ') ->
    swarm_min (gbest_value s) (particles_vector s) ->
    trace_inv it s ->
    swarm_min (gbest_value s') (particles_vector s') /\
    trace_inv (completed e it rounds) s' /\
    length (best_costs s') = length (best_costs s) /\
    (forall j, e = EarlyStop j ->
               (it <= j < it + rounds)%nat /\
               early_stop params j (best_costs s') = Ok true).
Proof.
  induction rounds as [|rounds IH]; intros it s σ e s' σ' Hrun Hmin Htr.
  - apply ret_Ok_inv in Hrun as [[= -> ->] _]. cbn. rewrite Nat.add_0_r. done.
  - cbn [main_loop] in Hrun.
    apply bind_Ok_inv in Hrun as (s1 & σ1 & Hit & Hrun).
    apply bind_Ok_inv in Hrun as (stop & σ2 & [Hstop ->]%lift_Ok_inv & Hrun).
    apply iteration_inv in Hit as (Hmin1 & Htr1 & Hlen1 & _); [|done..].
    destruct stop.
    + apply ret_Ok_inv in Hrun as [[= -> ->] _]. cbn.
      split; [done|]. split; [done|]. split; [done|].
      intros j [= <-]. split; [lia | done].
    + apply IH in Hrun as (Hmin' & Htr' & Hlen' & Hstop'); [|done..].
      split; [done|]. split.
      { destruct e; cbn in *; [done|]. by replace (it + S rounds)%nat
          with (S it + rounds)%nat by lia. }
      split; [congruence|]. intros j Hj. destruct (Hstop' j Hj). split; [lia | done].
Qed.

End MainLoop.

(** ** Integers among the numbers *)

Lemma Qred_inject_Z (z : Z) : Qred (inject_Z z) = inject_Z z.
Proof. apply Qcanon.Qred_identity. cbn. apply Z.gcd_1_r. Qed.

Lemma as_int_spec (q : Q) (z : Z) : as_int q = Some z <-> q == inject_Z z.
Proof.
  split.
  - unfold as_int. destruct (Z.pos (Qden (Qred q)) =? 1)%Z eqn:Hden; [|done].
    intros [= <-]. apply Z.eqb_eq in Hden. rewrite <- (Qred_correct q) at 1.
    destruct (Qred q) as [n d]. cbn in *. injection Hden as ->. reflexivity.
  - intros Hq. unfold as_int. rewrite (Qred_complete _ _ Hq), Qred_inject_Z. done.
Qed.

Lemma as_int_succ (q : Q) (z : Z) : as_int (q + 1) = Some z -> as_int q = Some (z - 1)%Z.
Proof.
  rewrite !as_int_spec. intros Hq. unfold Z.sub.
  rewrite inject_Z_plus, inject_Z_opp, <- Hq.
  change (inject_Z 1) with 1. ring.
Qed.

(** ** Runs of [PSO] *)

Section Runs.
Context `{NumpyExp}.

Lemma PSO_run_inv problem params σ e s σ' :
  PSO_run problem params σ = Ok ((e, s), σ') ->
  exists c s0 σ0 rounds,
    PSO_start problem params σ = Ok ((c, s0), σ0) /\
    py_range (cfg_maxit c) = Ok rounds /\
    PSO_loop problem c rounds 0 s0 σ0 = Ok ((e, s), σ').
Proof.
  unfold PSO_run. intros Hrun.
  apply bind_Ok_inv in Hrun as ([c s0] & σ0 & Hstart & Hrun).
  apply bind_Ok_inv in Hrun as (rounds & σ1 & [Hr ->]%lift_Ok_inv & Hrun).
  by exists c, s0, σ0, rounds.
Qed.

Lemma PSO_start_trace problem params σ c s σ' :
  PSO_start problem params σ = Ok ((c, s), σ') -> trace_inv 0 s.
Proof.
  intros (_ & _ & H0 & _ & Hz & _)%PSO_start_inv. split; [done|].
  split; [intros; lia | done].
Qed.

(** The rounds [range(maxit)] yields are one fewer than the entries of
    [best_costs]. *)
Lemma PSO_start_rounds problem params σ c s σ' rounds :
  PSO_start problem params σ = Ok ((c, s), σ') ->
  py_range (cfg_maxit c) = Ok rounds ->
  length (best_costs s) = S rounds.
Proof.
  intros (_ & _ & _ & (z & Hz & Hpos & Hlen) & _)%PSO_start_inv.
  unfold py_range. rewrite (as_int_succ _ _ Hz). intros [= <-]. lia.
Qed.

(** C4: in every run of [PSO] that returns, the trace [best_costs] has an
    entry for every completed iteration, the last of them is the returned
    global best, and [best_costs[k+1] <= best_costs[k]] for every [k] below
    the number of completed iterations. *)
Theorem best_costs_nonincreasing problem params σ e s σ' :
  PSO_run problem params σ = Ok ((e, s), σ') ->
  let n := iterations_completed e (best_costs s) in
  (n < length (best_costs s))%nat /\
  best_costs s !! n = Some (gbest_value s) /\
  forall k, (k < n)%nat ->
    exists a b, best_costs s !! k = Some a /\ best_costs s !! S k = Some b /\
                ereal_le b a.
Proof.
  intros (c & s0 & σ0 & rounds & Hstart & Hrounds & Hloop)%PSO_run_inv n.
  pose proof (PSO_start_rounds _ _ _ _ _ _ _ Hstart Hrounds) as Hlen0.
  pose proof (PSO_start_trace _ _ _ _ _ _ Hstart) as Htr0.
  apply PSO_start_inv in Hstart as (_ & Hmin0 & _).
  unfold PSO_loop in Hloop.
  apply main_loop_inv in Hloop as (_ & (Hcur & Hmono & _) & Hlen & Hstop);
    [|assumption..].
  assert (Hn : n = completed e 0 rounds).
  { unfold n, iterations_completed, completed. destruct e; [done|]. lia. }
  rewrite <- Hn in *.
  assert (Hlt : (n < length (best_costs s))%nat) by by eapply lookup_lt_Some.
  split; [done|]. split; [done|]. intros k Hk.
  destruct (lookup_lt_is_Some_2 (best_costs s) k) as [a Ha]; [lia|].
  destruct (lookup_lt_is_Some_2 (best_costs s) (S k)) as [b Hb]; [lia|].
  exists a, b. split; [done|]. split; [done|]. by eapply Hmono.
Qed.

(** C5: when the initialisation of [PSO] is over, and at the end of every
    iteration of the main loop (the state the loop is left in after any
    number [rounds] of rounds, or after the early stop), the global best
    is the least personal best: no particle has a personal best below it,
    and some particle has it as personal best (it is infinite only when no
    particle has a finite one). *)
Theorem gbest_is_least_pbest problem params σ c s0 σ0 :
  PSO_start problem params σ = Ok ((c, s0), σ0) ->
  swarm_min (gbest_value s0) (particles_vector s0) /\
  forall rounds e s σ',
    PSO_loop problem c rounds 0 s0 σ0 = Ok ((e, s), σ') ->
    swarm_min (gbest_value s) (particles_vector s).
Proof.
  intros Hstart. pose proof (PSO_start_trace _ _ _ _ _ _ Hstart) as Htr0.
  apply PSO_start_inv in Hstart as (_ & Hmin0 & _). split; [done|].
  intros rounds e s σ' Hloop. unfold PSO_loop in Hloop.
  apply main_loop_inv in Hloop as (? & _); assumption.
Qed.

End Runs.

(** ** Well-shaped runs return *)

Lemma arr_extends σ σ' o D : extends σ σ' -> arr (heap σ) o D -> arr (heap σ') o D.
Proof. intros Hext (xs & Hp & Hl). exists xs. split; [by eapply points_to_extends | done]. Qed.

Lemma wf_particle_extends σ σ' D p :
  extends σ σ' -> wf_particle D (heap σ) p -> wf_particle D (heap σ') p.
Proof. intros Hext (Hx & Hv & Hpb). repeat split; by eapply arr_extends. Qed.

Lemma np_random_sample_eq n σ :
  np_random_sample n σ
  = Ok (map (draws σ) (seq (next σ) n), World (heap σ) (draws σ) (next σ + n)).
Proof.
  revert σ. induction n as [|n IH]; intros σ.
  - cbn. rewrite Nat.add_0_r. by destruct σ.
  - cbn [np_random_sample]. rewrite bind_rand. rewrite (bind_Ok _ _ _ _ _ (IH _)).
    cbn. unfold ret. do 3 f_equal. lia.
Qed.

Lemma np_random_uniform_eq low high n lo hi σ :
  broadcast_to n low = Ok lo -> broadcast_to n high = Ok hi ->
  np_random_uniform low high n σ
  = Ok (Vec (zip_with (fun lh u => fst lh + (snd lh - fst lh) * u) (zip lo hi)
               (map (draws σ) (seq (next σ) n))),
        World (heap σ) (draws σ) (next σ + n)).
Proof.
  intros Hlo Hhi. unfold np_random_uniform.
  rewrite (bind_lift _ _ _ _ Hlo), (bind_lift _ _ _ _ Hhi).
  by rewrite (bind_Ok _ _ _ _ _ (np_random_sample_eq n σ)).
Qed.

Lemma broadcast_to_same n xs : length xs = n -> broadcast_to n (Vec xs) = Ok xs.
Proof. intros <-. cbn. by rewrite Nat.eqb_refl. Qed.

Lemma uniform_unit_row n (us : list Q) :
  length us = n ->
  zip_with (fun (lh : Q * Q) u => fst lh + (snd lh - fst lh) * u)
    (zip (replicate n 0) (replicate n 1)) us
  = map (fun u => 0 + (1 - 0) * u) us.
Proof.
  revert us. induction n as [|n IH]; intros [|u us] Hlen; try done.
  cbn. f_equal. apply IH. cbn in Hlen. lia.
Qed.

Lemma initial_position_total self (vmin vmax : list Q) (b : Q) (D : nat) σ :
  length vmin = D -> length vmax = D ->
  exists p' σ' xs,
    initial_position self (Vec vmin) (Vec vmax) b σ = Ok (p', σ') /\
    extends σ σ' /\ next σ' = (next σ + 2 * D)%nat /\
    pbest_value p' = pbest_value self /\
    pbest_position p' = position p' /\
    arr (heap σ') (velocity p') D /\
    points_to (heap σ') (position p') xs /\ length xs = D /\
    (truthy b = true -> xs = unit_draws σ (next σ) D).
Proof.
  intros Lmin Lmax. unfold initial_position.
  rewrite (bind_lift _ (length vmin)) by done. rewrite Lmin.
  set (urow := fun (lh : Q * Q) u => fst lh + (snd lh - fst lh) * u).
  assert (exists xs, (if negb (truthy b) then np_random_uniform (Vec vmin) (Vec vmax) D
                      else np_random_uniform (Scalar 0) (Scalar 1) D) σ
                     = Ok (Vec xs, World (heap σ) (draws σ) (next σ + D)) /\
                     length xs = D /\
                     (truthy b = true -> xs = unit_draws σ (next σ) D))
    as (xs & Hpos & Lxs & Hunit).
  { destruct (truthy b); cbn [negb].
    - eexists. split; [by apply np_random_uniform_eq|]. unfold unit_draws.
      rewrite uniform_unit_row by (by rewrite length_map, length_seq).
      split; [by rewrite !length_map, length_seq | done].
    - eexists. split; [apply np_random_uniform_eq; by apply broadcast_to_same|].
      split; [|done].
      rewrite length_zip_with, length_zip, length_map, length_seq. lia. }
  rewrite (bind_Ok _ _ _ _ _ Hpos). rewrite bind_new. cbn [heap draws next].
  rewrite (bind_lift _ (length vmin)) by done. rewrite Lmin.
  erewrite bind_Ok; [|apply np_random_uniform_eq; by apply broadcast_to_same].
  rewrite bind_new. cbn [heap draws next].
  eexists _, _, xs. split; [reflexivity|]. cbn.
  split. { repeat split; cbn; [|lia]. rewrite <- app_assoc. by apply prefix_app_r. }
  split; [lia|]. split; [done|]. split; [done|]. split.
  { eexists. split; [apply points_to_new|].
    rewrite length_zip_with, length_zip, length_map, length_seq. lia. }
  split; [|done]. apply points_to_app, points_to_new.
Qed.

(** [update_velocity] returns on arrays of one length, after two values of
    the generator, and leaves a velocity of that length. *)
Lemma update_velocity_total (self : Particle) (con w c1 c2 : Q)
    (gbest_position : pyobj) (min_velocity max_velocity : list Q) (σ : world)
    (vs pbs xs gs : list Q) :
  points_to (heap σ) (velocity self) vs ->
  points_to (heap σ) (pbest_position self) pbs ->
  points_to (heap σ) (position self) xs ->
  points_to (heap σ) gbest_position gs ->
  length pbs = length vs -> length xs = length vs -> length gs = length vs ->
  length min_velocity = length vs -> length max_velocity = length vs ->
  exists self' σ' vs',
    update_velocity self con w c1 c2 gbest_position
      (Vec min_velocity) (Vec max_velocity) σ = Ok (self', σ') /\
    next σ' = (next σ + 2)%nat /\
    extends σ σ' /\
    position self' = position self /\
    pbest_position self' = pbest_position self /\
    pbest_value self' = pbest_value self /\
    points_to (heap σ') (velocity self') vs' /\
    length vs' = length vs.
Proof.
  intros Hv Hpb Hx Hg Lpb Lx Lg Lmin Lmax.
  assert (Lsub : forall (f : Q -> Q -> Q) (ys zs : list Q),
            length ys = length vs -> length zs = length vs ->
            length (zip_with f ys zs) = length vs)
    by (intros f ys zs Lys Lzs; rewrite length_zip_with_same; congruence).
  unfold update_velocity.
  rewrite (bind_load _ vs) by done.
  rewrite (bind_lift _ (Vec (map (Qmult w) vs))) by done.
  rewrite bind_rand.
  rewrite (bind_load _ pbs) by done.
  rewrite (bind_load _ xs) by done.
  rewrite (bind_lift _ _ _ _ (broadcast_same Qminus pbs xs ltac:(congruence))).
  set (inertia := map (Qmult w) vs).
  set (own := map (Qmult (c1 * draws σ (next σ))) (zip_with Qminus pbs xs)).
  rewrite (bind_lift _ (Vec own)) by done.
  assert (Li : length inertia = length vs) by apply length_map.
  assert (Lo : length own = length vs)
    by (unfold own; rewrite length_map; by apply Lsub).
  rewrite (bind_lift _ _ _ _ (broadcast_same Qplus inertia own ltac:(congruence))).
  rewrite bind_rand. cbn [next draws heap].
  rewrite (bind_load _ gs) by done.
  rewrite (bind_load _ xs) by done.
  rewrite (bind_lift _ _ _ _ (broadcast_same Qminus gs xs ltac:(congruence))).
  set (social := map (Qmult (c2 * draws σ (S (next σ)))) (zip_with Qminus gs xs)).
  rewrite (bind_lift _ (Vec social)) by done.
  assert (Lso : length social = length vs)
    by (unfold social; rewrite length_map; by apply Lsub).
  set (total := zip_with Qplus inertia own).
  assert (Lt : length total = length vs) by by apply Lsub.
  rewrite (bind_lift _ _ _ _ (broadcast_same Qplus total social ltac:(congruence))).
  set (raw := map (Qmult con) (zip_with Qplus total social)).
  rewrite (bind_lift _ (Vec raw)) by done.
  assert (Lr : length raw = length vs)
    by (unfold raw; rewrite length_map; by apply Lsub).
  rewrite bind_new. cbn [next draws heap].
  rewrite (bind_lift _ _ _ _ (np_reduce2_same Qmax raw min_velocity ltac:(congruence))).
  rewrite bind_new. cbn [next draws heap].
  rewrite (bind_lift _ _ _ _ (np_reduce2_same Qmin (zip_with Qmax raw min_velocity)
             max_velocity ltac:(rewrite Lsub; congruence))).
  rewrite bind_new. cbn [next draws heap].
  eexists _, _, _. split; [reflexivity|]. cbn.
  split; [lia|]. split.
  { repeat split; cbn; [|lia]. rewrite <- !app_assoc. by apply prefix_app_r. }
  do 3 (split; [done|]). split; [apply points_to_new|].
  apply Lsub; [by apply Lsub | done].
Qed.

Section Total.
Context `{NumpyExp}.

Lemma init_particle_total cost (vmin vmax : list Q) params (b : Q) (D : nat)
    p gv gp σ :
  params !! "BPSO" = Some b ->
  length vmin = D -> length vmax = D ->
  exists p' σ' xs,
    init_particle cost (Vec vmin) (Vec vmax) params p gv gp σ
    = Ok ((p', (if ereal_ltb (Fin (cost (Vec xs))) gv then Fin (cost (Vec xs)) else gv),
               (if ereal_ltb (Fin (cost (Vec xs))) gv then position p' else gp)), σ') /\
    extends σ σ' /\ next σ' = (next σ + 2 * D)%nat /\
    wf_particle D (heap σ') p' /\
    pbest_value p' = Fin (cost (Vec xs)) /\
    points_to (heap σ') (position p') xs /\ length xs = D /\
    (truthy b = true -> xs = unit_draws σ (next σ) D).
Proof.
  intros Hb Lmin Lmax. unfold init_particle.
  rewrite (bind_lift _ b) by (unfold getitem; by rewrite Hb).
  destruct (initial_position_total p vmin vmax b D σ Lmin Lmax)
    as (p1 & σ1 & xs & Hrun & Hext & Hnext & _ & Hpb & Hvel & Hpos & Lxs & Hunit).
  rewrite (bind_Ok _ _ _ _ _ Hrun). cbn [position velocity pbest_position pbest_value].
  rewrite (bind_load _ xs) by done.
  cbn [position velocity pbest_position pbest_value].
  exists {| position := position p1; velocity := velocity p1;
            pbest_position := position p1;
            pbest_value := Fin (cost (Vec xs)) |}, σ1, xs.
  split.
  { destruct (ereal_ltb (Fin (cost (Vec xs))) gv); reflexivity. }
  split; [done|]. split; [done|].
  cbn [position velocity pbest_position pbest_value]. split; [|done].
  unfold wf_particle. cbn [position velocity pbest_position pbest_value].
  split; [by exists xs|]. split; [done | by exists xs].
Qed.

Lemma init_loop_total cost (vmin vmax : list Q) params (b : Q) (D : nat) todo :
  params !! "BPSO" = Some b ->
  length vmin = D -> length vmax = D ->
  forall gv gp σ,
  exists todo' gv' gp' σ',
    init_loop cost (Vec vmin) (Vec vmax) params todo gv gp σ
    = Ok ((todo', gv', gp'), σ') /\
    extends σ σ' /\ next σ' = (next σ + 2 * D * length todo)%nat /\
    Forall (wf_particle D (heap σ')) todo' /\
    length todo' = length todo /\
    ((gv' = gv /\ gp' = gp /\ (todo = [] \/ gv <> PInf)) \/
     exists j xs,
       (j < length todo)%nat /\ points_to (heap σ') gp' xs /\ length xs = D /\
       gv' = Fin (cost (Vec xs)) /\
       (truthy b = true -> xs = unit_draws σ (next σ + 2 * D * j) D)).
Proof.
  intros Hb Lmin Lmax. induction todo as [|p rest IH]; intros gv gp σ.
  - exists [], gv, gp, σ. cbn. split; [done|]. split; [apply extends_refl|].
    split; [lia|]. split; [done|]. split; [done|]. left. auto.
  - cbn [init_loop].
    destruct (init_particle_total cost vmin vmax params b D p gv gp σ Hb Lmin Lmax)
      as (p1 & σ1 & xs & Hrun & Hext & Hnext & Hwf & _ & Hpos & Lxs & Hunit).
    rewrite (bind_Ok _ _ _ _ _ Hrun).
    set (gv1 := if ereal_ltb (Fin (cost (Vec xs))) gv then Fin (cost (Vec xs)) else gv).
    set (gp1 := if ereal_ltb (Fin (cost (Vec xs))) gv then position p1 else gp).
    destruct (IH gv1 gp1 σ1)
      as (rest' & gv' & gp' & σ' & Hrest & Hext' & Hnext' & Hwf' & Hlen' & Hbest).
    rewrite (bind_Ok _ _ _ _ _ Hrest).
    exists (p1 :: rest'), gv', gp', σ'. split; [done|].
    split; [by eapply extends_trans|]. split; [cbn [length]; lia|].
    split. { constructor; [by eapply wf_particle_extends | done]. }
    split; [cbn; by rewrite Hlen'|].
    destruct Hbest as [(-> & -> & Hcase)|(j & ys & Hj & Hys & Lys & -> & Hyunit)].
    + unfold gv1, gp1. destruct (ereal_ltb (Fin (cost (Vec xs))) gv) eqn:E.
      * right. exists 0%nat, xs. split; [cbn; lia|].
        split; [by eapply points_to_extends|]. split; [done|]. split; [done|].
        intros Ht. rewrite Hunit by done. f_equal. lia.
      * left. split; [done|]. split; [done|]. right. by intros ->.
    + right. exists (S j), ys. split; [cbn; lia|]. split; [done|].
      split; [done|]. split; [done|]. intros Ht. rewrite Hyunit by done.
      unfold unit_draws. destruct Hext as (_ & -> & _). do 3 f_equal. lia.
Qed.

End Total.

Lemma np_compare_same f xs ys :
  length xs = length ys -> np_compare f (Vec xs) (Vec ys) = Ok (zip_with f xs ys).
Proof. intros Hlen. cbn. by rewrite Hlen, Nat.eqb_refl. Qed.

Lemma examine_loop_total (D : nat) ps gp σ :
  wf_swarm D (heap σ) ps gp ->
  forall converged ham_dist,
  exists r, examine_loop ps gp converged ham_dist σ = Ok (r, σ).
Proof.
  intros [Hwf Hgp]. induction ps as [|p rest IH]; intros converged ham_dist.
  - by eexists.
  - destruct Hgp as [|(gs & Hgs & Lgs)]; [done|].
    apply Forall_cons in Hwf as [((xs & Hxs & Lxs) & _) Hwf].
    cbn [examine_loop].
    rewrite (bind_load _ xs) by done. rewrite (bind_load _ gs) by done.
    rewrite (bind_lift _ _ _ _ (np_compare_same _ xs gs ltac:(congruence))).
    rewrite (bind_load _ xs) by done. rewrite (bind_load _ gs) by done.
    rewrite (bind_lift _ _ _ _ (np_compare_same _ xs gs ltac:(congruence))).
    apply IH; [done|]. destruct rest; [by left|]. right. by exists gs.
Qed.

Section TotalLoop.
Context `{NumpyExp}.

Lemma move_particle_total cost (vmin vmax minv maxv : list Q) params (b : Q)
    (D : nat) con w c1 c2 p gv gp σ :
  params !! "BPSO" = Some b ->
  (truthy b = false -> length vmin = D /\ length vmax = D) ->
  length minv = D -> length maxv = D ->
  wf_particle D (heap σ) p -> arr (heap σ) gp D ->
  exists p' gv' gp' σ',
    move_particle cost (Vec vmin) (Vec vmax) params con w c1 c2
      (Vec minv) (Vec maxv) p gv gp σ = Ok ((p', gv', gp'), σ') /\
    extends σ σ' /\ wf_particle D (heap σ') p' /\ arr (heap σ') gp' D.
Proof.
  intros Hb Hcont Lminv Lmaxv ((xs & Hxs & Lxs) & (vs & Hvs & Lvs) & (pbs & Hpbs & Lpbs))
    (gs & Hgs & Lgs).
  unfold move_particle.
  destruct (update_velocity_total p con w c1 c2 gp minv maxv σ vs pbs xs gs)
    as (p1 & σ1 & vs1 & Hrun1 & _ & Hext1 & Hpos1 & Hpb1 & Hpv1 & Hvs1 & Lvs1);
    try done; try congruence.
  rewrite (bind_Ok _ _ _ _ _ Hrun1).
  rewrite (bind_lift _ b) by (unfold getitem; by rewrite Hb).
  assert (Hxs1 : points_to (heap σ1) (position p1) xs).
  { rewrite Hpos1. by eapply points_to_extends. }
  assert (exists p2 σ2 xs2,
            update_position p1 (Vec vmin) (Vec vmax) b σ1 = Ok (p2, σ2) /\
            extends σ1 σ2 /\ velocity p2 = velocity p1 /\
            pbest_position p2 = pbest_position p1 /\
            pbest_value p2 = pbest_value p1 /\
            points_to (heap σ2) (position p2) xs2 /\ length xs2 = D)
    as (p2 & σ2 & xs2 & Hrun2 & Hext2 & Hvel2 & Hpb2 & Hpv2 & Hxs2 & Lxs2).
  { destruct (truthy b) eqn:Ht.
    - destruct (update_position_binary p1 (Vec vmin) (Vec vmax) b σ1 vs1 Ht Hvs1)
        as (p2 & σ2 & bits & Hrun & Hext & _ & ? & ? & ? & ? & Lb & _).
      exists p2, σ2, bits. do 5 (split; [done|]). split; [done|].
      by rewrite Lb, Lvs1.
    - destruct (Hcont eq_refl) as [Lmin Lmax].
      destruct (update_position_continuous p1 vmin vmax b σ1 xs vs1 Ht Hxs1 Hvs1)
        as (p2 & σ2 & Hrun & Hext & _ & ? & ? & ? & ?); try congruence.
      eexists p2, σ2, _. do 5 (split; [done|]). split; [done|].
      rewrite !length_zip_with. lia. }
  rewrite (bind_Ok _ _ _ _ _ Hrun2).
  rewrite (bind_load _ xs2) by done.
  assert (Hext : extends σ σ2) by by eapply extends_trans.
  assert (Hv2 : arr (heap σ2) (velocity p2) D).
  { exists vs1. rewrite Hvel2. split; [by apply (points_to_extends σ1) | congruence]. }
  assert (Hp2 : arr (heap σ2) (pbest_position p2) D).
  { exists pbs. rewrite Hpb2, Hpb1. split; [by apply (points_to_extends σ) | done]. }
  assert (Hx2 : arr (heap σ2) (position p2) D) by by exists xs2.
  assert (Hg2 : arr (heap σ2) gp D).
  { exists gs. split; [by apply (points_to_extends σ) | done]. }
  destruct (ereal_ltb (Fin (cost (Vec xs2))) (pbest_value p2));
    [destruct (ereal_ltb (Fin (cost (Vec xs2))) gv)|];
    (eexists _, _, _, σ2; split; [reflexivity|]; split; [done|];
     unfold wf_particle; cbn [position velocity pbest_position pbest_value];
     done).
Qed.

Lemma move_loop_total cost (vmin vmax minv maxv : list Q) params (b : Q)
    (D : nat) con w c1 c2 todo :
  params !! "BPSO" = Some b ->
  (truthy b = false -> length vmin = D /\ length vmax = D) ->
  length minv = D -> length maxv = D ->
  forall gv gp σ,
    wf_swarm D (heap σ) todo gp ->
    exists todo' gv' gp' σ',
      move_loop cost (Vec vmin) (Vec vmax) params con w c1 c2
        (Vec minv) (Vec maxv) todo gv gp σ = Ok ((todo', gv', gp'), σ') /\
      extends σ σ' /\ wf_swarm D (heap σ') todo' gp' /\
      length todo' = length todo.
Proof.
  intros Hb Hcont Lminv Lmaxv. induction todo as [|p rest IH]; intros gv gp σ [Hwf Hgp].
  - exists [], gv, gp, σ. split; [done|]. split; [apply extends_refl|].
    split; [|done]. split; [done | by left].
  - destruct Hgp as [|Hgp]; [done|]. apply Forall_cons in Hwf as [Hp Hrest].
    cbn [move_loop].
    destruct (move_particle_total cost vmin vmax minv maxv params b D con w c1 c2
                p gv gp σ) as (p1 & gv1 & gp1 & σ1 & Hrun & Hext & Hwf1 & Hgp1);
      try done.
    rewrite (bind_Ok _ _ _ _ _ Hrun).
    destruct (IH gv1 gp1 σ1) as (rest' & gv' & gp' & σ' & Hrun' & Hext' & [Hwf' Hgp'] & Hlen).
    { split; [|by right]. eapply Forall_impl; [exact Hrest|].
      intros q. by apply wf_particle_extends. }
    rewrite (bind_Ok _ _ _ _ _ Hrun').
    exists (p1 :: rest'), gv', gp', σ'. split; [done|].
    split; [by eapply extends_trans|]. split; [|cbn; by rewrite Hlen].
    split; [constructor; [by eapply wf_particle_extends | done]|].
    right. destruct Hgp' as [->|Hgp']; [|done].
    destruct rest; [|done]. apply ret_Ok_inv in Hrun' as [[= -> ->] ->]. done.
Qed.

Lemma iteration_total cost (vmin vmax minv maxv : list Q) params (b : Q)
    (D : nat) con wdamp c1 c2 it s σ :
  params !! "BPSO" = Some b ->
  (truthy b = false -> length vmin = D /\ length vmax = D) ->
  length minv = D -> length maxv = D ->
  wf_swarm D (heap σ) (particles_vector s) (gbest_position s) ->
  (it + 1 < length (best_costs s))%nat ->
  exists s' σ',
    iteration cost (Vec vmin) (Vec vmax) params con wdamp c1 c2
      (Vec minv) (Vec maxv) it s σ = Ok (s', σ') /\
    extends σ σ' /\
    wf_swarm D (heap σ') (particles_vector s') (gbest_position s').
Proof.
  intros Hb Hcont Lminv Lmaxv Hwf Hit. unfold iteration, examine_particles.
  destruct (examine_loop_total D _ _ σ Hwf 0%nat []) as (r & Hex).
  rewrite (bind_Ok _ _ _ _ _ Hex).
  destruct (move_loop_total cost vmin vmax minv maxv params b D con (w s) c1 c2
              (particles_vector s) Hb Hcont Lminv Lmaxv
              (gbest_value s) (gbest_position s) σ Hwf)
    as (ps & gv & gp & σ' & Hrun & Hext & Hwf' & _).
  rewrite (bind_Ok _ _ _ _ _ Hrun).
  erewrite bind_lift; cycle 1.
  { unfold setitem. apply Nat.ltb_lt in Hit. by rewrite Hit. }
  eexists _, σ'. split; [reflexivity|]. done.
Qed.

End TotalLoop.

Lemma as_int_plus_1 (q : Q) (z : Z) : as_int q = Some z -> as_int (q + 1) = Some (z + 1)%Z.
Proof.
  rewrite !as_int_spec. intros ->. rewrite inject_Z_plus. reflexivity.
Qed.

Lemma PSO_setup_total problem params D n m :
  well_formed problem params D n m ->
  exists c minv maxv,
    PSO_setup problem params = Ok c /\
    cfg_params c = defaulted params /\
    cfg_maxit c = default 30 (params !! "maxit") /\
    cfg_n_part c = default 15 (params !! "n_part") /\
    cfg_min_velocity c = Vec minv /\ cfg_max_velocity c = Vec maxv /\
    length minv = D /\ length maxv = D.
Proof.
  intros (Lmin & Lmax & [con Hcon] & [vls Hvls] & _).
  rewrite PSO_setup_eq. cbv zeta. rewrite Hcon, Hvls.
  unfold np_sub. rewrite broadcast_same by congruence.
  cbn [np_mul broadcast np_neg].
  eexists _, _, _. split; [reflexivity|]. cbn.
  do 5 (split; [done|]).
  rewrite !length_map, length_zip_with. split; lia.
Qed.

Section TotalStart.
Context `{NumpyExp}.

Lemma PSO_start_total problem params D n m σ :
  well_formed problem params D n m ->
  exists c s σ' minv maxv,
    PSO_start problem params σ = Ok ((c, s), σ') /\
    extends σ σ' /\
    cfg_params c = defaulted params /\
    py_range (cfg_maxit c) = Ok (Z.to_nat m) /\
    cfg_min_velocity c = Vec minv /\ cfg_max_velocity c = Vec maxv /\
    length minv = D /\ length maxv = D /\
    wf_swarm D (heap σ') (particles_vector s) (gbest_position s) /\
    length (particles_vector s) = Z.to_nat n /\
    best_costs s = <[0%nat := gbest_value s]> (replicate (S (Z.to_nat m)) (Fin 0)) /\
    ((gbest_value s = PInf /\ Z.to_nat n = 0%nat) \/
     exists j xs,
       (j < Z.to_nat n)%nat /\
       points_to (heap σ') (gbest_position s) xs /\ length xs = D /\
       gbest_value s = Fin (cost_function problem (Vec xs)) /\
       (truthy (default 0 (params !! "BPSO")) = true ->
        xs = unit_draws σ (next σ + 2 * D * j) D)).
Proof.
  intros Hwf.
  destruct (PSO_setup_total _ _ _ _ _ Hwf)
    as (c & minv & maxv & Hc & Hpar & Hmaxit & Hnpart & Hminv & Hmaxv & Lminv & Lmaxv).
  destruct Hwf as (Lmin & Lmax & _ & _ & Hn & Hm & Hm0).
  unfold PSO_start. rewrite (bind_lift _ _ _ _ Hc).
  rewrite (bind_lift _ (Z.to_nat n)) by (unfold py_range; by rewrite Hnpart, Hn).
  unfold bind at 1. unfold alloc at 1.
  set (σ1 := World (heap σ ++ [[]]) (draws σ) (next σ)).
  assert (Hext1 : extends σ σ1).
  { repeat split; cbn; [by apply prefix_app_r | lia]. }
  destruct (init_loop_total (cost_function problem) (varmin problem) (varmax problem)
              (cfg_params c) (default 0 (params !! "BPSO")) D
              (replicate (Z.to_nat n) Particle_init)
              ltac:(by rewrite Hpar, defaulted_BPSO) Lmin Lmax
              PInf (PyArr (length (heap σ))) σ1)
    as (ps & gv & gp & σ2 & Hinit & Hext2 & _ & Hps & Lps & Hbest).
  rewrite (bind_Ok _ _ _ _ _ Hinit).
  rewrite (bind_lift _ (replicate (Z.to_nat (m + 1)) (Fin 0))); cycle 1.
  { unfold np_zeros. rewrite Hmaxit, (as_int_plus_1 _ _ Hm).
    by destruct (Z.ltb_spec (m + 1) 0); [lia|]. }
  replace (Z.to_nat (m + 1)) with (S (Z.to_nat m)) by lia.
  rewrite (bind_lift _ (<[0%nat := gv]> (replicate (S (Z.to_nat m)) (Fin 0)))) by done.
  rewrite length_replicate in Lps.
  exists c, {| particles_vector := ps; gbest_value := gv; gbest_position := gp;
               best_costs := <[0%nat := gv]> (replicate (S (Z.to_nat m)) (Fin 0));
               w := cfg_w c |}, σ2, minv, maxv.
  split; [done|]. split; [by eapply extends_trans|]. split; [done|].
  split; [unfold py_range; by rewrite Hmaxit, Hm|].
  do 4 (split; [done|]). cbn [particles_vector gbest_value gbest_position best_costs].
  assert (Hgp : ps = [] \/ arr (heap σ2) gp D).
  { destruct Hbest as [(_ & _ & [Hnil|]) | (j & xs & _ & Hxs & Lxs & _)]; [|done|].
    - left. destruct (Z.to_nat n); [by destruct ps | discriminate Hnil].
    - right. by exists xs. }
  split; [done|]. split; [done|]. split; [done|].
  destruct Hbest as [(-> & _ & [Hnil|]) | (j & xs & Hj & Hxs & Lxs & -> & Hunit)]; [|done|].
  - left. split; [done|]. destruct (Z.to_nat n); [done | discriminate Hnil].
  - right. exists j, xs. rewrite length_replicate in Hj. by repeat split.
Qed.

End TotalStart.

(** ** Early stopping *)

Lemma early_stop_true params it bc es esr a b :
  params !! "early_stopping" = Some es -> truthy es = true ->
  params !! "early_stopping_rounds" = Some esr ->
  esr < inject_Z (Z.of_nat it) ->
  index bc (inject_Z (Z.of_nat it) + 1) = Ok a ->
  index bc (inject_Z (Z.of_nat it) + 1 - esr) = Ok b ->
  abs_diff_ltb a b (1 # 10000) = true ->
  early_stop params it bc = Ok true.
Proof.
  intros Hes Ht Hesr Hlt Ha Hb Hd. unfold early_stop, getitem.
  rewrite Hes, Ht, Hesr. apply Qlt_bool_iff in Hlt. by rewrite Hlt, Ha, Hb, Hd.
Qed.

Lemma early_stop_not_yet params it bc es esr :
  params !! "early_stopping" = Some es ->
  params !! "early_stopping_rounds" = Some esr ->
  inject_Z (Z.of_nat it) <= esr ->
  early_stop params it bc = Ok false.
Proof.
  intros Hes Hesr Hle. unfold early_stop, getitem. rewrite Hes, Hesr.
  destruct (truthy es); [|done].
  destruct (Qlt_bool esr (inject_Z (Z.of_nat it))) eqn:E; [|done].
  apply Qlt_bool_iff in E. by apply Qlt_not_le in E.
Qed.

Lemma index_nat (bc : list ereal) (i : nat) (q : Q) v :
  q == inject_Z (Z.of_nat i) -> bc !! i = Some v -> index bc q = Ok v.
Proof.
  intros Hq Hv. unfold index. apply as_int_spec in Hq. rewrite Hq. cbv zeta.
  destruct (Z.ltb_spec (Z.of_nat i) 0) as [Hneg|_]; [lia|].
  destruct (Z.ltb_spec (Z.of_nat i) 0) as [Hneg|_]; [lia|].
  by rewrite Nat2Z.id, Hv.
Qed.

Lemma abs_diff_ltb_same (c : Q) : abs_diff_ltb (Fin c) (Fin c) (1 # 10000) = true.
Proof.
  unfold abs_diff_ltb. apply Qlt_bool_iff.
  assert (Hz : c - c == 0) by ring. rewrite Hz. reflexivity.
Qed.

Lemma PSO_setup_fields problem params c :
  PSO_setup problem params = Ok c ->
  cfg_params c = defaulted params /\
  cfg_maxit c = default 30 (params !! "maxit").
Proof.
  rewrite PSO_setup_eq. cbv zeta.
  destruct (defaulted params !! "con"); [|done].
  destruct (defaulted params !! "velocity_limit_scale"); [|done].
  destruct (np_sub _ _); [|done]. destruct (np_mul _ _); [|done].
  by intros [= <-].
Qed.

Section EarlyStopping.
Context `{NumpyExp}.

Lemma move_loop_const cost (c : Q) vmin vmax params con w c1 c2 minv maxv todo :
  (forall x, cost x = c) ->
  forall gp σ todo' gv' gp' σ',
    move_loop cost vmin vmax params con w c1 c2 minv maxv todo (Fin c) gp σ
    = Ok ((todo', gv', gp'), σ') ->
    gv' = Fin c /\ gp' = gp.
Proof.
  intros Hc. induction todo as [|p rest IH]; intros gp σ todo' gv' gp' σ' Hrun.
  - by apply ret_Ok_inv in Hrun as [[= _ -> ->] _].
  - cbn [move_loop] in Hrun.
    apply bind_Ok_inv in Hrun as ([[p1 gv1] gp1] & σ1 & Hp & Hrun).
    apply bind_Ok_inv in Hrun as ([[rest1 gv2] gp2] & σ2 & Hrest & Hrun).
    apply ret_Ok_inv in Hrun as [[= _ -> ->] _].
    apply move_particle_observes in Hp as (x & _ & Hgv & Hgp & _).
    unfold observe_gbest in Hgv, Hgp. rewrite Hc in Hgv, Hgp.
    rewrite ereal_ltb_irrefl, andb_false_r in Hgv, Hgp. cbn in Hgv, Hgp. subst.
    by eapply IH.
Qed.

Lemma iteration_const cost (c : Q) vmin vmax params con wdamp c1 c2 minv maxv
    it s σ s' σ' :
  (forall x, cost x = c) ->
  gbest_value s = Fin c ->
  iteration cost vmin vmax params con wdamp c1 c2 minv maxv it s σ = Ok (s', σ') ->
  gbest_value s' = Fin c /\ gbest_position s' = gbest_position s /\
  best_costs s' = <[(it + 1)%nat := Fin c]> (best_costs s).
Proof.
  intros Hc Hgv Hrun. unfold iteration in Hrun.
  apply bind_Ok_inv in Hrun as (? & σ1 & _ & Hrun).
  apply bind_Ok_inv in Hrun as ([[ps gv] gp] & σ2 & Hmove & Hrun).
  apply bind_Ok_inv in Hrun as (bc & σ3 & [Hset ->]%lift_Ok_inv & Hrun).
  apply ret_Ok_inv in Hrun as [-> _]. rewrite Hgv in Hmove.
  apply (move_loop_const _ c) in Hmove as [-> ->]; [|done].
  unfold setitem in Hset. destruct (_ <? _)%nat; [|done]. injection Hset as <-.
  done.
Qed.

(** With a constant cost, early stopping on and a window of 5 rounds, the
    main loop entered at a round [it <= 6] with more than [6 - it] rounds to
    go leaves by the early [return] of round 6. *)
Lemma main_loop_const_stops cost (c : Q) (vmin vmax minv maxv : list Q) params
    (b es : Q) (D : nat) con wdamp c1 c2 rounds :
  (forall x, cost x = c) ->
  params !! "BPSO" = Some b ->
  (truthy b = false -> length vmin = D /\ length vmax = D) ->
  length minv = D -> length maxv = D ->
  params !! "early_stopping" = Some es -> truthy es = true ->
  params !! "early_stopping_rounds" = Some 5 ->
  forall it s σ,
    (it <= 6)%nat -> (6 < it + rounds)%nat ->
    (it + rounds < length (best_costs s))%nat ->
    wf_swarm D (heap σ) (particles_vector s) (gbest_position s) ->
    gbest_value s = Fin c ->
    (forall k, (k <= it)%nat -> best_costs s !! k = Some (Fin c)) ->
    exists s' σ',
      main_loop cost (Vec vmin) (Vec vmax) params con wdamp c1 c2
        (Vec minv) (Vec maxv) rounds it s σ = Ok ((EarlyStop 6, s'), σ') /\
      gbest_value s' = Fin c /\
      length (best_costs s') = length (best_costs s) /\
      (forall k, (k <= 7)%nat -> best_costs s' !! k = Some (Fin c)) /\
      (forall k, (it < k)%nat -> (7 < k)%nat -> best_costs s' !! k = best_costs s !! k).
Proof.
  intros Hc Hb Hcont Lminv Lmaxv Hes Ht Hesr.
  induction rounds as [|rounds IH]; intros it s σ Hit Hr Hlen Hwf Hgv Hpre; [lia|].
  cbn [main_loop].
  destruct (iteration_total cost vmin vmax minv maxv params b D con wdamp c1 c2
              it s σ Hb Hcont Lminv Lmaxv Hwf ltac:(lia))
    as (s1 & σ1 & Hrun & _ & Hwf1).
  rewrite (bind_Ok _ _ _ _ _ Hrun).
  destruct (iteration_const _ c _ _ _ _ _ _ _ _ _ _ _ _ _ _ Hc Hgv Hrun)
    as (Hgv1 & _ & Hbc1).
  assert (Hpre1 : forall k, (k <= S it)%nat -> best_costs s1 !! k = Some (Fin c)).
  { intros k Hk. rewrite Hbc1. destruct (decide (k = it + 1)%nat) as [->|Hne].
    - apply list_lookup_insert_eq. lia.
    - rewrite list_lookup_insert_ne by lia. apply Hpre. lia. }
  destruct (decide (it = 6%nat)) as [->|Hne].
  - rewrite (bind_lift _ true); cycle 1.
    { apply (early_stop_true _ _ _ es 5 (Fin c) (Fin c)); try done.
      - apply (index_nat _ 7); [reflexivity | by apply Hpre1].
      - apply (index_nat _ 2); [reflexivity | apply Hpre1; lia].
      - apply abs_diff_ltb_same. }
    exists s1, σ1. split; [done|]. split; [done|].
    split; [by rewrite Hbc1, length_insert|]. split; [done|].
    intros k Hk1 Hk2. rewrite Hbc1. by rewrite list_lookup_insert_ne by lia.
  - rewrite (bind_lift _ false); cycle 1.
    { apply (early_stop_not_yet _ _ _ es 5); try done.
      change 5 with (inject_Z 5). rewrite <- Zle_Qle. lia. }
    destruct (IH (S it) s1 σ1) as (s' & σ' & Hrun' & Hgv' & Hlen' & Hpre' & Hrest');
      try done; try lia.
    { rewrite Hbc1, length_insert. lia. }
    exists s', σ'. split; [done|]. split; [done|].
    split; [by rewrite Hlen', Hbc1, length_insert|]. split; [done|].
    intros k Hk1 Hk2. rewrite Hrest' by lia. rewrite Hbc1.
    by rewrite list_lookup_insert_ne by lia.
Qed.

End EarlyStopping.

Section EarlyStoppingRuns.
Context `{NumpyExp}.

(** C7: (1) when round [it] of the main loop has run and the early-stopping
    test holds (early stopping on, [it > early_stopping_rounds] and
    [|best_costs[it+1] - best_costs[it+1-early_stopping_rounds]| < 1e-4]),
    the loop returns at once with the state that round left.  (2) A run
    that stops early in round [it] returns the triple of that state; its
    [best_costs] has [maxit + 1] entries, those after index [it + 1] still
    zero.  (3) With a constant cost, early stopping on, a window of 5
    rounds, at least one particle and at least 7 rounds, a well-formed run
    returns by the early stop of round 6, with the constant in entries 0 to
    7 of [best_costs] and zero in all later ones. *)
Theorem early_stopping_returns problem params σ :
  (forall c rounds it s σ1 s1 σ2 es esr a b,
     PSO_iteration problem c it s σ1 = Ok (s1, σ2) ->
     cfg_params c !! "early_stopping" = Some es -> truthy es = true ->
     cfg_params c !! "early_stopping_rounds" = Some esr ->
     esr < inject_Z (Z.of_nat it) ->
     index (best_costs s1) (inject_Z (Z.of_nat it) + 1) = Ok a ->
     index (best_costs s1) (inject_Z (Z.of_nat it) + 1 - esr) = Ok b ->
     abs_diff_ltb a b (1 # 10000) = true ->
     PSO_loop problem c (S rounds) it s σ1 = Ok ((EarlyStop it, s1), σ2)) /\
  (forall it s σ',
     PSO_run problem params σ = Ok ((EarlyStop it, s), σ') ->
     PSO problem params σ
     = Ok ((gbest_value s, gbest_position s, best_costs s), σ') /\
     early_stop (defaulted params) it (best_costs s) = Ok true /\
     exists maxit,
       py_range (default 30 (params !! "maxit")) = Ok maxit /\
       (it < maxit)%nat /\
       length (best_costs s) = S maxit /\
       forall k, (S it < k < S maxit)%nat -> best_costs s !! k = Some (Fin 0)) /\
  (forall D n m c es,
     well_formed problem params D n m -> (1 <= n)%Z -> (7 <= m)%Z ->
     (forall x, cost_function problem x = c) ->
     params !! "early_stopping" = Some es -> truthy es = true ->
     params !! "early_stopping_rounds" = Some 5 ->
     exists s σ',
       PSO_run problem params σ = Ok ((EarlyStop 6, s), σ') /\
       PSO problem params σ = Ok ((Fin c, gbest_position s, best_costs s), σ') /\
       length (best_costs s) = S (Z.to_nat m) /\
       (forall k, (k <= 7)%nat -> best_costs s !! k = Some (Fin c)) /\
       (forall k, (7 < k < S (Z.to_nat m))%nat -> best_costs s !! k = Some (Fin 0))).
Proof.
  split; [|split].
  - intros c rounds it s σ1 s1 σ2 es esr a b Hit Hes Ht Hesr Hlt Ha Hb Hd.
    unfold PSO_loop. cbn [main_loop]. unfold PSO_iteration in Hit.
    rewrite (bind_Ok _ _ _ _ _ Hit).
    by rewrite (bind_lift _ true) by by eapply early_stop_true.
  - intros it s σ' Hrun. split.
    { unfold PSO. by rewrite (bind_Ok _ _ _ _ _ Hrun). }
    apply PSO_run_inv in Hrun as (c & s0 & σ0 & rounds & Hstart & Hrounds & Hloop).
    pose proof (PSO_start_rounds _ _ _ _ _ _ _ Hstart Hrounds) as Hlen0.
    pose proof (PSO_start_trace _ _ _ _ _ _ Hstart) as Htr0.
    apply PSO_start_inv in Hstart as (Hc & Hmin0 & _).
    apply PSO_setup_fields in Hc as [Hpar Hmaxit].
    unfold PSO_loop in Hloop.
    apply main_loop_inv in Hloop as (_ & (_ & _ & Hzero) & Hlen & Hstop);
      [|assumption..].
    destruct (Hstop it eq_refl) as [Hlt Hes]. rewrite Hpar in Hes. split; [done|].
    exists rounds. rewrite <- Hmaxit. split; [done|]. split; [lia|].
    split; [congruence|]. intros k Hk. apply Hzero. cbn. lia.
  - intros D n m c es Hwf Hn Hm Hconst Hes Ht Hesr.
    destruct (PSO_start_total problem params D n m σ Hwf)
      as (cf & s0 & σ0 & minv & maxv & Hstart & _ & Hpar & Hrounds & Hminv & Hmaxv
          & Lminv & Lmaxv & Hwfs & _ & Hbc0 & Hbest).
    assert (Hgv0 : gbest_value s0 = Fin c).
    { destruct Hbest as [[_ Hz]|(j & xs & _ & _ & _ & -> & _)]; [lia|].
      by rewrite Hconst. }
    destruct Hwf as (Lmin & Lmax & _).
    destruct (main_loop_const_stops (cost_function problem) c
                (varmin problem) (varmax problem) minv maxv (defaulted params)
                (default 0 (params !! "BPSO")) es D (cfg_con cf) (cfg_wdamp cf)
                (cfg_c1 cf) (cfg_c2 cf) (Z.to_nat m) Hconst
                (defaulted_BPSO params) ltac:(done) Lminv Lmaxv
                ltac:(by rewrite defaulted_early_stopping, Hes) Ht
                ltac:(by rewrite defaulted_early_stopping_rounds, Hesr)
                0%nat s0 σ0)
      as (s & σ' & Hloop & Hgv & Hlen & Hpre & Hrest); try done; try lia.
    { rewrite Hbc0, length_insert, length_replicate. lia. }
    { intros k Hk. replace k with 0%nat by lia. rewrite Hbc0, Hgv0.
      apply list_lookup_insert_eq. rewrite length_replicate. lia. }
    assert (Hrun : PSO_run problem params σ = Ok ((EarlyStop 6, s), σ')).
    { unfold PSO_run. rewrite (bind_Ok _ _ _ _ _ Hstart). cbn [fst snd].
      rewrite (bind_lift _ _ _ _ Hrounds). unfold PSO_loop.
      by rewrite Hpar, Hminv, Hmaxv. }
    exists s, σ'. split; [done|]. split.
    { unfold PSO. rewrite (bind_Ok _ _ _ _ _ Hrun). cbn [snd]. by rewrite Hgv. }
    split. { by rewrite Hlen, Hbc0, length_insert, length_replicate. }
    split; [done|]. intros k Hk. rewrite Hrest by lia. rewrite Hbc0.
    rewrite list_lookup_insert_ne by lia. apply lookup_replicate_2. lia.
Qed.

End EarlyStoppingRuns.

(** ** Rows of raw draws *)

Lemma unit_draws_lookup σ start n i x :
  unit_draws σ start n !! i = Some x -> x == draws σ (start + i).
Proof.
  unfold unit_draws. rewrite !list_lookup_fmap.
  destruct (seq start n !! i) as [k|] eqn:Hk; [|done].
  apply lookup_seq in Hk as [-> _]. cbn. intros [= <-]. ring.
Qed.

Lemma truthy_one (b : Q) : b == 1 -> truthy b = true.
Proof.
  intros Hb. unfold truthy. apply negb_true_iff, not_true_iff_false.
  rewrite Qeq_bool_iff, Hb. done.
Qed.

(** ** Broadcasting fails *)

Lemma broadcast_mismatch f xs ys :
  length xs <> length ys -> length xs <> 1%nat -> length ys <> 1%nat ->
  broadcast f (Vec xs) (Vec ys) = Raise ValueError.
Proof.
  intros Hne Hx Hy. cbn. apply Nat.eqb_neq in Hne. rewrite Hne.
  destruct xs as [|x [|x' xs]], ys as [|y [|y' ys]]; done.
Qed.

(** ** The recorded global best position *)

Lemma grows_preserves {A} (m : M A) l : grows m -> preserves l m.
Proof. intros Hm σ xs a σ' Hl Hrun. eapply extends_lookup; [by eapply Hm | done]. Qed.

Section Recorded.
Context `{NumpyExp}.

(** C9 (as amended): when the cost at the new position of a particle
    replaces the global best, [gbest_position] is the very array object that
    the particle has as [pbest_position] and as [position], not a copy; and
    neither [update_velocity] nor [update_position] nor the rest of the
    main loop writes into the array at that location, whatever particle and
    arguments they are run on: they bind the fields to new arrays, so the
    value of the recorded global best position stays as it was. *)
Theorem gbest_position_shared_but_stable problem c w p gv gp σ p' gv' gp' σ' :
  move_particle (cost_function problem) (Vec (varmin problem)) (Vec (varmax problem))
    (cfg_params c) (cfg_con c) w (cfg_c1 c) (cfg_c2 c)
    (cfg_min_velocity c) (cfg_max_velocity c) p gv gp σ
  = Ok ((p', gv', gp'), σ') ->
  gv' <> gv ->
  gp' = pbest_position p' /\ gp' = position p' /\
  ereal_ltb gv' gv = true /\
  forall l, gp' = PyArr l ->
    (forall self con w c1 c2 g minv maxv,
        preserves l (update_velocity self con w c1 c2 g minv maxv)) /\
    (forall self vmin vmax b, preserves l (update_position self vmin vmax b)) /\
    (forall rounds k s, preserves l (PSO_loop problem c rounds k s)).
Proof.
  intros Hrun Hne.
  apply move_particle_observes in Hrun as (x & Hpb & Hgv & Hgp & Hpos).
  destruct (fst (observe_gbest (cost_function problem x) (pbest_value p) gv)) eqn:E.
  - destruct (observe_gbest_improves _ _ _ E) as (Hsnd & Hlt & _).
    rewrite Hsnd in Hgv. subst gv' gp'.
    split; [done|]. split; [by apply Hpos|]. split; [done|].
    intros l _. split; [|split]; intros; apply grows_preserves.
    + apply grows_update_velocity.
    + apply grows_update_position.
    + unfold PSO_loop. apply grows_main_loop.
  - exfalso. apply Hne. rewrite Hgv. unfold observe_gbest in *.
    by destruct (_ && _).
Qed.

End Recorded.

(** ** More on configuration defaulting *)

Lemma setdefault_keeps (k k' : string) (v v' : Q) (d : gmap string Q) :
  d !! k = Some v -> setdefault k' v' d !! k = Some v.
Proof.
  intros Hk. destruct (decide (k' = k)) as [->|Hne].
  - by rewrite setdefault_lookup_eq, Hk.
  - by rewrite setdefault_lookup_ne.
Qed.

Lemma setdefault_present (k : string) (v : Q) (d : gmap string Q) :
  is_Some (d !! k) -> setdefault k v d = d.
Proof. intros [x Hx]. unfold setdefault. by rewrite Hx. Qed.

Lemma default_con_keeps (k : string) (v : Q) (d : gmap string Q) :
  d !! k = Some v -> default_con d !! k = Some v.
Proof.
  intros Hk. destruct (decide (k = "con")) as [->|Hne].
  - unfold default_con. by rewrite Hk.
  - by rewrite default_con_lookup_ne.
Qed.

(** X1: whatever the caller supplies under any key is still there after
    defaulting, except [velocity_limit_scale] when [BPSO] is 1. *)
Theorem default_PSO_params_keeps_supplied (params : gmap string Q) (k : string) (v : Q) :
  params !! k = Some v ->
  (k = "velocity_limit_scale" -> ~ default 0 (params !! "BPSO") == 1) ->
  exists params',
    default_PSO_params params = Ok params' /\ params' !! k = Some v.
Proof.
  intros Hk Hvls. exists (defaulted params). split; [apply default_PSO_params_Ok|].
  destruct (decide (k = "velocity_limit_scale")) as [->|Hne].
  - rewrite defaulted_velocity_limit_scale, Hk. cbv zeta.
    rewrite bool_decide_eq_false_2 by done. rewrite andb_false_l.
    destruct (Qeq_bool (default 0 (params !! "BPSO")) 1) eqn:E; [|done].
    apply Qeq_bool_iff in E. by destruct Hvls.
  - unfold defaulted. rewrite default_velocity_limit_scale_lookup_ne by done.
    unfold defaults_after_con, defaults_before_con.
    do 4 apply setdefault_keeps. apply default_con_keeps.
    by do 6 apply setdefault_keeps.
Qed.

(** X2: the table of defaults.  After defaulting, each of the ten keys
    below holds the supplied value if there is one and the stated default
    otherwise. *)
Theorem default_PSO_params_table (params : gmap string Q) :
  exists params',
    default_PSO_params params = Ok params' /\
    params' !! "maxit" = Some (default 30 (params !! "maxit")) /\
    params' !! "n_part" = Some (default 15 (params !! "n_part")) /\
    params' !! "w" = Some (default 1 (params !! "w")) /\
    params' !! "wdamp" = Some (default 1 (params !! "wdamp")) /\
    params' !! "c1" = Some (default (205 # 100) (params !! "c1")) /\
    params' !! "c2" = Some (default (205 # 100) (params !! "c2")) /\
    params' !! "display_info" = Some (default 1 (params !! "display_info")) /\
    params' !! "early_stopping" = Some (default 0 (params !! "early_stopping")) /\
    params' !! "early_stopping_rounds"
    = Some (default 10 (params !! "early_stopping_rounds")) /\
    params' !! "BPSO" = Some (default 0 (params !! "BPSO")) /\
    (params !! "velocity_limit_scale" = None ->
     default 0 (params !! "BPSO") == 0 ->
     params' !! "velocity_limit_scale" = Some (2 # 10)).
Proof.
  exists (defaulted params). split; [apply default_PSO_params_Ok|].
  rewrite defaulted_maxit, defaulted_n_part, defaulted_w, defaulted_wdamp,
    defaulted_c1, defaulted_c2, defaulted_display_info, defaulted_early_stopping,
    defaulted_early_stopping_rounds, defaulted_BPSO.
  do 10 (split; [reflexivity|]). intros Hv Hb.
  rewrite defaulted_velocity_limit_scale, Hv. cbv zeta.
  rewrite bool_decide_eq_true_2 by done. apply Qeq_bool_iff in Hb. by rewrite Hb.
Qed.

(** X3: defaulting a dictionary that has been defaulted changes nothing. *)
Theorem default_PSO_params_idempotent (params params' : gmap string Q) :
  default_PSO_params params = Ok params' ->
  default_PSO_params params' = Ok params'.
Proof.
  rewrite default_PSO_params_Ok. intros [= <-]. rewrite default_PSO_params_Ok.
  f_equal. set (dp := defaulted params).
  assert (H1 : defaults_before_con dp = dp).
  { unfold defaults_before_con.
    rewrite (setdefault_present "maxit") by (unfold dp; by rewrite defaulted_maxit).
    rewrite (setdefault_present "n_part") by (unfold dp; by rewrite defaulted_n_part).
    rewrite (setdefault_present "w") by (unfold dp; by rewrite defaulted_w).
    rewrite (setdefault_present "wdamp") by (unfold dp; by rewrite defaulted_wdamp).
    rewrite (setdefault_present "c1") by (unfold dp; by rewrite defaulted_c1).
    by rewrite (setdefault_present "c2") by (unfold dp; by rewrite defaulted_c2). }
  assert (H2 : default_con dp = dp).
  { unfold default_con.
    rewrite (defaulted_con params : dp !! "con" = _).
    rewrite (defaulted_wdamp params : dp !! "wdamp" = _).
    rewrite (defaulted_w params : dp !! "w" = _).
    cbn [default from_option id].
    destruct (params !! "con"); [done|].
    destruct (Qeq_bool (from_option id 1 (params !! "wdamp")) 1); [done|].
    by destruct (Qeq_bool (from_option id 1 (params !! "w")) 1). }
  assert (H3 : defaults_after_con dp = dp).
  { unfold defaults_after_con.
    rewrite (setdefault_present "display_info")
      by (unfold dp; by rewrite defaulted_display_info).
    rewrite (setdefault_present "early_stopping")
      by (unfold dp; by rewrite defaulted_early_stopping).
    rewrite (setdefault_present "early_stopping_rounds")
      by (unfold dp; by rewrite defaulted_early_stopping_rounds).
    by rewrite (setdefault_present "BPSO") by (unfold dp; by rewrite defaulted_BPSO). }
  unfold defaulted at 1. fold dp. rewrite H1, H2, H3.
  unfold default_velocity_limit_scale.
  rewrite (defaulted_BPSO params : dp !! "BPSO" = _).
  rewrite (defaulted_velocity_limit_scale params : dp !! "velocity_limit_scale" = _).
  cbv zeta. cbn [default from_option id].
  set (b := from_option id 0 (params !! "BPSO")).
  destruct (bool_decide (params !! "velocity_limit_scale" = None) && Qeq_bool b 0)
    eqn:E1.
  - rewrite bool_decide_eq_false_2 by done. rewrite andb_false_l.
    apply andb_true_iff in E1 as [_ Hb0]. apply Qeq_bool_iff in Hb0.
    destruct (Qeq_bool b 1) eqn:Hb1; [|done].
    apply Qeq_bool_iff in Hb1. rewrite Hb0 in Hb1. discriminate Hb1.
  - destruct (Qeq_bool b 1) eqn:Hb1.
    + rewrite bool_decide_eq_false_2 by done. rewrite andb_false_l.
      apply insert_id. unfold dp. rewrite defaulted_velocity_limit_scale. cbv zeta.
      cbn [default from_option id]. fold b. by rewrite E1, Hb1.
    + by rewrite E1.
Qed.

(** ** The bests are costs of the positions recorded with them *)

Lemma load_inv o σ a σ' : load o σ = Ok (a, σ') -> σ' = σ /\ denotes (heap σ) o a.
Proof.
  unfold load. destruct o as [q|l]; cbn.
  - by intros [= <- <-].
  - destruct (heap σ !! l) as [xs|] eqn:Hl; [|done]. intros [= <- <-]. eauto.
Qed.

Lemma denotes_extends σ σ' o a :
  extends σ σ' -> denotes (heap σ) o a -> denotes (heap σ') o a.
Proof.
  intros Hext. destruct o as [q|l]; cbn; [done|].
  intros (xs & Hl & ->). exists xs. split; [by eapply extends_lookup | done].
Qed.

Lemma cost_at_extends cost σ σ' v o :
  extends σ σ' -> cost_at cost (heap σ) v o -> cost_at cost (heap σ') v o.
Proof.
  intros Hext [->|(a & Ha & ->)]; [by left|]. right. exists a.
  split; [by eapply denotes_extends | done].
Qed.

Lemma pbests_consistent_extends cost σ σ' ps :
  extends σ σ' -> pbests_consistent cost (heap σ) ps ->
  pbests_consistent cost (heap σ') ps.
Proof.
  intros Hext Hps. eapply Forall_impl; [exact Hps|].
  intros p. by apply cost_at_extends.
Qed.

Section Consistent.
Context `{NumpyExp}.

Lemma move_particle_inv cost vmin vmax params con w c1 c2 minv maxv p gv gp σ
    p' gv' gp' σ' :
  move_particle cost vmin vmax params con w c1 c2 minv maxv p gv gp σ
  = Ok ((p', gv', gp'), σ') ->
  extends σ σ' /\
  exists x,
    denotes (heap σ') (position p') x /\
    pbest_value p' = observe_pbest (cost x) (pbest_value p) /\
    gv' = snd (observe_gbest (cost x) (pbest_value p) gv) /\
    gp' = (if fst (observe_gbest (cost x) (pbest_value p) gv)
           then position p' else gp) /\
    pbest_position p' = (if ereal_ltb (Fin (cost x)) (pbest_value p)
                         then position p' else pbest_position p).
Proof.
  intros Hrun. split; [by eapply grows_move_particle|].
  unfold move_particle in Hrun.
  apply bind_Ok_inv in Hrun as (p1 & σ1 & Hv & Hrun).
  apply update_velocity_keeps in Hv as (_ & Hpb1 & Hpv1).
  apply bind_Ok_inv in Hrun as (b & σ2 & [_ ->]%lift_Ok_inv & Hrun).
  apply bind_Ok_inv in Hrun as (p2 & σ3 & Hx & Hrun).
  apply update_position_keeps in Hx as (_ & Hpb2 & Hpv2).
  apply bind_Ok_inv in Hrun as (x & σ4 & [-> Hden]%load_inv & Hrun).
  exists x. unfold observe_gbest, observe_pbest. rewrite Hpv2, Hpv1 in Hrun.
  destruct (ereal_ltb (Fin (cost x)) (pbest_value p)) eqn:E1; cbn [andb].
  - destruct (ereal_ltb (Fin (cost x)) gv) eqn:E2;
      apply ret_Ok_inv in Hrun as [[= -> -> ->] ->];
      cbn [fst snd position pbest_position pbest_value]; done.
  - apply ret_Ok_inv in Hrun as [[= -> -> ->] ->].
    cbn [fst snd]. rewrite Hpv2, Hpv1, Hpb2, Hpb1. done.
Qed.

Lemma init_particle_inv cost vmin vmax params p gv gp σ p' gv' gp' σ' :
  init_particle cost vmin vmax params p gv gp σ = Ok ((p', gv', gp'), σ') ->
  extends σ σ' /\
  exists x,
    denotes (heap σ') (position p') x /\
    pbest_value p' = Fin (cost x) /\
    pbest_position p' = position p' /\
    gv' = (if ereal_ltb (Fin (cost x)) gv then Fin (cost x) else gv) /\
    gp' = (if ereal_ltb (Fin (cost x)) gv then position p' else gp).
Proof.
  intros Hrun. split; [by eapply grows_init_particle|].
  unfold init_particle in Hrun.
  apply bind_Ok_inv in Hrun as (b & σ1 & [_ ->]%lift_Ok_inv & Hrun).
  apply bind_Ok_inv in Hrun as (p1 & σ2 & _ & Hrun).
  cbn [position velocity pbest_position pbest_value] in Hrun.
  apply bind_Ok_inv in Hrun as (x & σ3 & [-> Hden]%load_inv & Hrun).
  cbn [position velocity pbest_position pbest_value] in Hrun.
  exists x.
  destruct (ereal_ltb (Fin (cost x)) gv) eqn:E;
    apply ret_Ok_inv in Hrun as [[= -> -> ->] ->];
    cbn [position pbest_position pbest_value]; done.
Qed.

Lemma move_loop_consistent cost vmin vmax params con w c1 c2 minv maxv todo :
  forall gv gp σ todo' gv' gp' σ',
    move_loop cost vmin vmax params con w c1 c2 minv maxv todo gv gp σ
    = Ok ((todo', gv', gp'), σ') ->
    cost_at cost (heap σ) gv gp ->
    pbests_consistent cost (heap σ) todo ->
    cost_at cost (heap σ') gv' gp' /\ pbests_consistent cost (heap σ') todo'.
Proof.
  induction todo as [|p rest IH]; intros gv gp σ todo' gv' gp' σ' Hrun Hg Hps.
  - by apply ret_Ok_inv in Hrun as [[= -> -> ->] ->].
  - cbn [move_loop] in Hrun. apply Forall_cons in Hps as [Hp Hrest].
    apply bind_Ok_inv in Hrun as ([[p1 gv1] gp1] & σ1 & Hstep & Hrun).
    apply bind_Ok_inv in Hrun as ([[rest1 gv2] gp2] & σ2 & Hloop & Hrun).
    apply ret_Ok_inv in Hrun as [[= -> -> ->] ->].
    pose proof (grows_move_loop _ _ _ _ _ _ _ _ _ _ _ _ _ _ _ _ Hloop) as Hext2.
    cbn beta in Hext2.
    apply move_particle_inv in Hstep as (Hext1 & x & Hx & Hpv & Hgv & Hgp & Hpb).
    assert (Hg1 : cost_at cost (heap σ1) gv1 gp1).
    { rewrite Hgv, Hgp. unfold observe_gbest.
      destruct (ereal_ltb (Fin (cost x)) (pbest_value p) && ereal_ltb (Fin (cost x)) gv);
        cbn [fst snd]; [right; by exists x | by apply (cost_at_extends _ σ)]. }
    assert (Hp1 : cost_at cost (heap σ1) (pbest_value p1) (pbest_position p1)).
    { rewrite Hpv, Hpb. unfold observe_pbest.
      destruct (ereal_ltb (Fin (cost x)) (pbest_value p));
        [right; by exists x | by apply (cost_at_extends _ σ)]. }
    destruct (IH _ _ _ _ _ _ _ Hloop Hg1) as [Hg2 Hrest2].
    { by apply (pbests_consistent_extends _ σ). }
    split; [done|]. constructor; [by apply (cost_at_extends _ σ1) | done].
Qed.

Lemma init_loop_consistent cost vmin vmax params todo :
  forall gv gp σ todo' gv' gp' σ',
    init_loop cost vmin vmax params todo gv gp σ = Ok ((todo', gv', gp'), σ') ->
    cost_at cost (heap σ) gv gp ->
    cost_at cost (heap σ') gv' gp' /\ pbests_consistent cost (heap σ') todo' /\
    Forall (fun p => pbest_value p <> PInf) todo'.
Proof.
  induction todo as [|p rest IH]; intros gv gp σ todo' gv' gp' σ' Hrun Hg.
  - apply ret_Ok_inv in Hrun as [[= -> -> ->] ->]. split; [done|]. split; constructor.
  - cbn [init_loop] in Hrun.
    apply bind_Ok_inv in Hrun as ([[p1 gv1] gp1] & σ1 & Hstep & Hrun).
    apply bind_Ok_inv in Hrun as ([[rest1 gv2] gp2] & σ2 & Hloop & Hrun).
    apply ret_Ok_inv in Hrun as [[= -> -> ->] ->].
    pose proof (grows_init_loop _ _ _ _ _ _ _ _ _ _ Hloop) as Hext2.
    cbn beta in Hext2.
    apply init_particle_inv in Hstep as (Hext1 & x & Hx & Hpv & Hpb & Hgv & Hgp).
    assert (Hg1 : cost_at cost (heap σ1) gv1 gp1).
    { rewrite Hgv, Hgp. destruct (ereal_ltb (Fin (cost x)) gv);
        [right; by exists x | by apply (cost_at_extends _ σ)]. }
    destruct (IH _ _ _ _ _ _ _ Hloop Hg1) as (Hg2 & Hrest2 & Hfin).
    split; [done|]. split.
    + constructor; [|done]. apply (cost_at_extends _ σ1); [done|].
      right. exists x. by rewrite Hpb.
    + constructor; [by rewrite Hpv | done].
Qed.

End Consistent.

(** ** Unfolding the loops *)

Lemma examine_loop_state ps gp c h σ r σ' :
  examine_loop ps gp c h σ = Ok (r, σ') -> σ' = σ.
Proof.
  revert c h. induction ps as [|p rest IH]; intros c h Hrun.
  - by apply ret_Ok_inv in Hrun as [_ ->].
  - cbn [examine_loop] in Hrun.
    apply bind_Ok_inv in Hrun as (x & σ1 & [-> _]%load_inv & Hrun).
    apply bind_Ok_inv in Hrun as (g & σ2 & [-> _]%load_inv & Hrun).
    apply bind_Ok_inv in Hrun as (eqs & σ3 & [_ ->]%lift_Ok_inv & Hrun).
    apply bind_Ok_inv in Hrun as (x' & σ4 & [-> _]%load_inv & Hrun).
    apply bind_Ok_inv in Hrun as (g' & σ5 & [-> _]%load_inv & Hrun).
    apply bind_Ok_inv in Hrun as (nes & σ6 & [_ ->]%lift_Ok_inv & Hrun).
    by eapply IH.
Qed.

Section Unfold.
Context `{NumpyExp}.

(** What a round of the main loop consists of. *)
Lemma iteration_unfold cost vmin vmax params con wdamp c1 c2 minv maxv it s σ s' σ' :
  iteration cost vmin vmax params con wdamp c1 c2 minv maxv it s σ = Ok (s', σ') ->
  (exists r, examine_particles (particles_vector s) (gbest_position s) σ = Ok (r, σ)) /\
  move_loop cost vmin vmax params con (w s) c1 c2 minv maxv (particles_vector s)
    (gbest_value s) (gbest_position s) σ
  = Ok ((particles_vector s', gbest_value s', gbest_position s'), σ') /\
  (it + 1 < length (best_costs s))%nat /\
  best_costs s' = <[(it + 1)%nat := gbest_value s']> (best_costs s) /\
  w s' = w s * wdamp.
Proof.
  unfold iteration. intros Hrun.
  apply bind_Ok_inv in Hrun as (r & σ1 & Hex & Hrun).
  pose proof (examine_loop_state _ _ _ _ _ _ _ Hex) as ->.
  apply bind_Ok_inv in Hrun as ([[ps gv] gp] & σ2 & Hmove & Hrun).
  apply bind_Ok_inv in Hrun as (bc & σ3 & [Hset ->]%lift_Ok_inv & Hrun).
  apply ret_Ok_inv in Hrun as [-> ->].
  cbn [particles_vector gbest_value gbest_position best_costs w].
  unfold setitem in Hset.
  destruct (it + 1 <? length (best_costs s))%nat eqn:Hlt; [|done].
  injection Hset as <-. apply Nat.ltb_lt in Hlt. eauto 10.
Qed.

(** Whatever every round keeps, the main loop keeps. *)
Lemma main_loop_keeps (I : swarm -> world -> Prop)
    cost vmin vmax params con wdamp c1 c2 minv maxv :
  (forall it s σ s' σ',
     iteration cost vmin vmax params con wdamp c1 c2 minv maxv it s σ = Ok (s', σ') ->
     I s σ -> I s' σ') ->
  forall rounds it s σ e s' σ',
    main_loop cost vmin vmax params con wdamp c1 c2 minv maxv rounds it s σ
    = Ok ((e, s'), σ') ->
    I s σ -> I s' σ'.
Proof.
  intros Hstep. induction rounds as [|rounds IH]; intros it s σ e s' σ' Hrun HI.
  - by apply ret_Ok_inv in Hrun as [[= -> ->] ->].
  - cbn [main_loop] in Hrun.
    apply bind_Ok_inv in Hrun as (s1 & σ1 & Hit & Hrun).
    apply bind_Ok_inv in Hrun as (stop & σ2 & [_ ->]%lift_Ok_inv & Hrun).
    pose proof (Hstep _ _ _ _ _ Hit HI) as HI1. destruct stop.
    + by apply ret_Ok_inv in Hrun as [[= -> ->] ->].
    + by eapply IH.
Qed.

Lemma move_loop_length cost vmin vmax params con w c1 c2 minv maxv todo :
  forall gv gp σ todo' gv' gp' σ',
    move_loop cost vmin vmax params con w c1 c2 minv maxv todo gv gp σ
    = Ok ((todo', gv', gp'), σ') ->
    length todo' = length todo /\
    (Forall (fun p => pbest_value p <> PInf) todo ->
     Forall (fun p => pbest_value p <> PInf) todo').
Proof.
  induction todo as [|p rest IH]; intros gv gp σ todo' gv' gp' σ' Hrun.
  - by apply ret_Ok_inv in Hrun as [[= -> -> ->] ->].
  - cbn [move_loop] in Hrun.
    apply bind_Ok_inv in Hrun as ([[p1 gv1] gp1] & σ1 & Hstep & Hrun).
    apply bind_Ok_inv in Hrun as ([[rest1 gv2] gp2] & σ2 & Hloop & Hrun).
    apply ret_Ok_inv in Hrun as [[= -> -> ->] ->].
    apply IH in Hloop as [Hlen Hfin]. split; [cbn; by rewrite Hlen|].
    intros [Hp Hrest]%Forall_cons. constructor; [|by apply Hfin].
    apply move_particle_observes in Hstep as (x & -> & _).
    unfold observe_pbest. by destruct (ereal_ltb _ _).
Qed.

Lemma init_loop_length cost vmin vmax params todo :
  forall gv gp σ todo' gv' gp' σ',
    init_loop cost vmin vmax params todo gv gp σ = Ok ((todo', gv', gp'), σ') ->
    length todo' = length todo.
Proof.
  induction todo as [|p rest IH]; intros gv gp σ todo' gv' gp' σ' Hrun.
  - by apply ret_Ok_inv in Hrun as [[= -> -> ->] ->].
  - cbn [init_loop] in Hrun.
    apply bind_Ok_inv in Hrun as ([[p1 gv1] gp1] & σ1 & Hstep & Hrun).
    apply bind_Ok_inv in Hrun as ([[rest1 gv2] gp2] & σ2 & Hloop & Hrun).
    apply ret_Ok_inv in Hrun as [[= -> -> ->] ->].
    apply IH in Hloop. cbn. by rewrite Hloop.
Qed.

(** The state at the start of the main loop, seen from the bests. *)
Lemma PSO_start_consistent problem params σ c s σ' :
  PSO_start problem params σ = Ok ((c, s), σ') ->
  cost_at (cost_function problem) (heap σ') (gbest_value s) (gbest_position s) /\
  pbests_consistent (cost_function problem) (heap σ') (particles_vector s) /\
  Forall (fun p => pbest_value p <> PInf) (particles_vector s) /\
  py_range (default 15 (params !! "n_part")) = Ok (length (particles_vector s)).
Proof.
  unfold PSO_start. intros Hrun.
  apply bind_Ok_inv in Hrun as (c' & σ1 & [Hc ->]%lift_Ok_inv & Hrun).
  apply bind_Ok_inv in Hrun as (n & σ2 & [Hn ->]%lift_Ok_inv & Hrun).
  apply bind_Ok_inv in Hrun as (l & σ3 & _ & Hrun).
  apply bind_Ok_inv in Hrun as ([[ps gv] gp] & σ4 & Hinit & Hrun).
  apply bind_Ok_inv in Hrun as (bc0 & σ5 & [Hz ->]%lift_Ok_inv & Hrun).
  apply bind_Ok_inv in Hrun as (bc & σ6 & [Hset ->]%lift_Ok_inv & Hrun).
  apply ret_Ok_inv in Hrun as [[= -> ->] ->].
  cbn [particles_vector gbest_value gbest_position].
  pose proof (init_loop_length _ _ _ _ _ _ _ _ _ _ _ _ Hinit) as Hlen.
  rewrite length_replicate in Hlen.
  apply init_loop_consistent in Hinit as (Hg & Hps & Hfin); [|by left].
  do 3 (split; [done|]). rewrite Hlen. rewrite PSO_setup_eq in Hc. cbv zeta in Hc.
  destruct (defaulted params !! "con"); [|done].
  destruct (defaulted params !! "velocity_limit_scale"); [|done].
  destruct (np_sub _ _); [|done]. destruct (np_mul _ _); [|done].
  injection Hc as <-. exact Hn.
Qed.

(** What the best value and the best position are to each other when the
    main loop is left, and how many particles there are. *)
Lemma PSO_run_consistent problem params σ e s σ' :
  PSO_run problem params σ = Ok ((e, s), σ') ->
  cost_at (cost_function problem) (heap σ') (gbest_value s) (gbest_position s) /\
  py_range (default 15 (params !! "n_part")) = Ok (length (particles_vector s)) /\
  (particles_vector s <> [] -> gbest_value s <> PInf).
Proof.
  intros Hrun.
  apply PSO_run_inv in Hrun as (c & s0 & σ0 & rounds & Hstart & _ & Hloop).
  pose proof (PSO_start_consistent _ _ _ _ _ _ Hstart) as (Hg0 & Hps0 & Hfin0 & Hn).
  apply PSO_start_inv in Hstart as (_ & Hmin0 & _).
  unfold PSO_loop in Hloop.
  set (I := fun (s : swarm) (σ : world) =>
              cost_at (cost_function problem) (heap σ) (gbest_value s) (gbest_position s)
              /\ pbests_consistent (cost_function problem) (heap σ) (particles_vector s)
              /\ Forall (fun p => pbest_value p <> PInf) (particles_vector s)
              /\ swarm_min (gbest_value s) (particles_vector s)
              /\ length (particles_vector s) = length (particles_vector s0)).
  assert (HI : I s σ').
  { eapply (main_loop_keeps I); [|exact Hloop|];
      [|unfold I; split; [exact Hg0|]; split; [exact Hps0|]; split; [exact Hfin0|];
        split; [exact Hmin0 | reflexivity]].
    intros it t τ t' τ' Hit (Hg & Hps & Hfin & Hmin & Hlen).
    apply iteration_unfold in Hit as (_ & Hmove & _).
    destruct (move_loop_consistent _ _ _ _ _ _ _ _ _ _ _ _ _ _ _ _ _ _ Hmove Hg Hps)
      as [Hg' Hps'].
    destruct (move_loop_length _ _ _ _ _ _ _ _ _ _ _ _ _ _ _ _ _ _ Hmove)
      as [Hlen' Hfin'].
    apply (move_loop_min _ _ _ _ _ _ _ _ _ _ _ []) in Hmove as [Hmin' _]; [|done].
    unfold I. split; [exact Hg'|]. split; [exact Hps'|]. split; [by apply Hfin'|].
    split; [exact Hmin' | congruence]. }
  destruct HI as (Hg & _ & Hfin & [Hall _] & Hlen). split; [done|].
  split; [by rewrite Hlen|].
  intros Hne Hinf. rewrite Hinf in Hall.
  destruct (particles_vector s) as [|p ps] eqn:Eps; [done|].
  apply Forall_cons in Hall as [Hle _]. apply Forall_cons in Hfin as [Hp _].
  by destruct (pbest_value p).
Qed.

(** X4: what [PSO] returns as best value is infinite, or it is the cost of
    what it returns as best position, evaluated on the array as it is in the
    store when [PSO] returns. *)
Theorem PSO_returns_cost_of_best_position problem params σ gv gp bc σ' :
  PSO problem params σ = Ok ((gv, gp, bc), σ') ->
  gv = PInf \/
  exists a, denotes (heap σ') gp a /\ gv = Fin (cost_function problem a).
Proof.
  unfold PSO. intros Hrun.
  apply bind_Ok_inv in Hrun as ([e s] & σ1 & Hrun & Hret).
  apply ret_Ok_inv in Hret as [[= -> -> ->] ->]. cbn [snd].
  by apply PSO_run_consistent in Hrun as (Hg & _).
Qed.

End Unfold.

(** ** Well-formed calls return *)

Lemma early_stop_total params it bc :
  window_ok params -> (it + 1 < length bc)%nat ->
  exists b, early_stop (defaulted params) it bc = Ok b.
Proof.
  intros Hwin Hlen. unfold early_stop, getitem.
  rewrite defaulted_early_stopping, defaulted_early_stopping_rounds.
  destruct (truthy (default 0 (params !! "early_stopping"))) eqn:Ht; [|eauto].
  destruct (Hwin Ht) as (e & He & He0). apply as_int_spec in He.
  set (esr := default 10 (params !! "early_stopping_rounds")) in *.
  destruct (Qlt_bool esr (inject_Z (Z.of_nat it))) eqn:Hlt; [|eauto].
  apply Qlt_bool_iff in Hlt. rewrite He, <- Zlt_Qlt in Hlt.
  destruct (lookup_lt_is_Some_2 bc (it + 1)) as [a Ha]; [lia|].
  destruct (lookup_lt_is_Some_2 bc (Z.to_nat (Z.of_nat it + 1 - e))) as [b Hb]; [lia|].
  rewrite (index_nat bc (it + 1) _ a); [|
    rewrite Nat2Z.inj_add, inject_Z_plus; reflexivity | done].
  rewrite (index_nat bc (Z.to_nat (Z.of_nat it + 1 - e)) _ b); [eauto| |done].
  rewrite Z2Nat.id by lia. rewrite He. unfold Z.sub.
  rewrite !inject_Z_plus, inject_Z_opp. reflexivity.
Qed.

Section TotalRuns.
Context `{NumpyExp}.

Lemma main_loop_total cost (vmin vmax minv maxv : list Q) params (D : nat)
    con wdamp c1 c2 rounds :
  (truthy (default 0 (params !! "BPSO")) = false ->
   length vmin = D /\ length vmax = D) ->
  length minv = D -> length maxv = D ->
  window_ok params ->
  forall it s σ,
    wf_swarm D (heap σ) (particles_vector s) (gbest_position s) ->
    (it + rounds < length (best_costs s))%nat ->
    exists e s' σ',
      main_loop cost (Vec vmin) (Vec vmax) (defaulted params) con wdamp c1 c2
        (Vec minv) (Vec maxv) rounds it s σ = Ok ((e, s'), σ') /\
      extends σ σ' /\
      length (best_costs s') = length (best_costs s) /\
      wf_swarm D (heap σ') (particles_vector s') (gbest_position s').
Proof.
  intros Hcont Lminv Lmaxv Hwin.
  induction rounds as [|rounds IH]; intros it s σ Hwf Hlen.
  - exists Finished, s, σ. split; [done|]. split; [apply extends_refl | done].
  - cbn [main_loop].
    destruct (iteration_total cost vmin vmax minv maxv (defaulted params)
                (default 0 (params !! "BPSO")) D con wdamp c1 c2 it s σ
                (defaulted_BPSO params) Hcont Lminv Lmaxv Hwf ltac:(lia))
      as (s1 & σ1 & Hit & Hext1 & Hwf1).
    rewrite (bind_Ok _ _ _ _ _ Hit).
    apply iteration_unfold in Hit as (_ & _ & _ & Hbc & _).
    assert (Hlen1 : length (best_costs s1) = length (best_costs s))
      by (by rewrite Hbc, length_insert).
    destruct (early_stop_total params it (best_costs s1) Hwin ltac:(lia)) as [b Hb].
    rewrite (bind_lift _ _ _ _ Hb). destruct b.
    + exists (EarlyStop it), s1, σ1. done.
    + destruct (IH (S it) s1 σ1 Hwf1 ltac:(lia)) as (e & s' & σ' & Hrun & Hext & Hl & Hwf').
      exists e, s', σ'. split; [done|]. split; [by eapply extends_trans|].
      split; [congruence | done].
Qed.

(** A well-formed call reaches the end of its main loop. *)
Lemma PSO_run_total problem params (D : nat) (n m : Z) σ :
  well_formed problem params D n m ->
  window_ok params ->
  exists e s σ',
    PSO_run problem params σ = Ok ((e, s), σ') /\
    extends σ σ' /\
    length (best_costs s) = S (Z.to_nat m) /\
    ((1 <= n)%Z ->
     exists xs, points_to (heap σ') (gbest_position s) xs /\ length xs = D /\
                gbest_value s = Fin (cost_function problem (Vec xs))).
Proof.
  intros Hwf Hwin.
  destruct (PSO_start_total problem params D n m σ Hwf)
    as (c & s0 & σ0 & minv & maxv & Hstart & Hext0 & Hpar & Hrounds & Hminv & Hmaxv
        & Lminv & Lmaxv & Hwfs & Hlenps & Hbc0 & _).
  pose proof Hwf as (Lmin & Lmax & _ & _ & Hn & _).
  destruct (main_loop_total (cost_function problem) (varmin problem) (varmax problem)
              minv maxv params D (cfg_con c) (cfg_wdamp c) (cfg_c1 c) (cfg_c2 c)
              (Z.to_nat m) ltac:(done) Lminv Lmaxv Hwin 0%nat s0 σ0 Hwfs)
    as (e & s & σ' & Hloop & Hext & Hlen & Hwfs').
  { rewrite Hbc0, length_insert, length_replicate. lia. }
  assert (Hrun : PSO_run problem params σ = Ok ((e, s), σ')).
  { unfold PSO_run. rewrite (bind_Ok _ _ _ _ _ Hstart). cbn [fst snd].
    rewrite (bind_lift _ _ _ _ Hrounds). unfold PSO_loop.
    by rewrite Hpar, Hminv, Hmaxv. }
  exists e, s, σ'.
  split; [done|]. split; [by eapply extends_trans|]. split.
  { by rewrite Hlen, Hbc0, length_insert, length_replicate. }
  intros Hn1.
  destruct (PSO_run_consistent _ _ _ _ _ _ Hrun) as (Hcost & Hrange & Hfin).
  unfold py_range in Hrange. rewrite Hn in Hrange. injection Hrange as Hrange.
  assert (Hne : particles_vector s <> []).
  { intros Hnil. rewrite Hnil in Hrange. cbn in Hrange. lia. }
  destruct Hcost as [Hinf|(a & Ha & Hgv)]; [by apply Hfin in Hne|].
  destruct Hwfs' as [_ [Hnil|(xs & (l & Hl & Hxs) & Lxs)]]; [done|].
  exists xs. split; [by exists l|]. split; [done|].
  rewrite Hl in Ha. cbn in Ha. destruct Ha as (ys & Hys & ->). congruence.
Qed.

(** X5: a well-formed call returns, for a cost function that yields a
    finite number on every array and raises nothing, as every
    [cost_function] of a [Problem] does here.  In dimension [D], with
    [n_part] and [maxit] integers, [maxit] not negative, [con] and
    [velocity_limit_scale] present after defaulting, bounds of length [D]
    and, when early stopping is on, a window that is a natural number,
    [PSO] raises nothing: it returns a trace of [maxit + 1] entries and,
    when there is a particle, a best position that is an array of [D]
    numbers, whose cost is the best value returned. *)
Theorem PSO_total problem params (D : nat) (n m : Z) σ :
  well_formed problem params D n m ->
  window_ok params ->
  exists gv gp bc σ',
    PSO problem params σ = Ok ((gv, gp, bc), σ') /\
    extends σ σ' /\
    length bc = S (Z.to_nat m) /\
    ((1 <= n)%Z ->
     exists xs, points_to (heap σ') gp xs /\ length xs = D /\
                gv = Fin (cost_function problem (Vec xs))).
Proof.
  intros Hwf Hwin.
  destruct (PSO_run_total problem params D n m σ Hwf Hwin)
    as (e & s & σ' & Hrun & Hext & Hlen & Hbest).
  exists (gbest_value s), (gbest_position s), (best_costs s), σ'.
  split; [|done]. unfold PSO. by rewrite (bind_Ok _ _ _ _ _ Hrun).
Qed.

End TotalRuns.

(** ** The early stop is taken only on stagnation *)

Lemma early_stop_true_inv params it bc :
  early_stop params it bc = Ok true ->
  exists es esr a b,
    params !! "early_stopping" = Some es /\ truthy es = true /\
    params !! "early_stopping_rounds" = Some esr /\
    esr < inject_Z (Z.of_nat it) /\
    index bc (inject_Z (Z.of_nat it) + 1) = Ok (Fin a) /\
    index bc (inject_Z (Z.of_nat it) + 1 - esr) = Ok (Fin b) /\
    Qabs (a - b) < 1 # 10000.
Proof.
  unfold early_stop, getitem.
  destruct (params !! "early_stopping") as [es|]; [|done].
  destruct (truthy es) eqn:Ht; [|done].
  destruct (params !! "early_stopping_rounds") as [esr|]; [|done].
  destruct (Qlt_bool esr (inject_Z (Z.of_nat it))) eqn:Hlt; [|done].
  destruct (index bc (inject_Z (Z.of_nat it) + 1)) as [a|] eqn:Ha; [|done].
  destruct (index bc (inject_Z (Z.of_nat it) + 1 - esr)) as [b|] eqn:Hb; [|done].
  intros [= Hd]. destruct a as [a|], b as [b|]; try done.
  apply Qlt_bool_iff in Hlt. apply Qlt_bool_iff in Hd.
  exists es, esr, a, b. do 6 (split; [first [reflexivity | assumption]|]).
  assumption.
Qed.

Section StopOnlyWhenStagnant.
Context `{NumpyExp}.

(** X6: a run leaves the main loop early in round [it] only if early
    stopping is on, [it] exceeds the window, and the entries [it + 1] and
    [it + 1 - early_stopping_rounds] of the trace are finite and less than
    [1e-4] apart; in particular never when [early_stopping] is left to its
    default or is 0. *)
Theorem early_stop_only_when_stagnant problem params σ it s σ' :
  PSO_run problem params σ = Ok ((EarlyStop it, s), σ') ->
  let esr := default 10 (params !! "early_stopping_rounds") in
  truthy (default 0 (params !! "early_stopping")) = true /\
  esr < inject_Z (Z.of_nat it) /\
  exists a b,
    index (best_costs s) (inject_Z (Z.of_nat it) + 1) = Ok (Fin a) /\
    index (best_costs s) (inject_Z (Z.of_nat it) + 1 - esr) = Ok (Fin b) /\
    Qabs (a - b) < 1 # 10000.
Proof.
  intros Hrun esr.
  apply PSO_run_inv in Hrun as (c & s0 & σ0 & rounds & Hstart & Hrounds & Hloop).
  pose proof (PSO_start_rounds _ _ _ _ _ _ _ Hstart Hrounds) as Hlen0.
  pose proof (PSO_start_trace _ _ _ _ _ _ Hstart) as Htr0.
  apply PSO_start_inv in Hstart as (Hc & Hmin0 & _).
  apply PSO_setup_fields in Hc as [Hpar _].
  unfold PSO_loop in Hloop.
  apply main_loop_inv in Hloop as (_ & _ & _ & Hstop); [|assumption..].
  destruct (Hstop it eq_refl) as [_ Hes]. rewrite Hpar in Hes.
  apply early_stop_true_inv in Hes
    as (es & esr' & a & b & Hes & Ht & Hesr & Hlt & Ha & Hb & Hd).
  rewrite defaulted_early_stopping in Hes. injection Hes as <-.
  rewrite defaulted_early_stopping_rounds in Hesr. injection Hesr as <-.
  split; [done|]. split; [done|]. by exists a, b.
Qed.

(** ** The inertia weight *)

Lemma main_loop_exit_range cost vmin vmax params con wdamp c1 c2 minv maxv rounds :
  forall it s σ j s' σ',
    main_loop cost vmin vmax params con wdamp c1 c2 minv maxv rounds it s σ
    = Ok ((EarlyStop j, s'), σ') ->
    (it <= j < it + rounds)%nat.
Proof.
  induction rounds as [|rounds IH]; intros it s σ j s' σ' Hrun.
  - by apply ret_Ok_inv in Hrun as [[=] _].
  - cbn [main_loop] in Hrun.
    apply bind_Ok_inv in Hrun as (s1 & σ1 & Hit & Hrun).
    apply bind_Ok_inv in Hrun as (stop & σ2 & [_ ->]%lift_Ok_inv & Hrun).
    destruct stop.
    + apply ret_Ok_inv in Hrun as [[= -> ->] ->]. lia.
    + apply IH in Hrun. lia.
Qed.

Lemma main_loop_damps cost vmin vmax params con wdamp c1 c2 minv maxv rounds :
  forall it s σ e s' σ',
    main_loop cost vmin vmax params con wdamp c1 c2 minv maxv rounds it s σ
    = Ok ((e, s'), σ') ->
    w s' = Nat.iter (completed e it rounds - it) (fun x => x * wdamp) (w s).
Proof.
  induction rounds as [|rounds IH]; intros it s σ e s' σ' Hrun.
  - apply ret_Ok_inv in Hrun as [[= -> ->] ->]. cbn [completed].
    by replace (it + 0 - it)%nat with 0%nat by lia.
  - cbn [main_loop] in Hrun.
    apply bind_Ok_inv in Hrun as (s1 & σ1 & Hit & Hrun).
    apply bind_Ok_inv in Hrun as (stop & σ2 & [_ ->]%lift_Ok_inv & Hrun).
    apply iteration_unfold in Hit as (_ & _ & _ & _ & Hw). destruct stop.
    + apply ret_Ok_inv in Hrun as [[= -> ->] ->]. cbn [completed].
      replace (S it - it)%nat with 1%nat by lia. by rewrite Hw.
    + assert (Hge : (S it <= completed e (S it) rounds)%nat).
      { destruct e as [j|]; cbn [completed]; [|lia].
        apply main_loop_exit_range in Hrun. lia. }
      apply IH in Hrun. rewrite Hrun, Hw.
      replace (completed e it (S rounds)) with (completed e (S it) rounds)
        by (destruct e; cbn; lia).
      replace (completed e (S it) rounds - it)%nat
        with (S (completed e (S it) rounds - S it)) by lia.
      by rewrite Nat.iter_succ_r.
Qed.

(** X7: the inertia weight is damped once in every completed round, the
    round of an early stop included: when [PSO] leaves the main loop after
    [k] completed rounds, [w] is what [k] successive assignments
    [w = w * wdamp] make of the initial weight. *)
Theorem inertia_damped_once_per_round problem params σ e s σ' :
  PSO_run problem params σ = Ok ((e, s), σ') ->
  w s = Nat.iter (iterations_completed e (best_costs s))
          (fun x => x * default 1 (params !! "wdamp"))
          (default 1 (params !! "w")).
Proof.
  intros (c & s0 & σ0 & rounds & Hstart & Hrounds & Hloop)%PSO_run_inv.
  pose proof (PSO_start_rounds _ _ _ _ _ _ _ Hstart Hrounds) as Hlen0.
  pose proof (PSO_start_trace _ _ _ _ _ _ Hstart) as Htr0.
  apply PSO_start_inv in Hstart as (Hc & Hmin0 & _ & _ & _ & Hw0).
  unfold PSO_loop in Hloop.
  pose proof (main_loop_damps _ _ _ _ _ _ _ _ _ _ _ _ _ _ _ _ _ Hloop) as Hw.
  apply main_loop_inv in Hloop as (_ & _ & Hlen & _); [|assumption..].
  rewrite Hw, Hw0, Nat.sub_0_r.
  replace (iterations_completed e (best_costs s)) with (completed e 0 rounds)
    by (destruct e; cbn; lia).
  rewrite PSO_setup_eq in Hc. cbv zeta in Hc.
  destruct (defaulted params !! "con"); [|done].
  destruct (defaulted params !! "velocity_limit_scale"); [|done].
  destruct (np_sub _ _); [|done]. destruct (np_mul _ _); [|done].
  injection Hc as <-. reflexivity.
Qed.

End StopOnlyWhenStagnant.

(** ** [examine_particles] *)

Lemma np_compare_negb f a b eqs :
  np_compare f a b = Ok eqs ->
  np_compare (fun x y => negb (f x y)) a b = Ok (map negb eqs).
Proof.
  destruct a as [x|xs], b as [y|ys]; cbn; try done.
  - intros [= <-]. by rewrite <- list_fmap_compose.
  - intros [= <-]. by rewrite <- list_fmap_compose.
  - assert (Hzip : forall xs ys,
              zip_with (fun x y => negb (f x y)) xs ys = map negb (zip_with f xs ys)).
    { clear. induction xs as [|x xs IH]; intros [|y ys]; cbn; [done..|]. by rewrite IH. }
    destruct (length xs =? length ys)%nat.
    + intros [= <-]. by rewrite Hzip.
    + destruct xs as [|x [|x' xs]], ys as [|y [|y' ys]]; try done;
        intros [= <-]; cbn; rewrite <- ?list_fmap_compose; try done;
        f_equal; by rewrite ?Hzip.
Qed.

Lemma all_iff_no_mismatch (eqs : list bool) :
  forallb id eqs = true <-> length (filter (fun b => b = true) (map negb eqs)) = 0%nat.
Proof.
  induction eqs as [|[] eqs IH]; [done|..]; cbn [forallb id andb map negb].
  - by rewrite filter_cons_False by done.
  - rewrite filter_cons_True by done. cbn [length]. split; [done | lia].
Qed.

Lemma examine_loop_counts ps gp :
  forall converged ham_dist σ converged' ham_dist' σ',
    examine_loop ps gp converged ham_dist σ = Ok ((converged', ham_dist'), σ') ->
    exists new,
      ham_dist' = ham_dist ++ new /\ length new = length ps /\
      converged' = (converged + count_zero new)%nat.
Proof.
  induction ps as [|p rest IH]; intros c h σ c' h' σ' Hrun.
  - apply ret_Ok_inv in Hrun as [[= -> ->] ->]. exists []. rewrite app_nil_r.
    unfold count_zero. cbn. split; [done|]. split; [done | lia].
  - cbn [examine_loop] in Hrun.
    apply bind_Ok_inv in Hrun as (x & σ1 & [-> Hx]%load_inv & Hrun).
    apply bind_Ok_inv in Hrun as (g & σ2 & [-> Hg]%load_inv & Hrun).
    apply bind_Ok_inv in Hrun as (eqs & σ3 & [Heq ->]%lift_Ok_inv & Hrun).
    apply bind_Ok_inv in Hrun as (x' & σ4 & [-> Hx']%load_inv & Hrun).
    apply bind_Ok_inv in Hrun as (g' & σ5 & [-> Hg']%load_inv & Hrun).
    apply bind_Ok_inv in Hrun as (nes & σ6 & [Hne ->]%lift_Ok_inv & Hrun).
    assert (x' = x) as ->.
    { destruct (position p); cbn in *; [congruence|].
      destruct Hx as (? & ? & ->), Hx' as (? & ? & ->). congruence. }
    assert (g' = g) as ->.
    { destruct gp; cbn in *; [congruence|].
      destruct Hg as (? & ? & ->), Hg' as (? & ? & ->). congruence. }
    rewrite (np_compare_negb _ _ _ _ Heq) in Hne. injection Hne as <-.
    apply IH in Hrun as (new & -> & Hlen & ->).
    set (d := length (filter (fun b => b = true) (map negb eqs))).
    exists (d :: new). rewrite <- app_assoc. split; [done|].
    split; [cbn; by rewrite Hlen|].
    unfold count_zero. destruct (forallb id eqs) eqn:Hall.
    + apply all_iff_no_mismatch in Hall. fold d in Hall.
      rewrite filter_cons_True by done. cbn. lia.
    + assert (d <> 0%nat).
      { intros Hd. apply all_iff_no_mismatch in Hd. congruence. }
      rewrite filter_cons_False by done. lia.
Qed.

(** X8: when [examine_particles] returns, the store and the generator are
    as before, [particle_hamming_distance] has one entry per particle, and
    [number_converged] is the number of particles at distance 0 (so it never
    exceeds the number of particles). *)
Theorem examine_particles_counts ps gp σ converged ham_dist σ' :
  examine_particles ps gp σ = Ok ((converged, ham_dist), σ') ->
  σ' = σ /\ length ham_dist = length ps /\
  converged = count_zero ham_dist /\ (converged <= length ps)%nat.
Proof.
  unfold examine_particles. intros Hrun.
  pose proof (examine_loop_state _ _ _ _ _ _ _ Hrun) as ->.
  apply examine_loop_counts in Hrun as (new & -> & Hlen & ->).
  cbn [app]. split; [done|]. split; [done|]. split; [done|].
  cbn. rewrite <- Hlen. unfold count_zero. apply length_filter.
Qed.

(** ** Continuous runs stay inside the bounds *)

Lemma boxed_extends σ σ' vmin vmax o :
  extends σ σ' -> boxed (heap σ) vmin vmax o -> boxed (heap σ') vmin vmax o.
Proof.
  intros Hext (xs & Hp & Hbox). exists xs. split; [by eapply points_to_extends | done].
Qed.

Lemma box_particle_extends σ σ' vmin vmax p :
  extends σ σ' -> box_particle (heap σ) vmin vmax p ->
  box_particle (heap σ') vmin vmax p.
Proof. intros Hext [Hx Hpb]. split; by apply (boxed_extends σ). Qed.

Lemma np_reduce2_Vec_inv f a ys r :
  np_reduce2 f a (Vec ys) = Ok r ->
  exists xs, a = Vec xs /\ length xs = length ys /\ r = Vec (zip_with f xs ys).
Proof.
  destruct a as [x|xs]; cbn; [done|].
  destruct (length xs =? length ys)%nat eqn:E; [|done].
  apply Nat.eqb_eq in E. intros [= <-]. by exists xs.
Qed.

Lemma new_Vec_inv xs σ o σ' :
  new (Vec xs) σ = Ok (o, σ') -> points_to (heap σ') o xs.
Proof. intros [= <- <-]. cbn. apply points_to_new. Qed.

Lemma clamp_in_box (vmin vmax xs : list Q) :
  Forall2 Qle vmin vmax -> length xs = length vmin ->
  in_box vmin vmax (zip_with Qmin (zip_with Qmax xs vmin) vmax).
Proof.
  intros Hle Hlen. pose proof (Forall2_length _ _ _ Hle) as Hl. split.
  - rewrite !length_zip_with. lia.
  - intros i lo hi x Hlo Hhi. rewrite !lookup_zip_with, Hlo, Hhi.
    destruct (xs !! i) as [y|]; [|done]. cbn. intros [= <-].
    apply Qclamp_range. by eapply (Forall2_lookup_lr Qle vmin vmax).
Qed.

Lemma uniform_in_box (vmin vmax us : list Q) :
  Forall2 Qle vmin vmax -> length us = length vmin ->
  Forall (fun u => 0 <= u <= 1) us ->
  in_box vmin vmax
    (zip_with (fun (lh : Q * Q) u => fst lh + (snd lh - fst lh) * u) (zip vmin vmax) us).
Proof.
  intros Hle Hlen Hus. pose proof (Forall2_length _ _ _ Hle) as Hl. split.
  - rewrite length_zip_with, length_zip. lia.
  - intros i lo hi x Hlo Hhi. rewrite lookup_zip_with.
    rewrite lookup_zip_with, Hlo, Hhi. cbn.
    destruct (us !! i) as [u|] eqn:Hu; [|done]. cbn. intros [= <-].
    pose proof (Forall2_lookup_lr Qle vmin vmax i lo hi Hle Hlo Hhi) as Hlohi.
    eapply Forall_lookup_1 in Hus as [Hu0 Hu1]; [|exact Hu]. split; nra.
Qed.

Section Box.
Context `{NumpyExp}.

Lemma update_position_boxed self (vmin vmax : list Q) b σ p' σ' :
  truthy b = false -> Forall2 Qle vmin vmax ->
  update_position self (Vec vmin) (Vec vmax) b σ = Ok (p', σ') ->
  boxed (heap σ') vmin vmax (position p').
Proof.
  intros Hb Hle. unfold update_position. rewrite Hb. cbn [negb]. intros Hrun.
  apply bind_Ok_inv in Hrun as (x & σ1 & _ & Hrun).
  apply bind_Ok_inv in Hrun as (v & σ2 & _ & Hrun).
  apply bind_Ok_inv in Hrun as (p1 & σ3 & _ & Hrun).
  apply bind_Ok_inv in Hrun as (o1 & σ4 & _ & Hrun).
  apply bind_Ok_inv in Hrun as (p2 & σ5 & [H2 ->]%lift_Ok_inv & Hrun).
  apply bind_Ok_inv in Hrun as (o2 & σ6 & _ & Hrun).
  apply bind_Ok_inv in Hrun as (p3 & σ7 & [H3 ->]%lift_Ok_inv & Hrun).
  apply bind_Ok_inv in Hrun as (o3 & σ8 & Hnew & Hrun).
  apply ret_Ok_inv in Hrun as [-> ->]. cbn [position].
  apply np_reduce2_Vec_inv in H2 as (xs1 & -> & L1 & ->).
  apply np_reduce2_Vec_inv in H3 as (xs2 & [= <-] & L2 & ->).
  apply new_Vec_inv in Hnew. eexists. split; [exact Hnew|].
  by apply clamp_in_box.
Qed.

Lemma initial_position_boxed self (vmin vmax : list Q) b σ p' σ' :
  truthy b = false -> Forall2 Qle vmin vmax ->
  (forall k, 0 <= draws σ k <= 1) ->
  initial_position self (Vec vmin) (Vec vmax) b σ = Ok (p', σ') ->
  boxed (heap σ') vmin vmax (position p') /\ pbest_position p' = position p'.
Proof.
  intros Hb Hle Hdraws. pose proof (Forall2_length _ _ _ Hle) as Hl.
  unfold initial_position.
  rewrite (bind_lift _ (length vmin)) by done. rewrite Hb. cbn [negb].
  erewrite bind_Ok; [|apply np_random_uniform_eq; by apply broadcast_to_same].
  rewrite bind_new. cbn [heap draws next].
  rewrite (bind_lift _ (length vmin)) by done.
  erewrite bind_Ok; [|apply np_random_uniform_eq; by apply broadcast_to_same].
  rewrite bind_new. cbn [heap draws next].
  intros [= <- <-]. cbn [position pbest_position heap]. split; [|done].
  eexists. split; [apply points_to_app, points_to_new|].
  apply uniform_in_box; [done | by rewrite length_map, length_seq |].
  apply Forall_fmap, Forall_forall. intros k _. apply Hdraws.
Qed.

Lemma move_particle_boxed cost (vmin vmax : list Q) params b con w c1 c2 minv maxv
    p gv gp σ p' gv' gp' σ' :
  params !! "BPSO" = Some b -> truthy b = false -> Forall2 Qle vmin vmax ->
  move_particle cost (Vec vmin) (Vec vmax) params con w c1 c2 minv maxv p gv gp σ
  = Ok ((p', gv', gp'), σ') ->
  boxed (heap σ) vmin vmax (pbest_position p) ->
  boxed (heap σ) vmin vmax gp ->
  box_particle (heap σ') vmin vmax p' /\ boxed (heap σ') vmin vmax gp'.
Proof.
  intros Hparams Hb Hle Hrun Hpb Hgp.
  pose proof (grows_move_particle _ _ _ _ _ _ _ _ _ _ _ _ _ _ _ _ Hrun) as Hext.
  cbn beta in Hext.
  pose proof (move_particle_inv _ _ _ _ _ _ _ _ _ _ _ _ _ _ _ _ _ _ Hrun)
    as (_ & x & _ & _ & _ & Hgp' & Hpb').
  assert (Hpos : boxed (heap σ') vmin vmax (position p')).
  { unfold move_particle in Hrun.
    apply bind_Ok_inv in Hrun as (p1 & σ1 & _ & Hrun).
    apply bind_Ok_inv in Hrun as (b' & σ2 & [Hget ->]%lift_Ok_inv & Hrun).
    unfold getitem in Hget. rewrite Hparams in Hget. injection Hget as <-.
    apply bind_Ok_inv in Hrun as (p2 & σ3 & Hup & Hrun).
    apply update_position_boxed in Hup; [|done..].
    apply bind_Ok_inv in Hrun as (y & σ4 & [-> _]%load_inv & Hrun).
    destruct (ereal_ltb _ (pbest_value p2));
      [destruct (ereal_ltb _ gv)|];
      apply ret_Ok_inv in Hrun as [[= Hp' _ _] Hσ]; subst p' σ'; exact Hup. }
  split; [split; [done|]|].
  - rewrite Hpb'. destruct (ereal_ltb _ _); [done | by apply (boxed_extends σ)].
  - rewrite Hgp'. destruct (fst _); [done | by apply (boxed_extends σ)].
Qed.

Lemma move_loop_boxed cost (vmin vmax : list Q) params b con w c1 c2 minv maxv todo :
  params !! "BPSO" = Some b -> truthy b = false -> Forall2 Qle vmin vmax ->
  forall gv gp σ todo' gv' gp' σ',
    move_loop cost (Vec vmin) (Vec vmax) params con w c1 c2 minv maxv todo gv gp σ
    = Ok ((todo', gv', gp'), σ') ->
    Forall (box_particle (heap σ) vmin vmax) todo ->
    boxed (heap σ) vmin vmax gp ->
    Forall (box_particle (heap σ') vmin vmax) todo' /\ boxed (heap σ') vmin vmax gp'.
Proof.
  intros Hparams Hb Hle.
  induction todo as [|p rest IH]; intros gv gp σ todo' gv' gp' σ' Hrun Hps Hgp.
  - by apply ret_Ok_inv in Hrun as [[= -> -> ->] ->].
  - cbn [move_loop] in Hrun. apply Forall_cons in Hps as [[_ Hp] Hrest].
    apply bind_Ok_inv in Hrun as ([[p1 gv1] gp1] & σ1 & Hstep & Hrun).
    apply bind_Ok_inv in Hrun as ([[rest1 gv2] gp2] & σ2 & Hloop & Hrun).
    apply ret_Ok_inv in Hrun as [[= -> -> ->] ->].
    pose proof (grows_move_particle _ _ _ _ _ _ _ _ _ _ _ _ _ _ _ _ Hstep) as Hext1.
    pose proof (grows_move_loop _ _ _ _ _ _ _ _ _ _ _ _ _ _ _ _ Hloop) as Hext2.
    cbn beta in Hext1, Hext2.
    destruct (move_particle_boxed _ _ _ _ _ _ _ _ _ _ _ _ _ _ _ _ _ _ _
                Hparams Hb Hle Hstep Hp Hgp) as [Hp1 Hgp1].
    destruct (IH _ _ _ _ _ _ _ Hloop) as [Hrest' Hgp']; [|done|].
    { eapply Forall_impl; [exact Hrest|]. intros q. by apply box_particle_extends. }
    split; [|done]. constructor; [by apply (box_particle_extends σ1) | done].
Qed.

Lemma init_loop_le cost varmin varmax params todo :
  forall gv gp σ todo' gv' gp' σ',
    init_loop cost varmin varmax params todo gv gp σ = Ok ((todo', gv', gp'), σ') ->
    ereal_le gv' gv.
Proof.
  induction todo as [|q rest IHr]; intros gv gp σ todo' gv' gp' σ' Hloop.
  - apply ret_Ok_inv in Hloop as [[= _ -> _] _]. apply ereal_le_refl.
  - cbn [init_loop] in Hloop.
    apply bind_Ok_inv in Hloop as ([[q1 g1] o1] & τ1 & Hs & Hloop).
    apply bind_Ok_inv in Hloop as ([[r1 g2] o2] & τ2 & Hl & Hloop).
    apply ret_Ok_inv in Hloop as [[= _ -> _] _].
    apply init_particle_inv in Hs as (_ & y & _ & _ & _ & -> & _).
    eapply ereal_le_trans; [eapply IHr; exact Hl|].
    destruct (ereal_ltb (Fin (cost y)) gv) eqn:E;
      [by apply ereal_ltb_le | apply ereal_le_refl].
Qed.

Lemma init_loop_boxed cost (vmin vmax : list Q) params b todo :
  params !! "BPSO" = Some b -> truthy b = false -> Forall2 Qle vmin vmax ->
  forall gv gp σ todo' gv' gp' σ',
    (forall k, 0 <= draws σ k <= 1) ->
    init_loop cost (Vec vmin) (Vec vmax) params todo gv gp σ
    = Ok ((todo', gv', gp'), σ') ->
    gv = PInf \/ boxed (heap σ) vmin vmax gp ->
    Forall (box_particle (heap σ') vmin vmax) todo' /\
    (todo' = [] \/ boxed (heap σ') vmin vmax gp') /\
    (gv' = PInf \/ boxed (heap σ') vmin vmax gp').
Proof.
  intros Hparams Hb Hle.
  induction todo as [|p rest IH]; intros gv gp σ todo' gv' gp' σ' Hdraws Hrun Hgp.
  - apply ret_Ok_inv in Hrun as [[= -> -> ->] ->]. split; [constructor|].
    split; [by left | done].
  - cbn [init_loop] in Hrun.
    apply bind_Ok_inv in Hrun as ([[p1 gv1] gp1] & σ1 & Hstep & Hrun).
    apply bind_Ok_inv in Hrun as ([[rest1 gv2] gp2] & σ2 & Hloop & Hrun).
    apply ret_Ok_inv in Hrun as [[= -> -> ->] ->].
    pose proof (grows_init_particle _ _ _ _ _ _ _ _ _ _ Hstep) as Hext1.
    pose proof (grows_init_loop _ _ _ _ _ _ _ _ _ _ Hloop) as Hext2.
    cbn beta in Hext1, Hext2.
    assert (box_particle (heap σ1) vmin vmax p1 /\
                  (gv1 <> PInf /\ boxed (heap σ1) vmin vmax gp1)) as [Hp1 [Hfin1 Hgp1]].
    { pose proof (init_particle_inv _ _ _ _ _ _ _ _ _ _ _ _ Hstep)
        as (_ & x & _ & _ & Hpb & Hgv & Hgp1).
      assert (Hpos : boxed (heap σ1) vmin vmax (position p1)).
      { unfold init_particle in Hstep.
        apply bind_Ok_inv in Hstep as (b' & τ1 & [Hget ->]%lift_Ok_inv & Hstep).
        unfold getitem in Hget. rewrite Hparams in Hget. injection Hget as <-.
        apply bind_Ok_inv in Hstep as (q & τ2 & Hinit & Hstep).
        apply initial_position_boxed in Hinit as [Hq _]; [|done..].
        cbn [position velocity pbest_position pbest_value] in Hstep.
        apply bind_Ok_inv in Hstep as (y & τ3 & [-> _]%load_inv & Hstep).
        cbn [position velocity pbest_position pbest_value] in Hstep.
        destruct (ereal_ltb _ gv);
          apply ret_Ok_inv in Hstep as [[= Hp' _ _] Hσ]; subst p1 σ1; exact Hq. }
      split; [split; [done | by rewrite Hpb]|].
      rewrite Hgv, Hgp1. destruct (ereal_ltb (Fin (cost x)) gv) eqn:E; [done|].
      destruct Hgp as [->|Hgp]; [done|]. split; [|by apply (boxed_extends σ)].
      intros ->. done. }
    destruct (IH gv1 gp1 σ1 rest1 gv2 gp2 σ2) as (Hrest' & _ & Hg');
      [|exact Hloop|by right|].
    { intros k. destruct Hext1 as (_ & -> & _). apply Hdraws. }
    split; [constructor; [by apply (box_particle_extends σ1) | done]|].
    assert (Hgp2 : boxed (heap σ2) vmin vmax gp2).
    { destruct Hg' as [Hinf|Hg']; [|done].
      apply init_loop_le in Hloop. rewrite Hinf in Hloop. by destruct gv1. }
    split; by right.
Qed.

End Box.

Section BoxRun.
Context `{NumpyExp}.

Lemma PSO_start_boxed problem params σ c s σ' :
  truthy (default 0 (params !! "BPSO")) = false ->
  Forall2 Qle (varmin problem) (varmax problem) ->
  (forall k, 0 <= draws σ k <= 1) ->
  PSO_start problem params σ = Ok ((c, s), σ') ->
  Forall (box_particle (heap σ') (varmin problem) (varmax problem))
    (particles_vector s) /\
  (particles_vector s = [] \/
   boxed (heap σ') (varmin problem) (varmax problem) (gbest_position s)).
Proof.
  intros Hb Hle Hdraws. unfold PSO_start. intros Hrun.
  apply bind_Ok_inv in Hrun as (c' & σ1 & [Hc ->]%lift_Ok_inv & Hrun).
  apply bind_Ok_inv in Hrun as (n & σ2 & [Hn ->]%lift_Ok_inv & Hrun).
  apply bind_Ok_inv in Hrun as (l & σ3 & Hal & Hrun).
  apply bind_Ok_inv in Hrun as ([[ps gv] gp] & σ4 & Hinit & Hrun).
  apply bind_Ok_inv in Hrun as (bc0 & σ5 & [Hz ->]%lift_Ok_inv & Hrun).
  apply bind_Ok_inv in Hrun as (bc & σ6 & [Hset ->]%lift_Ok_inv & Hrun).
  apply ret_Ok_inv in Hrun as [[= -> ->] ->].
  cbn [particles_vector gbest_position].
  apply PSO_setup_fields in Hc as [Hparams _].
  eapply init_loop_boxed in Hinit as (Hps & Hgp & _);
    [done | by rewrite Hparams, defaulted_BPSO | done..| | by left].
  injection Hal as _ <-. exact Hdraws.
Qed.

Lemma PSO_run_boxed problem params σ e s σ' :
  truthy (default 0 (params !! "BPSO")) = false ->
  Forall2 Qle (varmin problem) (varmax problem) ->
  (forall k, 0 <= draws σ k <= 1) ->
  PSO_run problem params σ = Ok ((e, s), σ') ->
  Forall (box_particle (heap σ') (varmin problem) (varmax problem))
    (particles_vector s) /\
  (particles_vector s = [] \/
   boxed (heap σ') (varmin problem) (varmax problem) (gbest_position s)).
Proof.
  intros Hb Hle Hdraws Hrun.
  apply PSO_run_inv in Hrun as (c & s0 & σ0 & rounds & Hstart & _ & Hloop).
  pose proof (PSO_start_boxed _ _ _ _ _ _ Hb Hle Hdraws Hstart) as Hbox0.
  apply PSO_start_inv in Hstart as (Hc & _).
  apply PSO_setup_fields in Hc as [Hparams _].
  unfold PSO_loop in Hloop.
  eapply (main_loop_keeps
            (fun s σ =>
               Forall (box_particle (heap σ) (varmin problem) (varmax problem))
                 (particles_vector s) /\
               (particles_vector s = [] \/
                boxed (heap σ) (varmin problem) (varmax problem) (gbest_position s))));
    [|exact Hloop|exact Hbox0].
  intros it t τ t' τ' Hit [Hps Hgp].
  apply iteration_unfold in Hit as (_ & Hmove & _).
  destruct (particles_vector t) as [|p ps'] eqn:Et.
  - apply ret_Ok_inv in Hmove as [[= Hnil _ _] _]. rewrite Hnil.
    split; [constructor | by left].
  - destruct Hgp as [|Hgp]; [done|].
    eapply move_loop_boxed in Hmove as [Hps' Hgp'];
      [|by rewrite Hparams, defaulted_BPSO|done..].
    split; [done | by right].
Qed.

(** X9: in continuous mode, with [varmin] at most [varmax] in every
    dimension and generator values between 0 and 1, what [PSO] returns as
    best position has every component between its two bounds, as soon as
    there is a particle; and when the main loop is left every particle's
    position and personal best position are between the bounds too. *)
Theorem PSO_continuous_stays_in_bounds problem params σ e s σ' :
  truthy (default 0 (params !! "BPSO")) = false ->
  Forall2 Qle (varmin problem) (varmax problem) ->
  (forall k, 0 <= draws σ k <= 1) ->
  PSO_run problem params σ = Ok ((e, s), σ') ->
  PSO problem params σ = Ok ((gbest_value s, gbest_position s, best_costs s), σ') /\
  Forall (box_particle (heap σ') (varmin problem) (varmax problem))
    (particles_vector s) /\
  (forall z, as_int (default 15 (params !! "n_part")) = Some z -> (1 <= z)%Z ->
     boxed (heap σ') (varmin problem) (varmax problem) (gbest_position s)).
Proof.
  intros Hb Hle Hdraws Hrun. split.
  { unfold PSO. by rewrite (bind_Ok _ _ _ _ _ Hrun). }
  destruct (PSO_run_boxed _ _ _ _ _ _ Hb Hle Hdraws Hrun) as [Hps Hgp].
  split; [exact Hps|]. intros z Hz Hz1.
  destruct Hgp as [Hnil|Hgp]; [|exact Hgp]. exfalso.
  apply PSO_run_consistent in Hrun as (_ & Hn & _).
  unfold py_range in Hn. rewrite Hz, Hnil in Hn. injection Hn as Hn.
  cbn in Hn. lia.
Qed.

End BoxRun.

(** ** [initial_position] *)

Lemma Forall2_Qle_replicate n : Forall2 Qle (replicate n 0) (replicate n 1).
Proof. induction n; constructor; [discriminate | done]. Qed.

(** X10: with [varmin] at most [varmax] in every dimension and generator
    values between 0 and 1, [initial_position] returns after [2 * D] values
    of the generator; the velocity it draws lies between [varmin] and
    [varmax] in both modes (the velocity limits play no part), the position
    lies between [varmin] and [varmax] in continuous mode and between 0 and
    1 in binary mode, and the personal best position is the position. *)
Theorem initial_position_ranges self (vmin vmax : list Q) (b : Q) σ :
  Forall2 Qle vmin vmax ->
  (forall k, 0 <= draws σ k <= 1) ->
  let D := length vmin in
  exists p' σ',
    initial_position self (Vec vmin) (Vec vmax) b σ = Ok (p', σ') /\
    next σ' = (next σ + 2 * D)%nat /\
    boxed (heap σ') vmin vmax (velocity p') /\
    (if truthy b then boxed (heap σ') (replicate D 0) (replicate D 1) (position p')
     else boxed (heap σ') vmin vmax (position p')) /\
    pbest_position p' = position p'.
Proof.
  intros Hle Hdraws D. pose proof (Forall2_length _ _ _ Hle) as Hl.
  assert (Hus : forall start, Forall (fun u => 0 <= u <= 1) (map (draws σ) (seq start D))).
  { intros start. apply Forall_fmap, Forall_forall. intros k _. apply Hdraws. }
  unfold initial_position.
  rewrite (bind_lift _ (length vmin)) by done. fold D.
  destruct (truthy b) eqn:Hb; cbn [negb].
  - erewrite bind_Ok; [|by apply np_random_uniform_eq].
    rewrite bind_new. cbn [heap draws next].
    rewrite (bind_lift _ (length vmin)) by done. fold D.
    erewrite bind_Ok; [|apply np_random_uniform_eq; by apply broadcast_to_same].
    rewrite bind_new. cbn [heap draws next].
    eexists _, _. split; [reflexivity|]. cbn [position velocity pbest_position heap next].
    split; [lia|]. split; [|split; [|done]].
    + eexists. split; [apply points_to_new|].
      apply uniform_in_box; [done | by rewrite length_map, length_seq | apply Hus].
    + eexists. split; [apply points_to_app, points_to_new|].
      apply uniform_in_box; [apply Forall2_Qle_replicate | | apply Hus].
      by rewrite length_map, length_seq, length_replicate.
  - erewrite bind_Ok; [|apply np_random_uniform_eq; by apply broadcast_to_same].
    rewrite bind_new. cbn [heap draws next].
    rewrite (bind_lift _ (length vmin)) by done. fold D.
    erewrite bind_Ok; [|apply np_random_uniform_eq; by apply broadcast_to_same].
    rewrite bind_new. cbn [heap draws next].
    eexists _, _. split; [reflexivity|]. cbn [position velocity pbest_position heap next].
    split; [lia|]. split; [|split; [|done]].
    + eexists. split; [apply points_to_new|].
      apply uniform_in_box; [done | by rewrite length_map, length_seq | apply Hus].
    + eexists. split; [apply points_to_app, points_to_new|].
      apply uniform_in_box; [done | by rewrite length_map, length_seq | apply Hus].
Qed.

Section Sigmoid.
Context `{NumpyExp}.

(** X11: where [np.exp] is not negative, [sigmoid] lies between 0 and 1,
    both included, so what [update_position] compares a generator value
    with in binary mode is a probability. *)
Theorem sigmoid_range (x : Q) : 0 <= np_exp (- x) -> 0 <= sigmoid x <= 1.
Proof.
  intros He. unfold sigmoid.
  assert (Hpos : 0 < 1 + np_exp (- x)) by lra. split.
  - apply Qle_shift_div_l; [exact Hpos | lra].
  - apply Qle_shift_div_r; [exact Hpos | lra].
Qed.

(** ** The demo *)

Lemma points_to_fun h o xs ys : points_to h o xs -> points_to h o ys -> xs = ys.
Proof. intros (l & -> & Hx) (l' & [= <-] & Hy). congruence. Qed.

(** X12: whatever the generator yields between 0 and 1,
    [find_the_centre_of_a_circle] raises nothing; the centre [(a, b)] it
    prints has both coordinates in [[-1000, 1000]] and the error it prints
    is [|25 - ((3 - a)^2 + (4 - b)^2)|]. *)
Theorem find_the_centre_of_a_circle_returns σ :
  (forall k, 0 <= draws σ k <= 1) ->
  exists a b σ',
    find_the_centre_of_a_circle σ
    = Ok ((a, b, Fin (Qabs (25 - ((3 - a) ^ 2 + (4 - b) ^ 2)))), σ') /\
    - (1000) <= a <= 1000 /\ - (1000) <= b <= 1000.
Proof.
  intros Hdraws.
  destruct (PSO_run_total circle_problem circle_params 2 30 15 σ)
    as (e & s & σ' & Hrun & _ & _ & Hbest).
  { repeat split; try (vm_compute; reflexivity); try (vm_compute; eauto).
    discriminate. }
  { intros _. exists 7%Z. split; [vm_compute; reflexivity | lia]. }
  destruct Hbest as (xs & Hxs & Lxs & Hgv); [lia|].
  destruct (PSO_run_boxed circle_problem circle_params σ e s σ') as [_ Hbox];
    [vm_compute; reflexivity | repeat constructor; discriminate | done..|].
  assert (Hin : in_box (varmin circle_problem) (varmax circle_problem) xs).
  { destruct Hbox as [Hnil|(ys & Hys & Hin)].
    - apply PSO_run_consistent in Hrun as (_ & Hn & _). rewrite Hnil in Hn.
      vm_compute in Hn. discriminate Hn.
    - by rewrite (points_to_fun _ _ _ _ Hxs Hys). }
  destruct xs as [|a [|b [|c xs]]]; try discriminate Lxs.
  destruct Hin as [_ Hin].
  pose proof (Hin 0%nat _ _ _ eq_refl eq_refl eq_refl) as Ha.
  pose proof (Hin 1%nat _ _ _ eq_refl eq_refl eq_refl) as Hb.
  exists a, b, σ'. split; [|split; [exact Ha | exact Hb]].
  assert (HPSO : PSO circle_problem circle_params σ
                 = Ok ((gbest_value s, gbest_position s, best_costs s), σ')).
  { unfold PSO. by rewrite (bind_Ok _ _ _ _ _ Hrun). }
  unfold find_the_centre_of_a_circle. rewrite (bind_Ok _ _ _ _ _ HPSO), Hgv.
  rewrite (bind_load _ [a; b]) by done.
  rewrite (bind_lift _ a) by done. by rewrite (bind_lift _ b) by done.
Qed.

End Sigmoid.

(** ** Calls that raise *)

Lemma bind_Raise {A B} (m : M A) (k : A -> M B) σ e :
  m σ = Raise e -> bind m k σ = Raise e.
Proof. intros Hm. unfold bind. by rewrite Hm. Qed.

Section Raises.
Context `{NumpyExp}.

Lemma PSO_start_Raise problem params σ e :
  PSO_start problem params σ = Raise e -> PSO problem params σ = Raise e.
Proof.
  intros He. unfold PSO, PSO_run. apply bind_Raise. by apply bind_Raise.
Qed.

(** X13: when [BPSO] is neither 0 nor 1 and no [velocity_limit_scale] is
    supplied, neither branch of the defaulting sets one, and [PSO] raises
    [KeyError('velocity_limit_scale')] ([con] being there). *)
Theorem PSO_without_velocity_limit_scale_raises problem params σ :
  is_Some (defaulted params !! "con") ->
  params !! "velocity_limit_scale" = None ->
  ~ default 0 (params !! "BPSO") == 0 ->
  ~ default 0 (params !! "BPSO") == 1 ->
  PSO problem params σ = Raise (KeyError "velocity_limit_scale").
Proof.
  intros [con Hcon] Hvls H0 H1. apply PSO_setup_Raise.
  rewrite PSO_setup_eq. cbv zeta. rewrite Hcon, defaulted_velocity_limit_scale.
  cbv zeta. rewrite Hvls.
  destruct (Qeq_bool (default 0 (params !! "BPSO")) 0) eqn:E0;
    [by apply Qeq_bool_iff in E0|].
  destruct (Qeq_bool (default 0 (params !! "BPSO")) 1) eqn:E1;
    [by apply Qeq_bool_iff in E1|].
  rewrite andb_false_r. done.
Qed.

(** X14: a negative [maxit] makes [PSO] raise once the particles have been
    initialised: [IndexError] for -1, where [best_costs] is empty and
    [best_costs[0]] is assigned, [ValueError] from [np.zeros] below -1.  The
    bounds have one length, [con] and [velocity_limit_scale] are there, and
    [n_part] and [maxit] are integers. *)
Theorem PSO_negative_maxit_raises problem params (n m : Z) σ :
  length (varmin problem) = length (varmax problem) ->
  is_Some (defaulted params !! "con") ->
  is_Some (defaulted params !! "velocity_limit_scale") ->
  as_int (default 15 (params !! "n_part")) = Some n ->
  as_int (default 30 (params !! "maxit")) = Some m ->
  (m < 0)%Z ->
  PSO problem params σ
  = Raise (if (m =? -1)%Z then IndexError else ValueError).
Proof.
  intros Hlen [con Hcon] [vls Hvls] Hn Hm Hneg. apply PSO_start_Raise.
  assert (exists c, PSO_setup problem params = Ok c /\
                    cfg_params c = defaulted params /\
                    cfg_maxit c = default 30 (params !! "maxit") /\
                    cfg_n_part c = default 15 (params !! "n_part"))
    as (c & Hc & Hpar & Hmaxit & Hnpart).
  { rewrite PSO_setup_eq. cbv zeta. rewrite Hcon, Hvls.
    unfold np_sub. rewrite broadcast_same by congruence.
    cbn [np_mul broadcast np_neg]. eexists. split; [reflexivity|]. done. }
  unfold PSO_start. rewrite (bind_lift _ _ _ _ Hc).
  rewrite (bind_lift _ (Z.to_nat n)) by (unfold py_range; by rewrite Hnpart, Hn).
  unfold bind at 1. unfold alloc at 1.
  destruct (init_loop_total (cost_function problem) (varmin problem) (varmax problem)
              (cfg_params c) (default 0 (params !! "BPSO")) (length (varmin problem))
              (replicate (Z.to_nat n) Particle_init)
              ltac:(by rewrite Hpar, defaulted_BPSO) eq_refl ltac:(by symmetry)
              PInf (PyArr (length (heap σ)))
              (World (heap σ ++ [[]]) (draws σ) (next σ)))
    as (ps & gv & gp & σ2 & Hinit & _).
  rewrite (bind_Ok _ _ _ _ _ Hinit).
  unfold bind at 1, lift at 1, np_zeros.
  rewrite Hmaxit, (as_int_plus_1 _ _ Hm).
  destruct (Z.ltb_spec (m + 1) 0) as [Hlt|Hge].
  - destruct (Z.eqb_spec m (-1)); [lia | done].
  - destruct (Z.eqb_spec m (-1)); [|lia]. subst m. done.
Qed.

End Raises.

Section Necessary.
Context `{NumpyExp}.

(** X15: [PSO] returns only when [con] and [velocity_limit_scale] are there
    after defaulting, [n_part] is an integer and [maxit] is an integer that
    is not negative; the trace it returns then has [maxit + 1] entries. *)
Theorem PSO_returns_only_when_set_up problem params σ gv gp bc σ' :
  PSO problem params σ = Ok ((gv, gp, bc), σ') ->
  is_Some (defaulted params !! "con") /\
  is_Some (defaulted params !! "velocity_limit_scale") /\
  is_Some (as_int (default 15 (params !! "n_part"))) /\
  exists m, as_int (default 30 (params !! "maxit")) = Some m /\ (0 <= m)%Z /\
            length bc = S (Z.to_nat m).
Proof.
  unfold PSO. intros Hrun.
  apply bind_Ok_inv in Hrun as ([e s] & σ1 & Hrun & Hret).
  apply ret_Ok_inv in Hret as [[= -> -> ->] ->]. cbn [snd].
  pose proof (PSO_run_consistent _ _ _ _ _ _ Hrun) as (_ & Hn & _).
  apply PSO_run_inv in Hrun as (c & s0 & σ0 & rounds & Hstart & Hrounds & Hloop).
  pose proof (PSO_start_rounds _ _ _ _ _ _ _ Hstart Hrounds) as Hlen0.
  pose proof (PSO_start_trace _ _ _ _ _ _ Hstart) as Htr0.
  apply PSO_start_inv in Hstart as (Hc & Hmin0 & _ & (z & Hz & Hpos & _) & _).
  unfold PSO_loop in Hloop.
  apply main_loop_inv in Hloop as (_ & _ & Hlen & _); [|assumption..].
  pose proof (PSO_setup_fields _ _ _ Hc) as [_ Hmaxit].
  rewrite PSO_setup_eq in Hc. cbv zeta in Hc.
  destruct (defaulted params !! "con") as [con|]; [|done].
  destruct (defaulted params !! "velocity_limit_scale") as [vls|]; [|done].
  split; [done|]. split; [done|]. split.
  { unfold py_range in Hn.
    destruct (as_int (default 15 (params !! "n_part"))) as [k|] eqn:Ek; [|done].
    by exists k. }
  apply as_int_succ in Hz. rewrite Hmaxit in Hz, Hrounds.
  exists (z - 1)%Z. split; [done|]. split; [lia|].
  unfold py_range in Hrounds. rewrite Hz in Hrounds. injection Hrounds as <-.
  congruence.
Qed.

End Necessary.

(** ** Bounds of different lengths *)

Lemma broadcast_Raise f a b e : broadcast f a b = Raise e -> e = ValueError.
Proof.
  destruct a as [x|xs], b as [y|ys]; cbn; try done.
  destruct (length xs =? length ys)%nat; [done|].
  destruct xs as [|x [|x' xs]], ys as [|y [|y' ys]]; cbn; congruence.
Qed.

Lemma PSO_setup_Raise_kind problem params e :
  PSO_setup problem params = Raise e ->
  e = ValueError \/ e = KeyError "con" \/ e = KeyError "velocity_limit_scale".
Proof.
  rewrite PSO_setup_eq. cbv zeta.
  destruct (defaulted params !! "con"); [|intros [= <-]; auto].
  destruct (defaulted params !! "velocity_limit_scale"); [|intros [= <-]; auto].
  unfold np_sub.
  destruct (broadcast Qminus _ _) as [r|e'] eqn:Hsub.
  - destruct r; cbn; done.
  - intros [= <-]. left. by eapply broadcast_Raise.
Qed.

Lemma PSO_setup_n_part problem params c :
  PSO_setup problem params = Ok c ->
  cfg_n_part c = default 15 (params !! "n_part").
Proof.
  rewrite PSO_setup_eq. cbv zeta.
  destruct (defaulted params !! "con"); [|done].
  destruct (defaulted params !! "velocity_limit_scale"); [|done].
  destruct (np_sub _ _); [|done]. destruct (np_mul _ _); [|done].
  by intros [= <-].
Qed.

Lemma broadcast_to_Raise n (xs : list Q) :
  length xs <> n -> length xs <> 1%nat -> broadcast_to n (Vec xs) = Raise ValueError.
Proof.
  intros Hn H1. cbn. apply Nat.eqb_neq in Hn. rewrite Hn.
  by destruct xs as [|x [|x' xs]].
Qed.

Lemma np_random_uniform_Raise (lo : list Q) high n σ :
  length lo = n -> broadcast_to n high = Raise ValueError ->
  np_random_uniform (Vec lo) high n σ = Raise ValueError.
Proof.
  intros Hlo Hhigh. unfold np_random_uniform.
  rewrite (bind_lift _ lo) by by apply broadcast_to_same.
  apply bind_Raise. unfold lift. by rewrite Hhigh.
Qed.

(** Creating a particle fails when [varmax] can not be stretched to the
    length of [varmin]. *)
Lemma initial_position_Raise self (vmin vmax : list Q) b σ :
  length vmax <> length vmin -> length vmax <> 1%nat ->
  initial_position self (Vec vmin) (Vec vmax) b σ = Raise ValueError.
Proof.
  intros Hne H1. unfold initial_position.
  rewrite (bind_lift _ (length vmin)) by done.
  pose proof (broadcast_to_Raise (length vmin) vmax Hne H1) as Hmax.
  destruct (truthy b); cbn [negb].
  - erewrite bind_Ok; [|by apply np_random_uniform_eq].
    rewrite bind_new. cbn [heap draws next].
    rewrite (bind_lift _ (length vmin)) by done.
    apply bind_Raise. by apply np_random_uniform_Raise.
  - apply bind_Raise. by apply np_random_uniform_Raise.
Qed.

Section UpdatePositionShapes.
Context `{NumpyExp}.

(** In continuous mode [update_position] returns only on bounds of one
    length: [np.max] and [np.min] stack the position with each bound. *)
Lemma update_position_Ok_lengths self (vmin vmax : list Q) b σ p' σ' :
  truthy b = false ->
  update_position self (Vec vmin) (Vec vmax) b σ = Ok (p', σ') ->
  length vmin = length vmax.
Proof.
  intros Hb. unfold update_position. rewrite Hb. cbn [negb]. intros Hrun.
  apply bind_Ok_inv in Hrun as (x & σ1 & _ & Hrun).
  apply bind_Ok_inv in Hrun as (v & σ2 & _ & Hrun).
  apply bind_Ok_inv in Hrun as (p1 & σ3 & _ & Hrun).
  apply bind_Ok_inv in Hrun as (o1 & σ4 & _ & Hrun).
  apply bind_Ok_inv in Hrun as (p2 & σ5 & [H2 ->]%lift_Ok_inv & Hrun).
  apply bind_Ok_inv in Hrun as (o2 & σ6 & _ & Hrun).
  apply bind_Ok_inv in Hrun as (p3 & σ7 & [H3 ->]%lift_Ok_inv & Hrun).
  apply np_reduce2_Vec_inv in H2 as (xs1 & -> & L1 & ->).
  apply np_reduce2_Vec_inv in H3 as (xs2 & [= <-] & L2 & _).
  rewrite length_zip_with in L2. lia.
Qed.

(** C8 (as amended): with [varmin] and [varmax] of different lengths [PSO]
    raises in each of these cases.  (1) Neither has length 1: numpy's
    [ValueError] at [varmax - varmin], or, before that, the [KeyError] of a
    parameter that defaulting left unset.  (2) There is a particle to
    create and [varmax] has not length 1 (so also when [varmin] has length
    1): an error of the set-up, the [TypeError] of an [n_part] that is no
    integer, or the [ValueError] of [np.random.uniform] in
    [initial_position].  (3) Continuous mode, a particle to create and a
    round to run: some exception, at the latest from [np.min] in
    [update_position], which stacks the position with [varmax]. *)
Theorem PSO_mismatched_bounds_raise problem params σ :
  length (varmin problem) <> length (varmax problem) ->
  (length (varmin problem) <> 1%nat -> length (varmax problem) <> 1%nat ->
   exists e,
     PSO problem params σ = Raise e /\
     (e = ValueError \/ e = KeyError "con" \/ e = KeyError "velocity_limit_scale")) /\
  ((forall z, as_int (default 15 (params !! "n_part")) = Some z -> (1 <= z)%Z) ->
   length (varmax problem) <> 1%nat ->
   exists e,
     PSO problem params σ = Raise e /\
     (e = ValueError \/ e = TypeError \/ e = KeyError "con"
      \/ e = KeyError "velocity_limit_scale")) /\
  ((forall z, as_int (default 15 (params !! "n_part")) = Some z -> (1 <= z)%Z) ->
   (forall m, as_int (default 30 (params !! "maxit")) = Some m -> (1 <= m)%Z) ->
   truthy (default 0 (params !! "BPSO")) = false ->
   exists e, PSO problem params σ = Raise e).
Proof.
  intros Hne. split; [|split].
  - intros Hmin Hmax.
    assert (exists e, PSO_setup problem params = Raise e) as [e He].
    { rewrite PSO_setup_eq. cbv zeta.
      destruct (defaulted params !! "con"); [|eauto].
      destruct (defaulted params !! "velocity_limit_scale"); [|eauto].
      unfold np_sub. rewrite broadcast_mismatch by congruence. eauto. }
    exists e. split; [by apply PSO_setup_Raise | by eapply PSO_setup_Raise_kind].
  - intros Hn Hmax.
    destruct (PSO_setup problem params) as [c|e] eqn:Hc; cycle 1.
    { exists e. split; [by apply PSO_setup_Raise|].
      apply PSO_setup_Raise_kind in Hc. tauto. }
    pose proof (PSO_setup_n_part _ _ _ Hc) as Hnpart.
    pose proof (PSO_setup_fields _ _ _ Hc) as [Hpar _].
    destruct (as_int (default 15 (params !! "n_part"))) as [z|] eqn:Hz.
    + exists ValueError. split; [|auto]. apply PSO_start_Raise.
      unfold PSO_start. rewrite (bind_lift _ _ _ _ Hc).
      rewrite (bind_lift _ (Z.to_nat z)) by (unfold py_range; by rewrite Hnpart, Hz).
      specialize (Hn z eq_refl).
      destruct (Z.to_nat z) as [|k] eqn:Hk; [lia|].
      unfold bind at 1. unfold alloc at 1. cbn [replicate init_loop].
      apply bind_Raise, bind_Raise. unfold init_particle.
      rewrite (bind_lift _ (default 0 (params !! "BPSO")))
        by (unfold getitem; by rewrite Hpar, defaulted_BPSO).
      apply bind_Raise. apply initial_position_Raise; congruence.
    + exists TypeError. split; [|auto]. apply PSO_start_Raise.
      unfold PSO_start. rewrite (bind_lift _ _ _ _ Hc).
      apply bind_Raise. unfold lift, py_range. by rewrite Hnpart, Hz.
  - intros Hn Hm Hb.
    destruct (PSO problem params σ) as [[[[gv gp] bc] σ']|e] eqn:HPSO; [exfalso | eauto].
    unfold PSO in HPSO.
    apply bind_Ok_inv in HPSO as ([e s] & σ1 & Hrun & _).
    apply PSO_run_inv in Hrun as (c & s0 & σ0 & rounds & Hstart & Hrounds & Hloop).
    pose proof (PSO_start_consistent _ _ _ _ _ _ Hstart) as (_ & _ & _ & Hlen).
    apply PSO_start_inv in Hstart as (Hc & _).
    apply PSO_setup_fields in Hc as [Hpar Hmaxit].
    unfold py_range in Hlen, Hrounds. rewrite Hmaxit in Hrounds.
    destruct (as_int (default 15 (params !! "n_part"))) as [z|] eqn:Hz; [|done].
    destruct (as_int (default 30 (params !! "maxit"))) as [m|] eqn:Hmz; [|done].
    specialize (Hn z eq_refl). specialize (Hm m eq_refl).
    injection Hlen as Hlen. injection Hrounds as <-.
    destruct (Z.to_nat m) as [|r] eqn:Hr; [lia|].
    unfold PSO_loop in Hloop. cbn [main_loop] in Hloop.
    apply bind_Ok_inv in Hloop as (s1 & σ2 & Hit & _).
    apply iteration_unfold in Hit as (_ & Hmove & _).
    destruct (particles_vector s0) as [|p ps]; [cbn in Hlen; lia|].
    cbn [move_loop] in Hmove.
    apply bind_Ok_inv in Hmove as ([[p1 gv1] gp1] & σ3 & Hp & _).
    unfold move_particle in Hp.
    apply bind_Ok_inv in Hp as (p2 & σ4 & _ & Hp).
    apply bind_Ok_inv in Hp as (b & σ5 & [Hget ->]%lift_Ok_inv & Hp).
    unfold getitem in Hget. rewrite Hpar, defaulted_BPSO in Hget. injection Hget as <-.
    apply bind_Ok_inv in Hp as (p3 & σ6 & Hup & _).
    by apply update_position_Ok_lengths in Hup.
Qed.

End UpdatePositionShapes.

(** ** Binary mode starts from raw draws *)

Lemma ereal_ltb_trans (a b c : ereal) :
  ereal_ltb a b = true -> ereal_ltb b c = true -> ereal_ltb a c = true.
Proof.
  destruct a, b, c; cbn; try done. rewrite !Qlt_bool_iff. apply Qlt_trans.
Qed.

Section BestKept.
Context `{NumpyExp}.

(** The inner loop leaves the global best and its position as they are, or
    ends with a strictly smaller global best. *)
Lemma move_loop_best_kept cost vmin vmax params con w c1 c2 minv maxv todo :
  forall gv gp σ todo' gv' gp' σ',
    move_loop cost vmin vmax params con w c1 c2 minv maxv todo gv gp σ
    = Ok ((todo', gv', gp'), σ') ->
    (gv' = gv /\ gp' = gp) \/ ereal_ltb gv' gv = true.
Proof.
  induction todo as [|p rest IH]; intros gv gp σ todo' gv' gp' σ' Hrun.
  - apply ret_Ok_inv in Hrun as [[= _ -> ->] _]. by left.
  - cbn [move_loop] in Hrun.
    apply bind_Ok_inv in Hrun as ([[p1 gv1] gp1] & σ1 & Hp & Hrun).
    apply bind_Ok_inv in Hrun as ([[rest1 gv2] gp2] & σ2 & Hloop & Hrun).
    apply ret_Ok_inv in Hrun as [[= _ -> ->] _].
    apply move_particle_inv in Hp as (_ & x & _ & _ & Hgv1 & Hgp1 & _).
    assert (Hfirst : (gv1 = gv /\ gp1 = gp) \/ ereal_ltb gv1 gv = true).
    { rewrite Hgv1, Hgp1. unfold observe_gbest.
      destruct (ereal_ltb (Fin (cost x)) (pbest_value p)); cbn [andb]; [|by left].
      destruct (ereal_ltb (Fin (cost x)) gv) eqn:E; [by right | by left]. }
    destruct (IH _ _ _ _ _ _ _ Hloop) as [[-> ->]|Hlt]; [done|].
    right. destruct Hfirst as [[-> _]|Hlt1]; [done | by eapply ereal_ltb_trans].
Qed.

(** C10: in binary mode [initial_position] leaves as position the row of
    values of the generator, [0 + (1 - 0) * u] for each value [u], with no
    thresholding.  A call of [PSO] with [BPSO] equal to 1, [con] supplied,
    [maxit] rounds and at least one particle returns; entry 0 of the trace
    is the cost of the initial position of one of the particles, the
    [j]-th say, whose component [i] is the value the generator yields at
    index [2 * D * j + i] from the start of the call; and whenever the
    returned [gbest_value] still is that cost, no round having improved on
    it, as is the case with [maxit] equal to 0, the returned
    [gbest_position] is that raw row. *)
Theorem binary_initial_best_is_raw problem params σ (D : nat) (b con : Q) (z m : Z) :
  length (varmin problem) = D -> length (varmax problem) = D ->
  params !! "BPSO" = Some b -> b == 1 ->
  params !! "con" = Some con ->
  as_int (default 30 (params !! "maxit")) = Some m -> (0 <= m)%Z ->
  as_int (default 15 (params !! "n_part")) = Some z -> (1 <= z)%Z ->
  window_ok params ->
  (forall self σ1,
     exists p' σ2,
       initial_position self (Vec (varmin problem)) (Vec (varmax problem)) b σ1
       = Ok (p', σ2) /\
       points_to (heap σ2) (position p') (unit_draws σ1 (next σ1) D)) /\
  exists gv gp bc σ' xs j,
    PSO problem params σ = Ok ((gv, gp, bc), σ') /\
    length bc = S (Z.to_nat m) /\
    length xs = D /\ (j < Z.to_nat z)%nat /\
    (forall i x, xs !! i = Some x -> x == draws σ (next σ + 2 * D * j + i)) /\
    bc !! 0%nat = Some (Fin (cost_function problem (Vec xs))) /\
    (gv = Fin (cost_function problem (Vec xs)) ->
     exists l, gp = PyArr l /\ heap σ' !! l = Some xs) /\
    (m = 0%Z -> gv = Fin (cost_function problem (Vec xs))).
Proof.
  intros Lmin Lmax Hb Hb1 Hcon Hm Hm0 Hz Hz1 Hwin.
  pose proof (truthy_one b Hb1) as Ht. split.
  { intros self σ1.
    destruct (initial_position_total self _ _ b D σ1 Lmin Lmax)
      as (p' & σ2 & xs & Hrun & _ & _ & _ & _ & _ & Hxs & _ & Hunit).
    exists p', σ2. split; [done|]. by rewrite <- Hunit. }
  assert (Hwf : well_formed problem params D z m).
  { split; [done|]. split; [done|]. split; [by rewrite defaulted_con, Hcon|].
    split; [|done].
    rewrite defaulted_velocity_limit_scale, Hb. cbv zeta.
    unfold default; cbn [from_option id].
    destruct (_ && _); [done|]. apply Qeq_bool_iff in Hb1. by rewrite Hb1. }
  destruct (PSO_start_total problem params D z m σ Hwf)
    as (c & s0 & σ0 & minv & maxv & Hstart & _ & Hpar & Hrounds & Hminv & Hmaxv
        & Lminv & Lmaxv & Hwfs & _ & Hbc0 & Hbest).
  destruct Hbest as [[_ Hzero]|(j & xs & Hj & Hxs & Lxs & Hgv & Hunit)]; [lia|].
  rewrite Hb in Hunit. specialize (Hunit Ht).
  destruct (main_loop_total (cost_function problem) (varmin problem) (varmax problem)
              minv maxv params D (cfg_con c) (cfg_wdamp c) (cfg_c1 c) (cfg_c2 c)
              (Z.to_nat m) ltac:(done) Lminv Lmaxv Hwin 0%nat s0 σ0 Hwfs)
    as (e & s & σ' & Hloop & Hext & Hlen & _).
  { rewrite Hbc0, length_insert, length_replicate. lia. }
  assert (Hrun : PSO_run problem params σ = Ok ((e, s), σ')).
  { unfold PSO_run. rewrite (bind_Ok _ _ _ _ _ Hstart). cbn [fst snd].
    rewrite (bind_lift _ _ _ _ Hrounds). unfold PSO_loop.
    by rewrite Hpar, Hminv, Hmaxv. }
  assert (Hkept : best_costs s !! 0%nat = Some (gbest_value s0) /\
                  ((gbest_value s = gbest_value s0 /\
                    gbest_position s = gbest_position s0) \/
                   ereal_ltb (gbest_value s) (gbest_value s0) = true)).
  { eapply (main_loop_keeps
              (fun t _ => best_costs t !! 0%nat = Some (gbest_value s0) /\
                          ((gbest_value t = gbest_value s0 /\
                            gbest_position t = gbest_position s0) \/
                           ereal_ltb (gbest_value t) (gbest_value s0) = true)));
      [|exact Hloop|].
    - intros it t τ t' τ' Hit [H0 Hbest].
      apply iteration_unfold in Hit as (_ & Hmove & _ & Hbc & _).
      split; [rewrite Hbc, list_lookup_insert_ne by lia; exact H0|].
      apply move_loop_best_kept in Hmove as [[-> ->]|Hlt]; [exact Hbest|].
      right. destruct Hbest as [[<- _]|Hlt0]; [done | by eapply ereal_ltb_trans].
    - split; [|by left]. rewrite Hbc0. apply list_lookup_insert_eq.
      rewrite length_replicate. lia. }
  destruct Hkept as [H0 Hbest].
  exists (gbest_value s), (gbest_position s), (best_costs s), σ', xs, j.
  split. { unfold PSO. by rewrite (bind_Ok _ _ _ _ _ Hrun). }
  split. { by rewrite Hlen, Hbc0, length_insert, length_replicate. }
  split; [done|]. split; [done|]. split.
  { intros i x Hx. rewrite Hunit in Hx. apply unit_draws_lookup in Hx. by rewrite Hx. }
  split; [by rewrite H0, Hgv|]. split.
  - intros Hsame. destruct Hbest as [[_ Hgp]|Hlt].
    + destruct (points_to_extends σ0 σ' _ _ Hext Hxs) as (l & Hl & Hlx).
      exists l. by rewrite Hgp.
    + rewrite Hsame, <- Hgv, ereal_ltb_irrefl in Hlt. done.
  - intros ->. apply ret_Ok_inv in Hloop as [[= _ <-] _]. done.
Qed.

End BestKept.

(** * Concrete runs *)

(** Witness of C1: the empty dictionary. *)
Lemma PSO_without_con_raises_witness :
  @PSO exp_approx square_problem ∅ σ_half = Raise (KeyError "con").
Proof.
  apply (@PSO_without_con_raises exp_approx square_problem ∅ σ_half); reflexivity.
Defined.

(** Witness of C2: [velocity_limit_scale] 1/2 supplied with [BPSO] 1. *)
Lemma velocity_limit_scale_overwritten_witness :
  exists params',
    default_PSO_params binary_scale_params = Ok params' /\
    params' !! "velocity_limit_scale" = Some 1 /\
    forall c, PSO_setup square_problem binary_scale_params = Ok c ->
      exists range,
        np_sub (Vec (varmax square_problem)) (Vec (varmin square_problem)) = Ok range /\
        np_mul (Scalar 1) range = Ok (cfg_max_velocity c).
Proof.
  apply (velocity_limit_scale_overwritten square_problem binary_scale_params 1 (1 # 2));
    vm_compute; reflexivity.
Defined.

(** Counterexample to C3 as stated: in binary mode the one particle of the
    swarm has position [[1/2]] when the initialisation is over. *)
Lemma binary_position_not_always_bit :
  exists c s σ' p,
    PSO_start square_problem binary_params σ_half = Ok ((c, s), σ') /\
    particles_vector s = [p] /\
    points_to (heap σ') (position p) [1 # 2] /\
    ~ (1 # 2 == 0 \/ 1 # 2 == 1).
Proof.
  eexists _, _, _, _. split; [vm_compute; reflexivity|].
  split; [reflexivity|]. split; [exists 1%nat; split; reflexivity|].
  intros [Heq|Heq]; discriminate Heq.
Defined.

(** Witness of C3 as amended: the particle of [σ_one], continuous mode. *)
Lemma update_position_domain_witness :
  exists self' σ' xs',
    @update_position exp_approx particle_one (Vec [0]) (Vec [1]) 0 σ_one
    = Ok (self', σ') /\
    points_to (heap σ') (position self') xs' /\
    length xs' = length [1 # 4] /\
    (truthy 0 = true -> Forall is_bit xs') /\
    (truthy 0 = false ->
     forall i lo hi x', [0] !! i = Some lo -> [1] !! i = Some hi ->
                        xs' !! i = Some x' -> lo <= x' <= hi).
Proof.
  apply (@update_position_domain exp_approx particle_one [0] [1] 0 σ_one
           [1 # 2] [1 # 4]).
  - exists 1%nat. split; reflexivity.
  - intros _. split; [exists 0%nat; split; reflexivity|].
    repeat split; try reflexivity. constructor; [discriminate | constructor].
Defined.

(** Witness of C4: two rounds of one particle. *)
Lemma best_costs_nonincreasing_witness :
  exists e s σ',
    @PSO_run exp_approx square_problem small_params σ_half = Ok ((e, s), σ') /\
    let n := iterations_completed e (best_costs s) in
    (n < length (best_costs s))%nat /\
    best_costs s !! n = Some (gbest_value s) /\
    forall k, (k < n)%nat ->
      exists a b, best_costs s !! k = Some a /\ best_costs s !! S k = Some b /\
                  ereal_le b a.
Proof.
  eexists _, _, _. split; [vm_compute; reflexivity|].
  eapply (@best_costs_nonincreasing exp_approx square_problem small_params σ_half).
  vm_compute; reflexivity.
Defined.

(** Witness of C5: the same run. *)
Lemma gbest_is_least_pbest_witness :
  exists c s0 σ0,
    PSO_start square_problem small_params σ_half = Ok ((c, s0), σ0) /\
    swarm_min (gbest_value s0) (particles_vector s0) /\
    forall rounds e s σ',
      @PSO_loop exp_approx square_problem c rounds 0 s0 σ0 = Ok ((e, s), σ') ->
      swarm_min (gbest_value s) (particles_vector s).
Proof.
  eexists _, _, _. split; [vm_compute; reflexivity|].
  apply (@gbest_is_least_pbest exp_approx square_problem small_params σ_half).
  vm_compute; reflexivity.
Defined.

(** Witness of C6: the particle of [σ_one], with the global best at its own
    position and velocity limits -1/5 and 1/5. *)
Lemma update_velocity_formula_witness :
  let r1 := draws σ_one (next σ_one) in
  let r2 := draws σ_one (S (next σ_one)) in
  exists self' σ' vs',
    update_velocity particle_one 1 1 (205 # 100) (205 # 100) (PyArr 0%nat)
      (Vec [- (1 # 5)]) (Vec [1 # 5]) σ_one = Ok (self', σ') /\
    next σ' = (next σ_one + 2)%nat /\
    extends σ_one σ' /\
    position self' = position particle_one /\
    pbest_position self' = pbest_position particle_one /\
    pbest_value self' = pbest_value particle_one /\
    points_to (heap σ') (velocity self') vs' /\
    length vs' = length [1 # 4] /\
    forall i v pb x g lo hi,
      [1 # 4] !! i = Some v -> [1 # 2] !! i = Some pb -> [1 # 2] !! i = Some x ->
      [1 # 2] !! i = Some g ->
      [- (1 # 5)] !! i = Some lo -> [1 # 5] !! i = Some hi ->
      vs' !! i = Some (new_velocity 1 1 (205 # 100) (205 # 100) r1 r2 v pb x g lo hi) /\
      (lo <= hi -> lo <= new_velocity 1 1 (205 # 100) (205 # 100) r1 r2 v pb x g lo hi <= hi).
Proof.
  apply (update_velocity_formula particle_one 1 1 (205 # 100) (205 # 100) (PyArr 0%nat)
           [- (1 # 5)] [1 # 5] σ_one [1 # 4] [1 # 2] [1 # 2] [1 # 2]);
    try reflexivity; eexists; split; reflexivity.
Defined.

(** Witness of C7: a constant cost, [maxit] 8, early stopping with a window
    of 5 rounds; the run stops in round 6. *)
Lemma early_stopping_returns_witness :
  exists s σ',
    @PSO_run exp_approx flat_problem early_stop_params σ_half
    = Ok ((EarlyStop 6, s), σ') /\
    @PSO exp_approx flat_problem early_stop_params σ_half
    = Ok ((Fin 0, gbest_position s, best_costs s), σ') /\
    length (best_costs s) = S (Z.to_nat 8) /\
    (forall k, (k <= 7)%nat -> best_costs s !! k = Some (Fin 0)) /\
    (forall k, (7 < k < S (Z.to_nat 8))%nat -> best_costs s !! k = Some (Fin 0)).
Proof.
  apply (proj2 (proj2 (@early_stopping_returns exp_approx flat_problem
                         early_stop_params σ_half)) 1%nat 1%Z 8%Z 0 1);
    try (vm_compute; reflexivity); try lia; try done.
Defined.

(** Counterexample to C8 as stated: [varmin] of length 3, [varmax] of length
    1 and no round of the main loop; [PSO] returns. *)
Lemma PSO_broadcasts_bound_of_length_1 :
  length (varmin broadcast_problem) <> length (varmax broadcast_problem) /\
  exists gv gp bc σ',
    @PSO exp_approx broadcast_problem start_only_params σ_half
    = Ok ((gv, gp, bc), σ').
Proof.
  split; [discriminate|]. eexists _, _, _, _. vm_compute. reflexivity.
Defined.

(** Witness of C8 as amended: lengths 2 and 3; lengths 1 and 3 with a
    particle; lengths 3 and 1 with a particle and two rounds. *)
Lemma PSO_mismatched_bounds_raise_witness :
  (exists e,
     @PSO exp_approx mismatch_problem start_only_params σ_half = Raise e /\
     (e = ValueError \/ e = KeyError "con" \/ e = KeyError "velocity_limit_scale")) /\
  (exists e,
     @PSO exp_approx narrow_min_problem start_only_params σ_half = Raise e /\
     (e = ValueError \/ e = TypeError \/ e = KeyError "con"
      \/ e = KeyError "velocity_limit_scale")) /\
  (exists e, @PSO exp_approx broadcast_problem small_params σ_half = Raise e).
Proof.
  split; [|split].
  - apply (@PSO_mismatched_bounds_raise exp_approx mismatch_problem start_only_params
             σ_half); [vm_compute; lia..].
  - apply (@PSO_mismatched_bounds_raise exp_approx narrow_min_problem
             start_only_params σ_half); [vm_compute; lia | | vm_compute; lia].
    intros z Hz. vm_compute in Hz. injection Hz as <-. lia.
  - apply (@PSO_mismatched_bounds_raise exp_approx broadcast_problem small_params
             σ_half); [vm_compute; lia | | | vm_compute; reflexivity].
    + intros z Hz. vm_compute in Hz. injection Hz as <-. lia.
    + intros m Hm. vm_compute in Hm. injection Hm as <-. lia.
Defined.

(** Where C8 as amended stops: with [varmax] of length 1 a run in binary
    mode returns after three rounds, and without a particle a run returns
    whichever bound has length 1. *)
Lemma PSO_mismatched_bounds_may_return :
  (exists r σ', @PSO exp_approx broadcast_problem binary_rounds_params σ_half
                = Ok (r, σ')) /\
  (exists r σ', @PSO exp_approx narrow_min_problem no_particle_params σ_half
                = Ok (r, σ')).
Proof. split; eexists _, _; vm_compute; reflexivity. Qed.

(** Counterexample to C9 as stated: the particle of [σ_back], whose best
    is the global best 1/4, moves to 3/10, of cost 9/100; the global best
    position recorded is the array at location 7, and that very location is
    the particle's personal best position and its position. *)
Lemma gbest_position_is_alias :
  exists p' gv' σ',
    @move_particle exp_approx (cost_function square_problem)
      (Vec (varmin square_problem)) (Vec (varmax square_problem))
      (cfg_params small_config) (cfg_con small_config) 1
      (cfg_c1 small_config) (cfg_c2 small_config)
      (cfg_min_velocity small_config) (cfg_max_velocity small_config)
      particle_one (Fin (1 # 4)) (PyArr 0%nat) σ_back
    = Ok ((p', gv', PyArr 7%nat), σ') /\
    gv' <> Fin (1 # 4) /\
    pbest_position p' = PyArr 7%nat /\ position p' = PyArr 7%nat.
Proof.
  eexists _, _, _. split; [vm_compute; reflexivity|].
  split; [discriminate|]. split; reflexivity.
Defined.

(** Witness of C9 as amended: the same step. *)
Lemma gbest_position_shared_but_stable_witness :
  exists p' gv' gp' σ',
    @move_particle exp_approx (cost_function square_problem)
      (Vec (varmin square_problem)) (Vec (varmax square_problem))
      (cfg_params small_config) (cfg_con small_config) 1
      (cfg_c1 small_config) (cfg_c2 small_config)
      (cfg_min_velocity small_config) (cfg_max_velocity small_config)
      particle_one (Fin (1 # 4)) (PyArr 0%nat) σ_back
    = Ok ((p', gv', gp'), σ') /\
    gp' = pbest_position p' /\ gp' = position p' /\
    ereal_ltb gv' (Fin (1 # 4)) = true /\
    forall l, gp' = PyArr l ->
      (forall self con w c1 c2 g minv maxv,
          preserves l (update_velocity self con w c1 c2 g minv maxv)) /\
      (forall self vmin vmax b,
          preserves l (@update_position exp_approx self vmin vmax b)) /\
      (forall rounds k s,
          preserves l (@PSO_loop exp_approx square_problem small_config rounds k s)).
Proof.
  eexists _, _, _, _. split; [vm_compute; reflexivity|].
  eapply (@gbest_position_shared_but_stable exp_approx square_problem small_config 1
           particle_one (Fin (1 # 4)) (PyArr 0%nat) σ_back).
  - vm_compute; reflexivity.
  - discriminate.
Defined.

(** Witness of C10: one particle in one dimension and a generator that
    yields 1/2; the position returned has the component 1/2. *)
Lemma default_PSO_params_keeps_supplied_witness :
  exists params',
    default_PSO_params binary_scale_params = Ok params' /\
    params' !! "con" = Some 1.
Proof.
  apply (default_PSO_params_keeps_supplied binary_scale_params "con" 1).
  - vm_compute; reflexivity.
  - discriminate.
Defined.

Lemma default_PSO_params_idempotent_witness :
  default_PSO_params (defaulted binary_scale_params)
  = Ok (defaulted binary_scale_params).
Proof.
  apply (default_PSO_params_idempotent binary_scale_params).
  apply default_PSO_params_Ok.
Defined.

Lemma PSO_returns_cost_of_best_position_witness :
  exists gv gp bc σ',
    @PSO exp_approx square_problem small_params σ_half = Ok ((gv, gp, bc), σ') /\
    (gv = PInf \/
     exists a, denotes (heap σ') gp a /\ gv = Fin (cost_function square_problem a)).
Proof.
  eexists _, _, _, _. split; [vm_compute; reflexivity|].
  eapply (@PSO_returns_cost_of_best_position exp_approx square_problem small_params
            σ_half).
  vm_compute; reflexivity.
Defined.

Lemma PSO_total_witness :
  exists gv gp bc σ',
    @PSO exp_approx flat_problem early_stop_params σ_half = Ok ((gv, gp, bc), σ') /\
    extends σ_half σ' /\
    length bc = S (Z.to_nat 8) /\
    ((1 <= 1)%Z ->
     exists xs, points_to (heap σ') gp xs /\ length xs = 1%nat /\
                gv = Fin (cost_function flat_problem (Vec xs))).
Proof.
  apply (@PSO_total exp_approx flat_problem early_stop_params 1%nat 1%Z 8%Z σ_half).
  - repeat split; try (vm_compute; reflexivity); try (vm_compute; eauto).
    discriminate.
  - intros _. exists 5%Z. split; [vm_compute; reflexivity | lia].
Defined.

Lemma early_stop_only_when_stagnant_witness :
  exists s σ',
    @PSO_run exp_approx flat_problem early_stop_params σ_half
    = Ok ((EarlyStop 6, s), σ') /\
    let esr := default 10 (early_stop_params !! "early_stopping_rounds") in
    truthy (default 0 (early_stop_params !! "early_stopping")) = true /\
    esr < inject_Z (Z.of_nat 6) /\
    exists a b,
      index (best_costs s) (inject_Z (Z.of_nat 6) + 1) = Ok (Fin a) /\
      index (best_costs s) (inject_Z (Z.of_nat 6) + 1 - esr) = Ok (Fin b) /\
      Qabs (a - b) < 1 # 10000.
Proof.
  eexists _, _. split; [vm_compute; reflexivity|].
  eapply (@early_stop_only_when_stagnant exp_approx flat_problem early_stop_params
            σ_half).
  vm_compute; reflexivity.
Defined.

Lemma inertia_damped_once_per_round_witness :
  exists e s σ',
    @PSO_run exp_approx square_problem damped_params σ_half = Ok ((e, s), σ') /\
    w s = Nat.iter (iterations_completed e (best_costs s))
            (fun x => x * default 1 (damped_params !! "wdamp"))
            (default 1 (damped_params !! "w")).
Proof.
  eexists _, _, _. split; [vm_compute; reflexivity|].
  eapply (@inertia_damped_once_per_round exp_approx square_problem damped_params
            σ_half).
  vm_compute; reflexivity.
Defined.

Lemma examine_particles_counts_witness :
  exists converged ham_dist σ',
    examine_particles [particle_one] (PyArr 0%nat) σ_one
    = Ok ((converged, ham_dist), σ') /\
    σ' = σ_one /\ length ham_dist = length [particle_one] /\
    converged = count_zero ham_dist /\ (converged <= length [particle_one])%nat.
Proof.
  eexists _, _, _. split; [vm_compute; reflexivity|].
  eapply (examine_particles_counts [particle_one] (PyArr 0%nat) σ_one).
  vm_compute; reflexivity.
Defined.

Lemma PSO_continuous_stays_in_bounds_witness :
  exists e s σ',
    @PSO_run exp_approx square_problem small_params σ_half = Ok ((e, s), σ') /\
    @PSO exp_approx square_problem small_params σ_half
    = Ok ((gbest_value s, gbest_position s, best_costs s), σ') /\
    Forall (box_particle (heap σ') (varmin square_problem) (varmax square_problem))
      (particles_vector s) /\
    (forall z, as_int (default 15 (small_params !! "n_part")) = Some z -> (1 <= z)%Z ->
       boxed (heap σ') (varmin square_problem) (varmax square_problem)
         (gbest_position s)).
Proof.
  eexists _, _, _. split; [vm_compute; reflexivity|].
  eapply (@PSO_continuous_stays_in_bounds exp_approx square_problem small_params σ_half).
  - vm_compute; reflexivity.
  - repeat constructor. unfold Qle; simpl; lia.
  - intros k. split; unfold Qle; simpl; lia.
  - vm_compute; reflexivity.
Defined.

Lemma PSO_without_velocity_limit_scale_raises_witness :
  @PSO exp_approx square_problem other_mode_params σ_half
  = Raise (KeyError "velocity_limit_scale").
Proof.
  apply (@PSO_without_velocity_limit_scale_raises exp_approx square_problem
           other_mode_params σ_half).
  - vm_compute; eauto.
  - vm_compute; reflexivity.
  - vm_compute; lia.
  - vm_compute; lia.
Defined.

Lemma PSO_negative_maxit_raises_witness :
  @PSO exp_approx square_problem negative_maxit_params σ_half = Raise IndexError.
Proof.
  apply (@PSO_negative_maxit_raises exp_approx square_problem negative_maxit_params
           1%Z (-1)%Z σ_half).
  - reflexivity.
  - vm_compute; eauto.
  - vm_compute; eauto.
  - vm_compute; reflexivity.
  - vm_compute; reflexivity.
  - lia.
Defined.

Lemma initial_position_ranges_witness :
  exists p' σ',
    initial_position Particle_init (Vec [0]) (Vec [1]) 1 σ_half = Ok (p', σ') /\
    next σ' = 2%nat /\
    boxed (heap σ') [0] [1] (velocity p') /\
    boxed (heap σ') [0] [1] (position p') /\
    pbest_position p' = position p'.
Proof.
  apply (initial_position_ranges Particle_init [0] [1] 1 σ_half).
  - repeat constructor. unfold Qle; simpl; lia.
  - intros k. split; unfold Qle; simpl; lia.
Defined.

Lemma sigmoid_range_witness : 0 <= @sigmoid exp_approx 0 <= 1.
Proof. apply (@sigmoid_range exp_approx 0). unfold Qle; simpl; lia. Defined.

Lemma find_the_centre_of_a_circle_returns_witness :
  exists a b σ',
    @find_the_centre_of_a_circle exp_approx σ_half
    = Ok ((a, b, Fin (Qabs (25 - ((3 - a) ^ 2 + (4 - b) ^ 2)))), σ') /\
    - (1000) <= a <= 1000 /\ - (1000) <= b <= 1000.
Proof.
  apply (@find_the_centre_of_a_circle_returns exp_approx σ_half).
  intros k. split; unfold Qle; simpl; lia.
Defined.

Lemma PSO_returns_only_when_set_up_witness :
  exists gv gp bc σ',
    @PSO exp_approx square_problem small_params σ_half = Ok ((gv, gp, bc), σ') /\
    is_Some (defaulted small_params !! "con") /\
    is_Some (defaulted small_params !! "velocity_limit_scale") /\
    is_Some (as_int (default 15 (small_params !! "n_part"))) /\
    exists m, as_int (default 30 (small_params !! "maxit")) = Some m /\ (0 <= m)%Z /\
              length bc = S (Z.to_nat m).
Proof.
  eexists _, _, _, _. split; [vm_compute; reflexivity|].
  eapply (@PSO_returns_only_when_set_up exp_approx square_problem small_params σ_half).
  vm_compute; reflexivity.
Defined.

Lemma default_PSO_params_table_witness :
  exists params',
    default_PSO_params small_params = Ok params' /\
    params' !! "maxit" = Some (default 30 (small_params !! "maxit")) /\
    params' !! "n_part" = Some (default 15 (small_params !! "n_part")) /\
    params' !! "w" = Some (default 1 (small_params !! "w")) /\
    params' !! "wdamp" = Some (default 1 (small_params !! "wdamp")) /\
    params' !! "c1" = Some (default (205 # 100) (small_params !! "c1")) /\
    params' !! "c2" = Some (default (205 # 100) (small_params !! "c2")) /\
    params' !! "display_info" = Some (default 1 (small_params !! "display_info")) /\
    params' !! "early_stopping" = Some (default 0 (small_params !! "early_stopping")) /\
    params' !! "early_stopping_rounds"
    = Some (default 10 (small_params !! "early_stopping_rounds")) /\
    params' !! "BPSO" = Some (default 0 (small_params !! "BPSO")) /\
    (small_params !! "velocity_limit_scale" = None ->
     default 0 (small_params !! "BPSO") == 0 ->
     params' !! "velocity_limit_scale" = Some (2 # 10)).
Proof. apply (default_PSO_params_table small_params). Defined.

Lemma binary_initial_best_is_raw_witness :
  (forall self σ1,
     exists p' σ2,
       initial_position self (Vec (varmin centre_problem))
         (Vec (varmax centre_problem)) 1 σ1 = Ok (p', σ2) /\
       points_to (heap σ2) (position p') (unit_draws σ1 (next σ1) 1)) /\
  exists gv gp bc σ' xs j,
    @PSO exp_approx centre_problem binary_rounds_params σ_half
    = Ok ((gv, gp, bc), σ') /\
    length bc = S (Z.to_nat 3) /\
    length xs = 1%nat /\ (j < Z.to_nat 1)%nat /\
    (forall i x, xs !! i = Some x ->
                 x == draws σ_half (next σ_half + 2 * 1 * j + i)) /\
    bc !! 0%nat = Some (Fin (cost_function centre_problem (Vec xs))) /\
    (gv = Fin (cost_function centre_problem (Vec xs)) ->
     exists l, gp = PyArr l /\ heap σ' !! l = Some xs) /\
    (3%Z = 0%Z -> gv = Fin (cost_function centre_problem (Vec xs))).
Proof.
  apply (@binary_initial_best_is_raw exp_approx centre_problem binary_rounds_params
           σ_half 1%nat 1 1 1%Z 3%Z); try (vm_compute; reflexivity); try lia.
  intros Hes. vm_compute in Hes. discriminate Hes.
Defined.

(** The run of the witness: three rounds, none of which improves on the
    initial best, and the best position returned is the raw row [[1/2]]. *)
Lemma binary_run_returns_raw_row :
  exists gv l bc σ' x,
    @PSO exp_approx centre_problem binary_rounds_params σ_half
    = Ok ((gv, PyArr l, bc), σ') /\
    length bc = 4%nat /\ bc !! 0%nat = Some gv /\
    heap σ' !! l = Some [x] /\ x == 1 # 2.
Proof. eexists _, _, _, _, _. vm_compute. repeat split; reflexivity. Qed.
